(** * Relation and set-command fixture generators

    A shallow embedding of [src/generators/relations.py]
    ([generate_relation_fast], [generate_relation_very_fast]) and of
    [src/generators/sets.py] ([generate_set_commands]).

    Modelling conventions:
    - a Python [str] is a list of Unicode code points ([list Z]);
    - a Python [float] is an IEEE 754 double ([flt]): a finite value
      (a rational of the form m * 2^e, |m| < 2^53, e >= -1074), an
      infinity or nan; the sign of a zero is not kept.  Arithmetic rounds
      to nearest, ties to even, and overflows to an infinity.  [float(k)]
      of an int rounds the same way and raises OverflowError instead of
      returning an infinity; [int(x)] truncates, and raises OverflowError
      on an infinity and ValueError on nan;
    - the module-level [random] generator is an explicit source: a stream
      of draws [rs : nat -> Z] read through a position that is threaded
      through the computation.  [random()] turns one draw [w] into
      [(w mod 2^53) / 2^53], [_randbelow(m)] into [w mod m]; every value
      CPython can return is obtained from some stream;
    - exceptions the code can raise are the constructors of [exn];
    - the file written by a generator is the concatenation of the strings
      passed to [f.write], each of which must be encodable in UTF-8. *)

From Stdlib Require Import String Ascii.
From Stdlib Require Import ZArith QArith Qround Qpower Lqa List Lia Bool Permutation Sorted.
Import ListNotations.

Open Scope Z_scope.

(** ** The Python runtime: exceptions, random source, [random.sample] *)

Inductive exn : Type :=
| ValueError
| IndexError
| ZeroDivisionError
| UnicodeEncodeError
| OverflowError.

Inductive res (A : Type) : Type :=
| Ok : A -> nat -> res A
| Err : exn -> res A.
Arguments Ok {A} _ _.
Arguments Err {A} _.

Definition Rng : Type := nat -> Z.

(** A computation reads the random stream, advances the position of the
    next draw, and may raise. *)
Definition M (A : Type) : Type := Rng -> nat -> res A.

Definition ret {A} (a : A) : M A := fun _ p => Ok a p.

Definition bind {A B} (m : M A) (k : A -> M B) : M B :=
  fun rs p =>
    match m rs p with
    | Ok a p' => k a rs p'
    | Err e => Err e
    end.

Definition throw {A} (e : exn) : M A := fun _ _ => Err e.

Notation "x <- m ;; k" := (bind m (fun x => k))
  (at level 61, m at next level, right associativity).

Definition draw : M Z := fun rs p => Ok (rs p) (S p).

(** [random.random()]: a float in [0, 1) with 53 random bits. *)
Definition random01 : M Q :=
  w <- draw;; ret (Qmake (w mod 9007199254740992) 9007199254740992%positive).

(** [random._randbelow(m)], defined for [m > 0]. *)
Definition randbelow (m : Z) : M Z :=
  w <- draw;; ret (w mod m).

Fixpoint mapM {A B} (f : A -> M B) (l : list A) : M (list B) :=
  match l with
  | [] => ret []
  | x :: t => y <- f x;; ys <- mapM f t;; ret (y :: ys)
  end.

Fixpoint replicateM {A} (k : nat) (m : M A) : M (list A) :=
  match k with
  | O => ret []
  | S k' => x <- m;; xs <- replicateM k' m;; ret (x :: xs)
  end.

(** [pool[j] = x]; positions past the end are left alone (never reached). *)
Fixpoint set_nth {A} (l : list A) (j : nat) (x : A) : list A :=
  match l, j with
  | [], _ => []
  | _ :: t, O => x :: t
  | h :: t, S j' => h :: set_nth t j' x
  end.

(** The selection loop of [random.sample] (partial Fisher-Yates):
<<
    for i in range(k):
        j = randbelow(n - i)
        result[i] = pool[j]
        pool[j] = pool[n - i - 1]
>>
    CPython switches to a rejection loop over a [set] of chosen positions
    for large populations; that branch returns the same kind of result
    ([k] distinct members of the population, each possible for some
    sequence of draws), so this branch is the model of both. *)
Fixpoint sample_loop {A} (d : A) (steps : nat) (m i : nat) (pool : list A)
  : M (list A) :=
  match steps with
  | O => ret []
  | S s =>
      j <- randbelow (Z.of_nat (m - i));;
      let x := nth (Z.to_nat j) pool d in
      let pool' := set_nth pool (Z.to_nat j) (nth (m - i - 1) pool d) in
      rest <- sample_loop d s m (S i) pool';;
      ret (x :: rest)
  end.

(** [random.sample(population, k)]; [d] is a filler for [nth]. *)
Definition sample {A} (d : A) (population : list A) (k : Z) : M (list A) :=
  let m := length population in
  if (0 <=? k) && (k <=? Z.of_nat m) then sample_loop d (Z.to_nat k) m 0 population
  else throw ValueError.

(** [random.choice(seq)]. *)
Definition choice {A} (d : A) (s : list A) : M A :=
  match s with
  | [] => throw IndexError
  | _ => j <- randbelow (Z.of_nat (length s));; ret (nth (Z.to_nat j) s d)
  end.

(** ** Python values: strings, ranges, integer operations *)

Abbreviation str := (list Z).

(** A string literal of the source, as code points. *)
Definition lit (s : string) : str :=
  map (fun a => Z.of_nat (nat_of_ascii a)) (list_ascii_of_string s).

(** [str.isspace] on one code point (the table of CPython's
    [_PyUnicode_IsWhitespace]). *)
Definition is_space (c : Z) : bool :=
  ((9 <=? c) && (c <=? 13)) || ((28 <=? c) && (c <=? 31)) || (c =? 32)
  || (c =? 133) || (c =? 160) || (c =? 5760)
  || ((8192 <=? c) && (c <=? 8202)) || (c =? 8232) || (c =? 8233)
  || (c =? 8239) || (c =? 8287) || (c =? 12288).

Definition is_surrogate (c : Z) : bool := (55296 <=? c) && (c <=? 57343).

Fixpoint str_eqb (a b : str) : bool :=
  match a, b with
  | [], [] => true
  | x :: a', y :: b' => (x =? y) && str_eqb a' b'
  | _, _ => false
  end.

(** [sep.join(l)]. *)
Fixpoint join (sep : str) (l : list str) : str :=
  match l with
  | [] => []
  | [x] => x
  | x :: t => x ++ sep ++ join sep t
  end.

(** [range(m)]. *)
Definition py_range (m : Z) : list Z := map Z.of_nat (seq 0 (Z.to_nat m)).

(** [range(a, b)]. *)
Definition py_range2 (a b : Z) : list Z := map (fun k => a + Z.of_nat k) (seq 0 (Z.to_nat (b - a))).

(** [l[i]], negative positions counting from the end. *)
Definition py_index {A} (l : list A) (i : Z) : M A :=
  let len := Z.of_nat (length l) in
  let i' := if i <? 0 then i + len else i in
  match (if i' <? 0 then None else nth_error l (Z.to_nat i')) with
  | Some x => ret x
  | None => throw IndexError
  end.

(** [(idx // n, idx % n)]; [Z.div] and [Z.modulo] round toward minus
    infinity, as Python's operators do. *)
Definition py_divmod (idx n : Z) : M (Z * Z) :=
  if n =? 0 then throw ZeroDivisionError else ret (idx / n, idx mod n).

(** [int(x)] on a finite float: truncation toward zero. *)
Definition py_int (q : Q) : Z := Z.quot (Qnum q) (Zpos (Qden q)).

(** [a < b] on finite floats (an exact comparison). *)
Definition qlt (a b : Q) : bool := negb (Qle_bool b a).

(** [chr(c)]. *)
Definition py_chr (c : Z) : M str :=
  if (0 <=? c) && (c <=? 1114111) then ret [c] else throw ValueError.

(** [l[:u]]. *)
Definition py_slice_upto {A} (l : list A) (u : Z) : list A :=
  let len := Z.of_nat (length l) in
  let u' := if u <? 0 then Z.max 0 (u + len) else Z.min u len in
  firstn (Z.to_nat u') l.

(** Python's [list * k]. *)
Definition list_repeat {A} (l : list A) (k : nat) : list A := concat (repeat l k).

(** [str(i)] for [i >= 0], least significant digit first. *)
Fixpoint dec_rev (fuel : nat) (i : Z) : str :=
  match fuel with
  | O => []
  | S f => (48 + i mod 10) :: (if i <? 10 then [] else dec_rev f (i / 10))
  end.

Definition py_str_nat (i : Z) : str := rev (dec_rev (S (Z.to_nat (Z.log2 i))) i).

(** [f"{i:06d}"] for [i >= 0]. *)
Definition fmt06 (i : Z) : str :=
  let s := py_str_nat i in repeat 48%Z (6 - length s) ++ s.

(** ** Python floats *)

(** An IEEE 754 double: a finite value, [inf], [-inf] or [nan]. *)
Inductive flt : Type :=
| Fin (v : Q)
| PInf
| NInf
| NaN.

Definition pow2 (e : Z) : Q := Qpower (inject_Z 2) e.

(** The exponent [e] with [2^e <= x < 2^(e+1)], for [x > 0]. *)
Definition flog2 (x : Q) : Z :=
  let e := Z.log2 (Qnum x) - Z.log2 (Zpos (Qden x)) in
  if Qle_bool (pow2 e) x then e else e - 1.

(** The integer nearest to [y], ties to the even one. *)
Definition rne (y : Q) : Z :=
  let f := Qfloor y in
  match (y - inject_Z f ?= 1 # 2)%Q with
  | Lt => f
  | Gt => f + 1
  | Eq => if Z.even f then f else f + 1
  end.

(** [x > 0] rounded to 53 significant bits, or to a multiple of [2^-1074]
    in the subnormal range, with an unbounded exponent. *)
Definition rnd_val (x : Q) : Q :=
  let s := Z.max (flog2 x - 52) (-1074) in
  (inject_Z (rne (x / pow2 s)) * pow2 s)%Q.

Definition round_pos (x : Q) : flt :=
  let v := rnd_val x in
  if Qle_bool (pow2 1024) v then PInf else Fin (Qred v).

(** The double nearest to the rational [x]: round to nearest, ties to
    even, overflowing to an infinity. *)
Definition round (x : Q) : flt :=
  match Qnum x ?= 0 with
  | Eq => Fin 0
  | Gt => round_pos x
  | Lt => match round_pos (- x) with
          | Fin v => Fin (- v)
          | PInf => NInf
          | f => f
          end
  end.

(** [x * y] on floats. *)
Definition fmul (x y : flt) : flt :=
  match x, y with
  | NaN, _ | _, NaN => NaN
  | Fin a, Fin b => round (a * b)
  | Fin a, PInf | PInf, Fin a =>
      if Qeq_bool a 0 then NaN else if qlt 0 a then PInf else NInf
  | Fin a, NInf | NInf, Fin a =>
      if Qeq_bool a 0 then NaN else if qlt 0 a then NInf else PInf
  | PInf, PInf | NInf, NInf => PInf
  | PInf, NInf | NInf, PInf => NInf
  end.

(** [x - y] on floats. *)
Definition fsub (x y : flt) : flt :=
  match x, y with
  | NaN, _ | _, NaN => NaN
  | Fin a, Fin b => round (a - b)
  | Fin _, PInf | NInf, Fin _ | NInf, PInf => NInf
  | Fin _, NInf | PInf, Fin _ | PInf, NInf => PInf
  | PInf, PInf | NInf, NInf => NaN
  end.

(** [x < y] on floats: false whenever one of them is [nan]. *)
Definition flt_lt (x y : flt) : bool :=
  match x, y with
  | Fin a, Fin b => qlt a b
  | Fin _, PInf | NInf, Fin _ | NInf, PInf => true
  | _, _ => false
  end.

(** [float(k)] of an int, as done by [k * x] with [x] a float. *)
Definition int_to_float (k : Z) : M flt :=
  match round (inject_Z k) with
  | Fin v => ret (Fin v)
  | _ => throw OverflowError
  end.

(** [int(x)] of a float. *)
Definition float_to_int (x : flt) : M Z :=
  match x with
  | Fin v => ret (py_int v)
  | PInf | NInf => throw OverflowError
  | NaN => throw ValueError
  end.

(** ** Writing a file *)

(** [f.write(s)] on a file opened with [encoding="utf-8"]: a lone
    surrogate cannot be encoded. *)
Definition fwrite (s : str) : M str :=
  if existsb is_surrogate s then throw UnicodeEncodeError else ret s.

Definition nl : str := [10].

(** ["\n".join(batch) + "\n"] *)
Definition flush (batch : list str) : str := join nl batch ++ nl.

(** The batching of all three writers:
<<
    batch.append(line)
    if len(batch) >= 10000:
        f.write("\n".join(batch) + "\n")
        batch = []
    ...
    if batch:
        f.write("\n".join(batch) + "\n")
>>
    [batches lines batch] lists the strings passed to [f.write].  The
    random draws between two appends never raise, so collecting the lines
    first and flushing them afterwards writes the same file. *)
Fixpoint batches (lines batch : list str) : list str :=
  match lines with
  | [] => match batch with [] => [] | _ :: _ => [flush batch] end
  | l :: r =>
      let batch' := batch ++ [l] in
      if 10000 <=? Z.of_nat (length batch') then flush batch' :: batches r []
      else batches r batch'
  end.

Definition write_lines (lines : list str) : M str :=
  ws <- mapM fwrite (batches lines []);; ret (concat ws).

(** ** The symbol base *)

(** [string.ascii_letters + string.digits + string.punctuation]. *)
Definition symbol_pool : list Z :=
  py_range2 97 123 ++ py_range2 65 91 ++ py_range2 48 58
  ++ py_range2 33 48 ++ py_range2 58 65 ++ py_range2 91 97 ++ py_range2 123 127.

(** [list(symbol_pool)]: the pool as one-character strings. *)
Definition pool_tokens : list str := map (fun c => [c]) symbol_pool.

(** The extension loop of [generate_relation_fast]:
<<
    while len(extra_symbols) < extra_needed:
        if 0xD800 <= code_point <= 0xDFFF:
            code_point = 0xE000
            continue
        char = chr(code_point)
        if not char.isspace():
            extra_symbols.append(char)
        code_point += 1
        if code_point > 0x10FFFF:
            extra_symbols = extra_symbols * ((extra_needed // len(extra_symbols)) + 1)
            break
>>
    ([chr] never raises below 0x110000, so the [try] is dropped.)
    [acc] holds [extra_symbols] reversed ([rev'] is the linear-time
    reversal) and [cnt] its length.  Each
    iteration raises [code_point] or jumps over the surrogates, so
    [extra_fuel] iterations always reach the [break]. *)
Fixpoint extra_loop (fuel : nat) (need cp : Z) (acc : list str) (cnt : Z)
  : M (list str) :=
  match fuel with
  | O => ret (rev' acc)
  | S f =>
      if cnt <? need then
        if (55296 <=? cp) && (cp <=? 57343) then extra_loop f need 57344 acc cnt
        else
          let acc' := if is_space cp then acc else [cp] :: acc in
          let cnt' := if is_space cp then cnt else cnt + 1 in
          if 1114111 <? cp + 1 then
            if cnt' =? 0 then throw ZeroDivisionError
            else ret (list_repeat (rev' acc') (Z.to_nat (need / cnt' + 1)))
          else extra_loop f need (cp + 1) acc' cnt'
      else ret (rev' acc)
  end.

Definition extra_fuel : nat := Z.to_nat 1114112.

Definition build_base_fast (n : Z) : M (list str) :=
  let P := Z.of_nat (length symbol_pool) in
  if P <? n then
    let extra_needed := n - P in
    extra_symbols <- extra_loop extra_fuel extra_needed 9728 [] 0;;
    ret (pool_tokens ++ firstn (Z.to_nat extra_needed) extra_symbols)
  else sample [] pool_tokens n.

Definition build_base_very_fast (n : Z) : M (list str) :=
  let P := Z.of_nat (length symbol_pool) in
  if P <? n then
    let extra_needed := n - P in
    let extra_symbols := map (fun i => [88] ++ fmt06 i) (py_range extra_needed) in
    ret (pool_tokens ++ firstn (Z.to_nat extra_needed) extra_symbols)
  else sample [] pool_tokens n.

(** ** The relation generators *)

(** [" ".join(base) + "\n"] *)
Definition header (base : list str) : str := join [32] base ++ nl.

(** [f"{base[i]} {base[j]}"] *)
Definition pair_line (base : list str) (i j : Z) : M str :=
  a <- py_index base i;; b <- py_index base j;; ret (a ++ [32] ++ b).

(** [i = idx // n; j = idx % n] and the line of [(i, j)]. *)
Definition idx_line (base : list str) (n idx : Z) : M str :=
  ij <- py_divmod idx n;; pair_line base (fst ij) (snd ij).

(** One row of the moderate-density path:
    [if row_random[j] < random_threshold: batch.append(...)]. *)
Fixpoint row_lines (base : list str) (threshold : flt) (i : Z) (js : list Z) (row : list Q)
  : M (list str) :=
  match js, row with
  | j :: js', r :: row' =>
      if flt_lt (Fin r) threshold then
        l <- pair_line base i j;; ls <- row_lines base threshold i js' row';; ret (l :: ls)
      else row_lines base threshold i js' row'
  | _, _ => ret []
  end.

(** [for i in range(n): row_random = [random.random() for _ in range(n)]; ...] *)
Fixpoint moderate_rows (base : list str) (n : Z) (threshold : flt) (is : list Z)
  : M (list str) :=
  match is with
  | [] => ret []
  | i :: is' =>
      row <- replicateM (Z.to_nat n) random01;;
      here <- row_lines base threshold i (py_range n) row;;
      rest <- moderate_rows base n threshold is';;
      ret (here ++ rest)
  end.

(** [for i in range(n): for j in range(n): batch.append(...)] *)
Definition all_pairs_lines (base : list str) (n : Z) : M (list str) :=
  mapM (fun ij => pair_line base (fst ij) (snd ij)) (list_prod (py_range n) (py_range n)).

(** [generate_relation_fast(file_path, n, density)]: the file content.
    [n * n * density] is [float(n * n) * density]; it is the same double
    [x] at lines 50, 62 and 67, so it is computed once.  The progress
    messages printed to stdout are not modelled. *)
Definition generate_relation_fast (n : Z) (density : flt) : M str :=
  base <- build_base_fast n;;
  h <- fwrite (header base);;
  nn <- int_to_float (n * n);;
  let x := fmul nn density in
  total_pairs_expected <- float_to_int x;;
  _ <- random01;;
  body <-
    (if flt_lt (Fin (inject_Z 1000000)) x then
       total_pairs <- float_to_int x;;
       indices <- sample 0 (py_range (n * n)) total_pairs;;
       lines <- mapM (idx_line base n) indices;;
       write_lines lines
     else
       lines <- moderate_rows base n density (py_range n);;
       write_lines lines);;
  ret (h ++ body).

(** [idx not in missing_indices] *)
Definition not_missing (missing : list Z) (idx : Z) : bool :=
  negb (existsb (Z.eqb idx) missing).

(** [generate_relation_very_fast(file_path, n, density)]: the file content. *)
Definition generate_relation_very_fast (n : Z) (density : flt) : M str :=
  base <- build_base_very_fast n;;
  h <- fwrite (header base);;
  body <-
    (if flt_lt (Fin (1 # 2)) density then
       let missing_density := fsub (Fin 1) density in
       nn <- int_to_float (n * n);;
       total_missing <- float_to_int (fmul nn missing_density);;
       if total_missing =? 0 then
         lines <- all_pairs_lines base n;;
         write_lines lines
       else
         missing_indices <- sample 0 (py_range (n * n)) total_missing;;
         lines <- mapM (idx_line base n) (filter (not_missing missing_indices) (py_range (n * n)));;
         write_lines lines
     else
       nn <- int_to_float (n * n);;
       total_pairs <- float_to_int (fmul nn density);;
       indices <- sample 0 (py_range (n * n)) total_pairs;;
       lines <- mapM (idx_line base n) indices;;
       write_lines lines);;
  ret (h ++ body).


(** ** The set-command generator *)

Definition ascii_lowercase : list Z := py_range2 97 123.

(** The six lines of one ordered pair [(a, b)] of distinct sets. *)
Definition pair_ops (a b : str) : list str :=
  [a ++ lit " + " ++ b; a ++ lit " & " ++ b; a ++ lit " - " ++ b;
   a ++ lit " < " ++ b; b ++ lit " < " ++ a; a ++ lit " = " ++ b].

(** The list [lines] built by [generate_set_commands]. *)
Definition set_command_lines (n_sets elements_per_set universe_size : Z) : M (list str) :=
  let letters := map (fun c => [c]) (py_slice_upto ascii_lowercase universe_size) in
  set_names <- mapM (fun i => py_chr (65 + i)) (py_range n_sets);;
  let news := map (fun name => lit "new " ++ name) set_names in
  adds <- mapM (fun name =>
                  elems <- sample [] letters (Z.min elements_per_set universe_size);;
                  ret (map (fun e => lit "add " ++ name ++ lit " " ++ e) elems))
               set_names;;
  let sees := lit "see" :: map (fun name => lit "see " ++ name) set_names in
  let ops := concat (map (fun a => concat (map (fun b =>
               if str_eqb a b then [] else pair_ops a b) set_names)) set_names) in
  pows <- mapM (fun name =>
                  to_remove <- choice [] letters;;
                  ret [lit "pow " ++ name; lit "rem " ++ name ++ lit " " ++ to_remove])
               set_names;;
  let k := Z.of_nat (length set_names) / 2 in
  dels <- sample [] set_names (if k =? 0 then 1 else k);;
  ret (news ++ concat adds ++ sees ++ ops ++ concat pows
       ++ map (fun name => lit "del " ++ name) dels ++ [lit "see"]).

(** [generate_set_commands(file_path, n_sets, elements_per_set, universe_size)]:
    the file content. *)
Definition generate_set_commands (n_sets elements_per_set universe_size : Z) : M str :=
  lines <- set_command_lines n_sets elements_per_set universe_size;;
  fwrite (join nl lines ++ nl).

(** ** Reading the files back *)

(** [s.split()]: the maximal runs of non-whitespace code points. *)
Fixpoint split_ws_go (s cur : str) : list str :=
  match s with
  | [] => match cur with [] => [] | _ :: _ => [rev cur] end
  | c :: s' =>
      if is_space c then
        match cur with [] => [] | _ :: _ => [rev cur] end ++ split_ws_go s' []
      else split_ws_go s' (c :: cur)
  end.

Definition split_ws (s : str) : list str := split_ws_go s [].

(** The lines of a file, each ended by ["\n"] (the generated tokens
    contain no other line boundary). *)
Fixpoint file_lines_go (s cur : str) : list str :=
  match s with
  | [] => match cur with [] => [] | _ :: _ => [rev cur] end
  | c :: s' => if c =? 10 then rev cur :: file_lines_go s' [] else file_lines_go s' (c :: cur)
  end.

Definition file_lines (s : str) : list str := file_lines_go s [].

(** A file made of the given lines. *)
Definition unlines (ls : list str) : str := concat (map (fun l => l ++ nl) ls).

(** A [del] command: a line starting with ["del "]. *)
Definition is_del (l : str) : bool := str_eqb (firstn 4 l) (lit "del ").

(** The line of the pair [(i, j)] when both positions are in range. *)
Definition pline (base : list str) (i j : Z) : str :=
  nth (Z.to_nat i) base [] ++ [32] ++ nth (Z.to_nat j) base [].

(** The line of the flat index [idx]. *)
Definition idx_pline (base : list str) (n idx : Z) : str := pline base (idx / n) (idx mod n).

(** A token of the symbol base: no whitespace, no surrogate, not empty. *)
Definition good_token (t : str) : Prop :=
  t <> [] /\ Forall (fun c => is_space c = false /\ is_surrogate c = false) t.

(** Python's [round()] on a non-negative rational: to the nearest
    integer, ties to even. *)
Definition round_half_even (q : Q) : Z :=
  let f := Qnum q / Zpos (Qden q) in
  let r := (q - inject_Z f)%Q in
  if Qle_bool (1 # 2) r && negb (Qeq_bool r (1 # 2)) then f + 1
  else if Qeq_bool r (1 # 2) then (if Z.even f then f else f + 1)
  else f.

(** ** Reasoning about [M] *)

(** Partial correctness: every successful run returns a value in [P]. *)
Definition post {A} (m : M A) (P : A -> Prop) : Prop :=
  forall rs p a p', m rs p = Ok a p' -> P a.

(** Total correctness: every run succeeds and returns a value in [P]. *)
Definition total {A} (m : M A) (P : A -> Prop) : Prop :=
  forall rs p, exists a p', m rs p = Ok a p' /\ P a.

(** Runs on two streams that agree everywhere have the same result. *)
Definition det {A} (m : M A) : Prop :=
  forall rs1 rs2, (forall k, rs1 k = rs2 k) -> forall p, m rs1 p = m rs2 p.

(** Every run either succeeds with a value in [P] or raises an exception
    in [E]. *)
Definition outcome {A} (m : M A) (P : A -> Prop) (E : exn -> Prop) : Prop :=
  forall rs p, match m rs p with Ok a _ => P a | Err e => E e end.

(** Every run raises [e]. *)
Definition fails {A} (m : M A) (e : exn) : Prop :=
  forall rs p, m rs p = Err e.

(** ** Auxiliary definitions for the proofs *)

(** Every line that is written names two members of the base. *)
Definition pair_of (base : list str) (l : str) : Prop :=
  exists a b, In a base /\ In b base /\ l = a ++ [32] ++ b.

Fixpoint nodupb (l : list Z) : bool :=
  match l with
  | [] => true
  | x :: t => negb (existsb (Z.eqb x) t) && nodupb t
  end.

(** The value of a string of decimal digits. *)
Definition digits_value (s : str) : Z := fold_left (fun acc c => acc * 10 + (c - 48)) s 0.

(** The code points [extra_loop] appends when it is never cut short. *)
Fixpoint cands (fuel : nat) (cp : Z) : list Z :=
  match fuel with
  | O => []
  | S f =>
      if (55296 <=? cp) && (cp <=? 57343) then cands f 57344
      else (if is_space cp then [] else [cp])
           ++ (if 1114111 <? cp + 1 then [] else cands f (cp + 1))
  end.

Definition single (c : Z) : str := [c].

(** The value [random()] makes of one draw. *)
Definition r01 (w : Z) : Q := Qmake (w mod 9007199254740992) 9007199254740992%positive.

(** A stream whose every draw is [0]. *)
Definition rs0 : Rng := fun _ => 0.

(** The double [n * n * d] of the relation generators, when [float(n * n)]
    does not overflow. *)
Definition scaled (n : Z) (d : flt) : flt := fmul (round (inject_Z (n * n))) d.

(** [int(n * n * d)] when the double is finite: the number of indices
    sampled on the direct path. *)
Definition direct_count (n : Z) (d : flt) : option Z :=
  match scaled n d with
  | Fin y => Some (py_int y)
  | _ => None
  end.

(** [n * n - int(n * n * (1.0 - d))]: the number of pairs written on the
    complement path of [generate_relation_very_fast]. *)
Definition complement_count (n : Z) (d : flt) : option Z :=
  option_map (fun m => n * n - m) (direct_count n (fsub (Fin 1) d)).


(** [set_names] of a run that gets past [chr]: [chr(ord("A") + i)]. *)
Definition set_names_of (n_sets : Z) : list str := map (fun i => [65 + i]) (py_range n_sets).

(** [letters = string.ascii_lowercase[:universe_size]], as one-letter strings. *)
Definition letters_of (universe_size : Z) : list str :=
  map (fun c => [c]) (py_slice_upto ascii_lowercase universe_size).

(** The [lines] of [generate_set_commands] for given random outcomes:
    [elemss] the letters sampled for each set, [rems] the letter chosen
    for each [rem] line, [dels] the sets sampled for deletion. *)
Definition set_script (names : list str) (elemss : list (list str)) (rems dels : list str)
  : list str :=
  map (fun name => lit "new " ++ name) names
  ++ concat (map (fun p => map (fun x => lit "add " ++ fst p ++ lit " " ++ x) (snd p))
                 (combine names elemss))
  ++ (lit "see" :: map (fun name => lit "see " ++ name) names)
  ++ concat (map (fun a => concat (map (fun b =>
                  if str_eqb a b then [] else pair_ops a b) names)) names)
  ++ concat (map (fun p => [lit "pow " ++ fst p; lit "rem " ++ fst p ++ lit " " ++ snd p])
                 (combine names rems))
  ++ map (fun name => lit "del " ++ name) dels ++ [lit "see"].

(** * Proofs *)

(** ** Monad combinators *)

Lemma post_ret {A} (a : A) (P : A -> Prop) : P a -> post (ret a) P.
Proof. unfold post, ret. intros H rs p a' p' E. inversion E; subst. exact H. Qed.

Lemma post_throw {A} e (P : A -> Prop) : post (throw e) P.
Proof. unfold post, throw. intros rs p a p' E. discriminate. Qed.

Lemma post_bind {A B} (m : M A) (k : A -> M B) (Q : A -> Prop) (P : B -> Prop) :
  post m Q -> (forall a, Q a -> post (k a) P) -> post (bind m k) P.
Proof.
  unfold post, bind. intros Hm Hk rs p b p' E.
  destruct (m rs p) as [a p''|e] eqn:Em; [|discriminate].
  exact (Hk a (Hm _ _ _ _ Em) _ _ _ _ E).
Qed.

Lemma post_weaken {A} (m : M A) (P Q : A -> Prop) :
  post m P -> (forall a, P a -> Q a) -> post m Q.
Proof. unfold post. eauto. Qed.

Lemma post_any {A} (m : M A) : post m (fun _ => True).
Proof. unfold post. auto. Qed.

Lemma total_ret {A} (a : A) (P : A -> Prop) : P a -> total (ret a) P.
Proof. unfold total, ret. intros H rs p. exists a, p. auto. Qed.

Lemma total_bind {A B} (m : M A) (k : A -> M B) (Q : A -> Prop) (P : B -> Prop) :
  total m Q -> (forall a, Q a -> total (k a) P) -> total (bind m k) P.
Proof.
  unfold total, bind. intros Hm Hk rs p.
  destruct (Hm rs p) as (a & p'' & Em & Qa). rewrite Em. exact (Hk a Qa rs p'').
Qed.

Lemma total_weaken {A} (m : M A) (P Q : A -> Prop) :
  total m P -> (forall a, P a -> Q a) -> total m Q.
Proof.
  unfold total. intros H W rs p. destruct (H rs p) as (a & p' & E & Pa). eauto.
Qed.

Lemma total_post {A} (m : M A) (P : A -> Prop) : total m P -> post m P.
Proof.
  unfold total, post. intros H rs p a p' E.
  destruct (H rs p) as (a' & p'' & E' & Pa). rewrite E in E'. inversion E'. subst. exact Pa.
Qed.

Lemma total_draw : total draw (fun _ => True).
Proof. unfold total, draw. intros rs p. eauto. Qed.

Lemma total_randbelow m : 0 < m -> total (randbelow m) (fun j => 0 <= j < m).
Proof.
  intros Hm. unfold randbelow. eapply total_bind; [apply total_draw|].
  intros w _. apply total_ret. apply Z.mod_pos_bound. exact Hm.
Qed.

Lemma total_random01 : total random01 (fun _ => True).
Proof.
  unfold random01. eapply total_bind; [apply total_draw|]. intros. apply total_ret. auto.
Qed.

Lemma post_mapM {A B} (f : A -> M B) (Q : A -> B -> Prop) (l : list A) :
  (forall x, In x l -> post (f x) (Q x)) -> post (mapM f l) (Forall2 Q l).
Proof.
  induction l as [|x t IH]; simpl; intros H.
  - apply post_ret. constructor.
  - eapply post_bind; [apply H; auto|]. intros y Hy.
    eapply post_bind; [apply IH; auto|]. intros ys Hys. apply post_ret. constructor; auto.
Qed.

Lemma total_mapM {A B} (f : A -> M B) (Q : A -> B -> Prop) (l : list A) :
  (forall x, In x l -> total (f x) (Q x)) -> total (mapM f l) (Forall2 Q l).
Proof.
  induction l as [|x t IH]; simpl; intros H.
  - apply total_ret. constructor.
  - eapply total_bind; [apply H; auto|]. intros y Hy.
    eapply total_bind; [apply IH; auto|]. intros ys Hys. apply total_ret. constructor; auto.
Qed.

(** A step that neither draws nor fails. *)
Lemma mapM_pure {A B} (f : A -> M B) (g : A -> B) (l : list A) :
  (forall x, In x l -> f x = ret (g x)) -> mapM f l = ret (map g l).
Proof.
  induction l as [|x t IH]; simpl; intros H; [reflexivity|].
  rewrite H by auto. rewrite IH by auto. reflexivity.
Qed.

Lemma total_replicateM {A} k (m : M A) :
  total m (fun _ => True) -> total (replicateM k m) (fun xs => length xs = k).
Proof.
  intros Hm. induction k as [|k IH]; simpl.
  - apply total_ret. reflexivity.
  - eapply total_bind; [exact Hm|]. intros x _.
    eapply total_bind; [exact IH|]. intros xs Hxs. apply total_ret. simpl. congruence.
Qed.

Lemma Forall2_map_r {A B} (g : A -> B) (l : list A) (ys : list B) :
  Forall2 (fun x y => y = g x) l ys -> ys = map g l.
Proof. induction 1; simpl; congruence. Qed.

Lemma Forall2_Forall_r {A B} (Q : A -> B -> Prop) (P : B -> Prop) l ys :
  Forall2 Q l ys -> (forall x y, Q x y -> P y) -> Forall P ys.
Proof. induction 1; constructor; eauto. Qed.

(** ** [random.sample] *)

Lemma set_nth_length {A} (l : list A) j x : length (set_nth l j x) = length l.
Proof. revert j; induction l as [|h t IH]; intros [|j]; simpl; auto. Qed.

Lemma set_nth_out {A} (l : list A) j x : (length l <= j)%nat -> set_nth l j x = l.
Proof.
  revert j; induction l as [|h t IH]; intros [|j] H; simpl in *; auto; try lia.
  rewrite IH by lia. reflexivity.
Qed.

Lemma firstn_set_nth {A} k (l : list A) j x :
  firstn k (set_nth l j x) = set_nth (firstn k l) j x.
Proof.
  revert l j; induction k as [|k IH]; intros [|h t] [|j]; simpl; auto.
  rewrite IH. reflexivity.
Qed.

Lemma set_nth_app_l {A} (b c : list A) j x :
  (j < length b)%nat -> set_nth (b ++ c) j x = set_nth b j x ++ c.
Proof.
  revert j; induction b as [|h t IH]; intros [|j] H; simpl in *; try lia; auto.
  rewrite IH by lia. reflexivity.
Qed.

Lemma set_nth_app_r {A} (b c : list A) k x :
  set_nth (b ++ c) (length b + k) x = b ++ set_nth c k x.
Proof. induction b as [|h t IH]; simpl; auto. rewrite IH. reflexivity. Qed.

(** Taking [pool[j]] out and moving the front element into its place. *)
Lemma perm_swap_in {A} (b : list A) (y d : A) j :
  (j < length b)%nat -> Permutation (y :: b) (nth j b d :: set_nth b j y).
Proof.
  revert j; induction b as [|h t IH]; intros [|j] H; simpl in *; try lia.
  - apply perm_swap.
  - specialize (IH j ltac:(lia)).
    eapply perm_trans; [apply perm_swap|].
    eapply perm_trans; [apply perm_skip, IH|]. apply perm_swap.
Qed.

(** One selection step on the live prefix [a] of the pool. *)
Lemma perm_select {A} (a : list A) (d : A) L j :
  length a = L -> (j < L)%nat ->
  Permutation a (nth j a d :: firstn (L - 1) (set_nth a j (nth (L - 1) a d))).
Proof.
  intros HL Hj.
  destruct (@exists_last _ a) as (b & y & Eb); [destruct a; simpl in *; [lia|discriminate]|].
  subst a. rewrite length_app in HL. simpl in HL.
  assert (Ey : nth (L - 1) (b ++ [y]) d = y).
  { rewrite app_nth2 by lia. replace (L - 1 - length b)%nat with O by lia. reflexivity. }
  rewrite Ey.
  destruct (Nat.eq_dec j (length b)) as [->|Hne].
  - replace (length b) with (length b + 0)%nat by lia.
    rewrite set_nth_app_r. simpl. rewrite Nat.add_0_r.
    rewrite app_nth2 by lia. rewrite Nat.sub_diag. simpl.
    replace (L - 1)%nat with (length b) by lia. rewrite firstn_app, firstn_all, Nat.sub_diag.
    simpl. rewrite app_nil_r. apply Permutation_sym, Permutation_cons_append.
  - rewrite set_nth_app_l by lia. rewrite app_nth1 by lia.
    replace (L - 1)%nat with (length (set_nth b j y)) by (rewrite set_nth_length; lia).
    rewrite firstn_app, firstn_all, Nat.sub_diag. simpl. rewrite app_nil_r.
    eapply perm_trans; [apply Permutation_sym, Permutation_cons_append|].
    apply perm_swap_in. lia.
Qed.

Lemma total_sample_loop {A} (d : A) s m i (pool : list A) :
  length pool = m -> (i + s <= m)%nat ->
  total (sample_loop d s m i pool)
    (fun r => length r = s /\ exists rest, Permutation (firstn (m - i) pool) (r ++ rest)).
Proof.
  revert i pool. induction s as [|s IH]; intros i pool Hlen Hs; simpl.
  - apply total_ret. split; [reflexivity|]. exists (firstn (m - i) pool). reflexivity.
  - eapply total_bind; [apply total_randbelow; lia|]. intros j Hj.
    eapply total_bind; [apply IH; [rewrite set_nth_length; exact Hlen|lia]|].
    intros rest (Hl & rest' & Hp). apply total_ret. split; [simpl; congruence|].
    exists rest'. simpl.
    set (L := (m - i)%nat). set (a := firstn L pool).
    assert (HaL : length a = L) by (unfold a; rewrite length_firstn; lia).
    assert (Hj' : (Z.to_nat j < L)%nat) by (unfold L in *; lia).
    eapply perm_trans; [apply (perm_select a d L (Z.to_nat j) HaL Hj')|].
    unfold a. rewrite nth_firstn. destruct (Nat.ltb_spec (Z.to_nat j) L); [|lia].
    rewrite nth_firstn. destruct (Nat.ltb_spec (L - 1) L); [|lia].
    rewrite <- firstn_set_nth, firstn_firstn, Nat.min_l by lia.
    apply perm_skip. replace (L - 1)%nat with (m - S i)%nat by (unfold L; lia).
    replace (m - i - 1)%nat with (m - S i)%nat in Hp by lia. exact Hp.
Qed.

(** [random.sample(population, k)] with [0 <= k <= len(population)]
    returns [k] members of the population, a sub-multiset of it. *)
Lemma total_sample {A} (d : A) (pop : list A) k :
  0 <= k <= Z.of_nat (length pop) ->
  total (sample d pop k)
    (fun r => length r = Z.to_nat k /\ exists rest, Permutation pop (r ++ rest)).
Proof.
  intros Hk. unfold sample.
  destruct (Z.leb_spec 0 k); [|lia]. destruct (Z.leb_spec k (Z.of_nat (length pop))); [|lia].
  simpl. eapply total_weaken; [apply total_sample_loop; [reflexivity|lia]|].
  intros r (Hl & rest & Hp). split; [exact Hl|]. exists rest.
  rewrite Nat.sub_0_r, firstn_all in Hp. exact Hp.
Qed.

Lemma sample_bad {A} (d : A) (pop : list A) k :
  ~ (0 <= k <= Z.of_nat (length pop)) -> sample d pop k = throw ValueError.
Proof.
  intros Hk. unfold sample.
  destruct (Z.leb_spec 0 k), (Z.leb_spec k (Z.of_nat (length pop))); simpl; auto; lia.
Qed.

Lemma sample_props {A} (pop r rest : list A) :
  Permutation pop (r ++ rest) -> NoDup pop -> NoDup r /\ incl r pop.
Proof.
  intros Hp Hnd. split.
  - apply (Permutation_NoDup Hp) in Hnd. apply NoDup_app_remove_r in Hnd. exact Hnd.
  - intros x Hx. apply (Permutation_in x (Permutation_sym Hp)). apply in_or_app. auto.
Qed.

Lemma total_choice {A} (d : A) (s : list A) :
  s <> [] -> total (choice d s) (fun x => In x s).
Proof.
  intros Hs. unfold choice. destruct s as [|h t]; [congruence|].
  eapply total_bind; [apply total_randbelow; cbn [length]; lia|]. intros j Hj.
  apply total_ret. apply nth_In. cbn [length] in *. lia.
Qed.

(** ** Indexing, lines and writing *)

Lemma py_index_in {A} (l : list A) i (d : A) :
  0 <= i < Z.of_nat (length l) -> py_index l i = ret (nth (Z.to_nat i) l d).
Proof.
  intros Hi. unfold py_index.
  destruct (Z.ltb_spec i 0); [lia|]. destruct (Z.ltb_spec i 0); [lia|].
  destruct (nth_error l (Z.to_nat i)) eqn:E.
  - apply nth_error_nth with (d := d) in E. rewrite E. reflexivity.
  - apply nth_error_None in E. lia.
Qed.

Lemma post_py_index {A} (l : list A) i : post (py_index l i) (fun x => In x l).
Proof.
  unfold py_index. intros rs p a p'.
  destruct (_ <? 0); [discriminate|].
  destruct (nth_error l _) eqn:E; [|discriminate].
  unfold ret. intros H. inversion H; subst. eapply nth_error_In. eassumption.
Qed.

Lemma pair_line_in (base : list str) i j :
  0 <= i < Z.of_nat (length base) -> 0 <= j < Z.of_nat (length base) ->
  pair_line base i j = ret (pline base i j).
Proof.
  intros Hi Hj. unfold pair_line. rewrite (py_index_in base i []) by exact Hi.
  rewrite (py_index_in base j []) by exact Hj. reflexivity.
Qed.

Lemma post_pair_line base i j : post (pair_line base i j) (pair_of base).
Proof.
  unfold pair_line. eapply post_bind; [apply post_py_index|]. intros a Ha.
  eapply post_bind; [apply post_py_index|]. intros b Hb. apply post_ret.
  exists a, b. auto.
Qed.

Lemma post_idx_line base n idx : post (idx_line base n idx) (pair_of base).
Proof.
  unfold idx_line. eapply post_bind; [apply post_any|]. intros. apply post_pair_line.
Qed.

Lemma divmod_bounds n idx :
  0 < n -> 0 <= idx < n * n -> 0 <= idx / n < n /\ 0 <= idx mod n < n.
Proof.
  intros Hn Hidx. split.
  - split; [apply Z.div_pos; lia|]. apply Z.div_lt_upper_bound; lia.
  - apply Z.mod_pos_bound. exact Hn.
Qed.

Lemma idx_line_in base n idx :
  Z.of_nat (length base) = n -> 0 <= idx < n * n ->
  idx_line base n idx = ret (idx_pline base n idx).
Proof.
  intros Hl Hidx. assert (Hn : 0 < n) by nia.
  unfold idx_line, py_divmod. destruct (Z.eqb_spec n 0); [lia|].
  destruct (divmod_bounds n idx Hn Hidx).
  unfold bind at 1, ret at 1. simpl.
  rewrite pair_line_in by lia. reflexivity.
Qed.

Lemma flush_unlines bs : bs <> [] -> flush bs = unlines bs.
Proof.
  intros Hbs. destruct bs as [|b bs]; [congruence|]. clear Hbs. unfold flush.
  revert b. induction bs as [|b' bs' IH]; intros b.
  - unfold unlines. simpl. rewrite app_nil_r. reflexivity.
  - change (join nl (b :: b' :: bs')) with (b ++ nl ++ join nl (b' :: bs')).
    rewrite <- !app_assoc. rewrite IH. unfold unlines. cbn [map concat]. rewrite !app_assoc. reflexivity.
Qed.

Lemma batches_concat lines batch :
  concat (batches lines batch) = unlines (batch ++ lines).
Proof.
  revert batch. induction lines as [|l r IH]; intros batch; simpl.
  - rewrite app_nil_r. destruct batch as [|b bs]; [reflexivity|].
    simpl. rewrite app_nil_r. apply flush_unlines. discriminate.
  - destruct (10000 <=? Z.of_nat (length (batch ++ [l]))).
    + simpl. rewrite IH, flush_unlines by (destruct batch; discriminate).
      simpl. unfold unlines. rewrite <- concat_app, <- map_app, <- app_assoc. reflexivity.
    + rewrite IH. rewrite <- app_assoc. reflexivity.
Qed.

Lemma post_write_lines lines : post (write_lines lines) (fun c => c = unlines lines).
Proof.
  unfold write_lines.
  eapply post_bind.
  - apply (post_mapM fwrite (fun s s' => s' = s)). intros x _.
    unfold fwrite. destruct (existsb is_surrogate x); [apply post_throw|]. apply post_ret. reflexivity.
  - intros ws Hws. apply post_ret.
    apply Forall2_map_r in Hws. rewrite map_id in Hws. subst ws. apply batches_concat.
Qed.

Lemma existsb_concat {A} (f : A -> bool) (ls : list (list A)) :
  existsb f (concat ls) = existsb (fun l => existsb f l) ls.
Proof. induction ls as [|l t IH]; simpl; auto. rewrite existsb_app, IH. reflexivity. Qed.

Lemma unlines_no_surrogate ls :
  Forall (fun l => existsb is_surrogate l = false) ls -> existsb is_surrogate (unlines ls) = false.
Proof.
  unfold unlines. induction 1 as [|l t Hl Ht IH]; simpl; auto.
  rewrite existsb_app, existsb_app, Hl, IH. reflexivity.
Qed.

Lemma write_lines_ok lines :
  Forall (fun l => existsb is_surrogate l = false) lines ->
  write_lines lines = ret (unlines lines).
Proof.
  intros H. unfold write_lines.
  assert (Hc : existsb is_surrogate (concat (batches lines [])) = false)
    by (rewrite batches_concat; apply unlines_no_surrogate; exact H).
  rewrite existsb_concat in Hc.
  rewrite (mapM_pure fwrite (fun s => s)).
  - rewrite map_id. unfold bind, ret. rewrite batches_concat. reflexivity.
  - intros x Hx. unfold fwrite.
    destruct (existsb is_surrogate x) eqn:E; [|reflexivity].
    exfalso. assert (existsb (fun l => existsb is_surrogate l) (batches lines []) = true)
      by (apply existsb_exists; eauto). congruence.
Qed.

(** ** The symbol pool *)

Lemma nodupb_NoDup l : nodupb l = true -> NoDup l.
Proof.
  induction l as [|x t IH]; simpl; intros H; constructor.
  - apply andb_true_iff in H as [H _]. apply negb_true_iff in H.
    intros Hin. assert (existsb (Z.eqb x) t = true) by (apply existsb_exists; exists x; split; [exact Hin|apply Z.eqb_refl]).
    congruence.
  - apply andb_true_iff in H as [_ H]. auto.
Qed.

Lemma symbol_pool_length : length symbol_pool = 94%nat.
Proof. vm_compute. reflexivity. Qed.

Lemma symbol_pool_NoDup : NoDup symbol_pool.
Proof. apply nodupb_NoDup. vm_compute. reflexivity. Qed.

Lemma symbol_pool_chars :
  Forall (fun c => is_space c = false /\ is_surrogate c = false /\ 33 <= c <= 126) symbol_pool.
Proof.
  apply Forall_forall. intros c Hc.
  assert (H : forallb (fun c => negb (is_space c) && negb (is_surrogate c) && (33 <=? c) && (c <=? 126))
                symbol_pool = true) by (vm_compute; reflexivity).
  rewrite forallb_forall in H. specialize (H c Hc).
  repeat rewrite andb_true_iff in H. destruct H as [[[H1 H2] H3] H4].
  apply negb_true_iff in H1, H2. apply Z.leb_le in H3, H4. auto.
Qed.

Lemma NoDup_map_inj_in {A B} (f : A -> B) (l : list A) :
  (forall x y, In x l -> In y l -> f x = f y -> x = y) -> NoDup l -> NoDup (map f l).
Proof.
  intros Hf Hnd. induction Hnd as [|x t Hx Ht IH]; simpl; constructor.
  - intros Hin. apply in_map_iff in Hin as (y & Ey & Hy).
    assert (y = x) by (apply Hf; simpl; auto). subst. contradiction.
  - apply IH. intros a b Ha Hb. apply Hf; simpl; auto.
Qed.

Lemma NoDup_map_single l : NoDup l -> NoDup (map single l).
Proof. apply NoDup_map_inj_in. intros x y _ _ E. inversion E. reflexivity. Qed.

Lemma pool_tokens_NoDup : NoDup pool_tokens.
Proof. apply NoDup_map_single, symbol_pool_NoDup. Qed.

Lemma pool_tokens_length : length pool_tokens = 94%nat.
Proof. unfold pool_tokens. rewrite length_map. apply symbol_pool_length. Qed.

Lemma pool_tokens_shape t :
  In t pool_tokens -> exists c, t = [c] /\ is_space c = false /\ is_surrogate c = false /\ 33 <= c <= 126.
Proof.
  unfold pool_tokens. intros Ht. apply in_map_iff in Ht as (c & <- & Hc).
  pose proof (proj1 (Forall_forall _ _) symbol_pool_chars c Hc) as H. cbv beta in H.
  exists c. tauto.
Qed.

Lemma pool_tokens_good : Forall good_token pool_tokens.
Proof.
  apply Forall_forall. intros t Ht. apply pool_tokens_shape in Ht as (c & -> & H1 & H2 & _).
  split; [discriminate|]. repeat constructor; auto.
Qed.

(** [random.sample(symbol_pool, n)] for [0 <= n <= 94]. *)
Lemma total_sample_pool n :
  0 <= n <= 94 ->
  total (sample [] pool_tokens n)
    (fun base => Z.of_nat (length base) = n /\ NoDup base /\ incl base pool_tokens).
Proof.
  intros Hn. eapply total_weaken; [apply total_sample; rewrite pool_tokens_length; simpl; lia|].
  intros r (Hl & rest & Hp). destruct (sample_props _ _ _ Hp pool_tokens_NoDup).
  repeat split; auto. lia.
Qed.

(** ** [f"X{i:06d}"] *)

Lemma dec_rev_spec fuel i :
  0 <= i < 10 ^ Z.of_nat fuel ->
  Forall (fun c => 48 <= c <= 57) (dec_rev fuel i)
  /\ fold_right (fun c acc => (c - 48) + 10 * acc) 0 (dec_rev fuel i) = i.
Proof.
  revert i. induction fuel as [|f IH]; intros i Hi.
  - simpl in Hi. simpl. split; [constructor|lia].
  - rewrite Nat2Z.inj_succ, Z.pow_succ_r in Hi by lia. cbn [dec_rev].
    pose proof (Z.mod_pos_bound i 10 ltac:(lia)).
    destruct (Z.ltb_spec i 10).
    + rewrite Z.mod_small by lia. cbn [fold_right].
      split; [constructor; [cbv beta; lia|constructor]|lia].
    + destruct (IH (i / 10)) as [Hd Hv].
      { split; [apply Z.div_pos; lia|]. apply Z.div_lt_upper_bound; lia. }
      split; [constructor; [cbv beta; lia|exact Hd]|].
      cbn [fold_right]. rewrite Hv. pose proof (Z.div_mod i 10). lia.
Qed.

Lemma fold_left_digits_rev d acc :
  fold_left (fun acc c => acc * 10 + (c - 48)) (rev d) acc
  = acc * 10 ^ Z.of_nat (length d) + fold_right (fun c acc => (c - 48) + 10 * acc) 0 d.
Proof.
  revert acc. induction d as [|c d IH]; intros acc.
  - cbn [rev fold_left fold_right length]. rewrite Nat2Z.inj_0, Z.pow_0_r. ring.
  - cbn [rev length fold_right]. rewrite fold_left_app. cbn [fold_left]. rewrite IH.
    rewrite Nat2Z.inj_succ, Z.pow_succ_r by lia. ring.
Qed.

Lemma fold_left_zeros k :
  fold_left (fun acc c => acc * 10 + (c - 48)) (repeat 48 k) 0 = 0.
Proof. induction k as [|k IH]; simpl; auto. Qed.

Lemma py_str_nat_spec i :
  0 <= i ->
  Forall (fun c => 48 <= c <= 57) (py_str_nat i) /\ digits_value (py_str_nat i) = i.
Proof.
  intros Hi. unfold py_str_nat, digits_value.
  assert (Hb : 0 <= i < 10 ^ Z.of_nat (S (Z.to_nat (Z.log2 i)))).
  { split; [exact Hi|]. pose proof (Z.log2_nonneg i).
    rewrite Nat2Z.inj_succ, Z2Nat.id by lia.
    apply Z.lt_le_trans with (2 ^ Z.succ (Z.log2 i)).
    - destruct (Z.eq_dec i 0) as [->|Hne]; [simpl; lia|].
      apply Z.log2_spec. lia.
    - apply Z.pow_le_mono_l. lia. }
  destruct (dec_rev_spec _ _ Hb) as [Hd Hv]. split.
  - apply Forall_rev. exact Hd.
  - rewrite fold_left_digits_rev, Hv. lia.
Qed.

Lemma fmt06_spec i :
  0 <= i -> Forall (fun c => 48 <= c <= 57) (fmt06 i) /\ digits_value (fmt06 i) = i.
Proof.
  intros Hi. destruct (py_str_nat_spec i Hi) as [Hd Hv]. unfold fmt06. split.
  - apply Forall_app. split; [|exact Hd]. apply Forall_forall. intros c Hc.
    apply repeat_spec in Hc. lia.
  - unfold digits_value in *. rewrite fold_left_app, fold_left_zeros. exact Hv.
Qed.

Lemma fmt06_inj i j : 0 <= i -> 0 <= j -> fmt06 i = fmt06 j -> i = j.
Proof.
  intros Hi Hj E. rewrite <- (proj2 (fmt06_spec i Hi)), <- (proj2 (fmt06_spec j Hj)), E.
  reflexivity.
Qed.

Lemma fmt06_length i : 0 <= i -> (6 <= length (fmt06 i))%nat.
Proof. intros _. unfold fmt06. rewrite length_app, repeat_length. lia. Qed.

Lemma py_range_spec m x : In x (py_range m) <-> 0 <= x < m.
Proof.
  unfold py_range. rewrite in_map_iff. split.
  - intros (k & <- & Hk). apply in_seq in Hk. lia.
  - intros Hx. exists (Z.to_nat x). rewrite in_seq. split; [lia|]. lia.
Qed.

Lemma py_range_length m : length (py_range m) = Z.to_nat m.
Proof. unfold py_range. rewrite length_map, length_seq. reflexivity. Qed.


Lemma py_range_NoDup m : NoDup (py_range m).
Proof.
  unfold py_range. apply NoDup_map_inj_in; [|apply seq_NoDup].
  intros x y _ _ E. lia.
Qed.

Lemma py_range2_spec a b x : In x (py_range2 a b) <-> a <= x < b.
Proof.
  unfold py_range2. rewrite in_map_iff. split.
  - intros (k & <- & Hk). apply in_seq in Hk. lia.
  - intros Hx. exists (Z.to_nat (x - a)). rewrite in_seq. split; [lia|]. lia.
Qed.

(** Printable ASCII is neither whitespace nor a surrogate. *)
Lemma graphic_ok c : 33 <= c <= 126 -> is_space c = false /\ is_surrogate c = false.
Proof.
  intros Hc.
  assert (H : forallb (fun c => negb (is_space c) && negb (is_surrogate c)) (py_range2 33 127) = true)
    by (vm_compute; reflexivity).
  rewrite forallb_forall in H. specialize (H c (proj2 (py_range2_spec 33 127 c) ltac:(lia))).
  apply andb_true_iff in H as [H1 H2]. apply negb_true_iff in H1, H2. auto.
Qed.

Lemma x_token_good i : 0 <= i -> good_token ([88] ++ fmt06 i).
Proof.
  intros Hi. split; [discriminate|]. constructor; [apply graphic_ok; lia|].
  eapply Forall_impl; [|exact (proj1 (fmt06_spec i Hi))].
  intros c Hc. cbv beta in Hc. apply graphic_ok. lia.
Qed.

Lemma total_base_very_fast n :
  0 <= n ->
  total (build_base_very_fast n)
    (fun base => Z.of_nat (length base) = n /\ NoDup base /\ Forall good_token base).
Proof.
  intros Hn. unfold build_base_very_fast. rewrite symbol_pool_length.
  destruct (Z.ltb_spec (Z.of_nat 94) n).
  - apply total_ret.
    rewrite firstn_all2 by (rewrite length_map, py_range_length; lia).
    split; [rewrite length_app, length_map, py_range_length, pool_tokens_length; lia|].
    split.
    + apply NoDup_app; [apply pool_tokens_NoDup| |].
      * apply NoDup_map_inj_in; [|apply py_range_NoDup].
        intros i j Hi Hj E. apply py_range_spec in Hi, Hj. injection E. apply fmt06_inj; lia.
      * intros a Ha Hb. apply pool_tokens_shape in Ha as (c & -> & _).
        apply in_map_iff in Hb as (i & Ei & Hi). apply py_range_spec in Hi.
        pose proof (fmt06_length i ltac:(lia)).
        assert (length ([88] ++ fmt06 i) = length [c]) by congruence.
        rewrite length_app in *. simpl in *. lia.
    + apply Forall_app. split; [apply pool_tokens_good|].
      apply Forall_forall. intros t Ht. apply in_map_iff in Ht as (i & <- & Hi).
      apply py_range_spec in Hi. apply x_token_good. lia.
  - eapply total_weaken; [apply total_sample_pool; lia|].
    intros base (Hl & Hnd & Hincl). repeat split; auto.
    apply Forall_forall. intros t Ht.
    exact (proj1 (Forall_forall _ _) pool_tokens_good t (Hincl t Ht)).
Qed.

(** ** The extension symbols of [generate_relation_fast] *)

Lemma cands_props fuel cp :
  NoDup (cands fuel cp)
  /\ Forall (fun c => cp <= c /\ is_space c = false /\ is_surrogate c = false) (cands fuel cp).
Proof.
  revert cp. induction fuel as [|f IH]; intros cp; cbn [cands]; [split; constructor|].
  destruct ((55296 <=? cp) && (cp <=? 57343)) eqn:Hsur.
  - destruct (IH 57344) as [Hnd Hall]. split; [exact Hnd|].
    apply andb_true_iff in Hsur as [_ H2]. apply Z.leb_le in H2.
    eapply Forall_impl; [|exact Hall]. intros c Hc. cbv beta in *. split; [lia|tauto].
  - assert (Htail : NoDup (if 1114111 <? cp + 1 then [] else cands f (cp + 1))
                    /\ Forall (fun c => cp + 1 <= c /\ is_space c = false /\ is_surrogate c = false)
                         (if 1114111 <? cp + 1 then [] else cands f (cp + 1)))
      by (destruct (1114111 <? cp + 1); [split; constructor|apply IH]).
    destruct Htail as [Hnd Hall].
    assert (Hall' : Forall (fun c => cp <= c /\ is_space c = false /\ is_surrogate c = false)
                      (if 1114111 <? cp + 1 then [] else cands f (cp + 1)))
      by (eapply Forall_impl; [|exact Hall]; intros c Hc; cbv beta in *; split; [lia|tauto]).
    destruct (is_space cp) eqn:Hsp; simpl; [split; assumption|].
    split.
    + constructor; [|exact Hnd]. intros Hin.
      pose proof (proj1 (Forall_forall _ _) Hall cp Hin) as H. cbv beta in H. lia.
    + constructor; [|exact Hall']. split; [lia|]. split; [exact Hsp|exact Hsur].
Qed.

Lemma list_repeat_In {A} (l : list A) k x : In x (list_repeat l k) -> In x l.
Proof.
  unfold list_repeat. intros H. apply in_concat in H as (l' & Hl' & Hx).
  apply repeat_spec in Hl'. subst. exact Hx.
Qed.

Lemma list_repeat_length {A} (l : list A) k : length (list_repeat l k) = (length l * k)%nat.
Proof.
  unfold list_repeat. induction k as [|k IH]; simpl; [lia|].
  rewrite length_app, IH. lia.
Qed.

Lemma firstn_app_le {A} k (l1 l2 : list A) : (k <= length l1)%nat -> firstn k (l1 ++ l2) = firstn k l1.
Proof.
  intros H. rewrite firstn_app. replace (k - length l1)%nat with O by lia. simpl.
  apply app_nil_r.
Qed.

Lemma extra_loop_spec fuel need cp acc cnt :
  0 <= cp <= 1114111 -> (Z.to_nat (1114112 - cp) <= fuel)%nat ->
  cnt = Z.of_nat (length acc) ->
  total (extra_loop fuel need cp acc cnt)
    (fun ex => need <= Z.of_nat (length ex)
       /\ incl ex (rev acc ++ map single (cands fuel cp))
       /\ (need <= Z.of_nat (length acc + length (cands fuel cp)) ->
           firstn (Z.to_nat need) ex = firstn (Z.to_nat need) (rev acc ++ map single (cands fuel cp)))).
Proof.
  revert cp acc cnt. induction fuel as [|f IH]; intros cp acc cnt Hcp Hf Hcnt; [lia|].
  cbn [extra_loop cands]. unfold rev'. rewrite <- !rev_alt.
  destruct (Z.ltb_spec cnt need) as [Hlt|Hge].
  - destruct ((55296 <=? cp) && (cp <=? 57343)) eqn:Hsur.
    + apply andb_true_iff in Hsur as [H1 H2]. apply Z.leb_le in H1, H2.
      apply IH; [lia|lia|exact Hcnt].
    + destruct (is_space cp) eqn:Hsp; destruct (Z.ltb_spec 1114111 (cp + 1)) as [Hw|Hnw].
      * assert (cp = 1114111) by lia. subst cp. discriminate Hsp.
      * cbn [app]. apply IH; [lia|lia|exact Hcnt].
      * destruct (Z.eqb_spec (cnt + 1) 0) as [|Hne]; [lia|].
        apply total_ret. cbn [rev map app].
        set (L := rev acc ++ [[cp]]).
        assert (HL : length L = S (length acc)) by (unfold L; rewrite length_app, length_rev; simpl; lia).
        split; [|split].
        -- rewrite list_repeat_length, HL, Nat2Z.inj_mul, Z2Nat.id.
           ++ pose proof (Z.mul_div_le need (cnt + 1) ltac:(lia)).
              pose proof (Z.mod_pos_bound need (cnt + 1) ltac:(lia)).
              pose proof (Z.div_mod need (cnt + 1) ltac:(lia)). nia.
           ++ pose proof (Z.div_pos need (cnt + 1) ltac:(lia) ltac:(lia)). lia.
        -- intros x Hx. apply list_repeat_In in Hx. exact Hx.
        -- intros Hle. destruct (Z.to_nat (need / (cnt + 1) + 1)) as [|k] eqn:Ek.
           ++ pose proof (Z.div_pos need (cnt + 1) ltac:(lia) ltac:(lia)). lia.
           ++ unfold list_repeat. cbn [repeat concat]. apply firstn_app_le.
              unfold single. fold L. rewrite HL. simpl length in Hle. lia.
      * apply total_weaken with
          (P := fun ex => need <= Z.of_nat (length ex)
             /\ incl ex (rev ([cp] :: acc) ++ map single (cands f (cp + 1)))
             /\ (need <= Z.of_nat (length ([cp] :: acc) + length (cands f (cp + 1))) ->
                 firstn (Z.to_nat need) ex
                 = firstn (Z.to_nat need) (rev ([cp] :: acc) ++ map single (cands f (cp + 1))))).
        -- apply IH; [lia|lia|simpl; lia].
        -- intros ex (H1 & H2 & H3). cbn [rev] in H2, H3. rewrite <- app_assoc in H2, H3.
           split; [exact H1|split; [exact H2|]].
           intros Hle. apply H3. simpl length in *. lia.
  - apply total_ret. rewrite length_rev. split; [lia|split].
    + intros x Hx. apply in_or_app. left. exact Hx.
    + intros _. symmetry. apply firstn_app_le. rewrite length_rev. lia.
Qed.

Lemma extra_loop_spec0 fuel need cp :
  0 <= cp <= 1114111 -> (Z.to_nat (1114112 - cp) <= fuel)%nat ->
  total (extra_loop fuel need cp [] 0)
    (fun ex => need <= Z.of_nat (length ex)
       /\ incl ex (map single (cands fuel cp))
       /\ (need <= Z.of_nat (length (cands fuel cp)) ->
           firstn (Z.to_nat need) ex = firstn (Z.to_nat need) (map single (cands fuel cp)))).
Proof. intros H1 H2. exact (extra_loop_spec fuel need cp [] 0 H1 H2 eq_refl). Qed.

Lemma in_firstn {A} k (l : list A) x : In x (firstn k l) -> In x l.
Proof. intros H. rewrite <- (firstn_skipn k l). apply in_or_app. auto. Qed.

Lemma NoDup_firstn {A} k (l : list A) : NoDup l -> NoDup (firstn k l).
Proof. intros H. rewrite <- (firstn_skipn k l) in H. exact (NoDup_app_remove_r _ _ H). Qed.

(** The extension range 0x2600..0x10FFFF holds 1102335 usable code points. *)
Lemma cands_count : Z.of_nat (length (cands extra_fuel 9728)) = 1102335.
Proof. vm_compute. reflexivity. Qed.

Lemma total_base_fast n :
  0 <= n ->
  total (build_base_fast n)
    (fun base => Z.of_nat (length base) = n /\ Forall good_token base
                 /\ (n <= 94 + 1102335 -> NoDup base)).
Proof.
  intros Hn. unfold build_base_fast. rewrite symbol_pool_length.
  destruct (Z.ltb_spec (Z.of_nat 94) n).
  - destruct (cands_props extra_fuel 9728) as [Cnd Call].
    eapply total_bind.
    + apply extra_loop_spec0; [lia | unfold extra_fuel; lia].
    + intros ex (Hlen & Hincl & Hpre). apply total_ret.
      split; [|split].
      * rewrite length_app, pool_tokens_length, length_firstn. lia.
      * apply Forall_app. split; [apply pool_tokens_good|].
        apply Forall_forall. intros t Ht. apply in_firstn, Hincl in Ht.
        apply in_map_iff in Ht as (c & <- & Hc).
        pose proof (proj1 (Forall_forall _ _) Call c Hc) as Hp. cbv beta in Hp.
        split; [discriminate|]. repeat constructor; tauto.
      * intros Hn'. rewrite Hpre by (rewrite cands_count; lia).
        apply NoDup_app; [apply pool_tokens_NoDup|apply NoDup_firstn, NoDup_map_single, Cnd|].
        intros a Ha Hb. apply pool_tokens_shape in Ha as (c & -> & _ & _ & Hc).
        apply in_firstn, in_map_iff in Hb as (c' & Ec & Hc').
        injection Ec as ->.
        pose proof (proj1 (Forall_forall _ _) Call c Hc') as Hp. cbv beta in Hp. lia.
  - eapply total_weaken; [apply total_sample_pool; lia|].
    intros base (Hl & Hnd & Hincl). repeat split; auto.
    apply Forall_forall. intros t Ht.
    exact (proj1 (Forall_forall _ _) pool_tokens_good t (Hincl t Ht)).
Qed.

(** ** Flat indices *)

Lemma seq_shift_add s t m : map (fun j => s + j)%nat (seq t m) = seq (s + t) m.
Proof.
  revert t. induction m as [|m IH]; intros t; simpl; [reflexivity|].
  rewrite IH. f_equal. f_equal. lia.
Qed.

Lemma seq_rows n a k :
  seq (a * n) (k * n) = flat_map (fun i => map (fun j => i * n + j)%nat (seq 0 n)) (seq a k).
Proof.
  revert a. induction k as [|k IH]; intros a; simpl; [reflexivity|].
  rewrite seq_app, seq_shift_add, Nat.add_0_r. f_equal.
  replace (a * n + n)%nat with (S a * n)%nat by lia. apply IH.
Qed.

Lemma divmod_nat n i j :
  (j < n)%nat ->
  Z.of_nat (i * n + j) / Z.of_nat n = Z.of_nat i /\ Z.of_nat (i * n + j) mod Z.of_nat n = Z.of_nat j.
Proof.
  intros Hj. rewrite Nat2Z.inj_add, Nat2Z.inj_mul. split.
  - symmetry. apply Z.div_unique with (Z.of_nat j); lia.
  - symmetry. apply Z.mod_unique with (Z.of_nat i); lia.
Qed.

Lemma py_range_of_nat n : py_range (Z.of_nat n) = map Z.of_nat (seq 0 n).
Proof. unfold py_range. rewrite Nat2Z.id. reflexivity. Qed.

(** [range(n * n)] decomposed by [divmod] enumerates [range(n) x range(n)] row by row. *)
Lemma prod_flat N :
  0 <= N ->
  list_prod (py_range N) (py_range N) = map (fun x => (x / N, x mod N)) (py_range (N * N)).
Proof.
  intros HN. rewrite <- (Z2Nat.id N HN). set (n := Z.to_nat N).
  rewrite <- Nat2Z.inj_mul, !py_range_of_nat.
  replace (seq 0 (n * n)) with (seq (0 * n) (n * n)) by reflexivity.
  rewrite seq_rows.
  generalize (seq 0 n) at 1 4. intros L. induction L as [|i L IH]; simpl; [reflexivity|].
  rewrite IH, !map_app, !map_map. f_equal.
  apply map_ext_in. intros j Hj. apply in_seq in Hj.
  destruct (divmod_nat n i j) as [E1 E2]; [lia|]. rewrite E1, E2. reflexivity.
Qed.

(** ** IEEE doubles *)

Lemma pow2_pos e : (0 < pow2 e)%Q.
Proof. apply Qpower_0_lt. reflexivity. Qed.

Lemma pow2_add a b : (pow2 (a + b) == pow2 a * pow2 b)%Q.
Proof. apply Qpower_plus. discriminate. Qed.

Lemma pow2_lt a b : a < b -> (pow2 a < pow2 b)%Q.
Proof. intros H. apply Qpower_lt_compat_l; [lia | reflexivity]. Qed.

Lemma pow2_le a b : a <= b -> (pow2 a <= pow2 b)%Q.
Proof. intros H. apply Qpower_le_compat_l; [lia | discriminate]. Qed.

Lemma pow2_lt_inv a b : (pow2 a < pow2 b)%Q -> a < b.
Proof.
  intros H. destruct (Z_lt_le_dec a b) as [|L]; [assumption|].
  apply pow2_le in L. exfalso. apply (Qlt_not_le _ _ H L).
Qed.

Lemma pow2_Z e : 0 <= e -> (pow2 e == inject_Z (2 ^ e))%Q.
Proof. intros H. unfold pow2. rewrite <- Zpower_Qpower by exact H. reflexivity. Qed.

Lemma pow2_frac p q : 0 <= p -> 0 <= q -> (pow2 (p - q) == (2 ^ p # Z.to_pos (2 ^ q)))%Q.
Proof.
  intros Hp Hq. rewrite Qmake_Qdiv, Z2Pos.id by lia.
  replace (p - q) with (p + - q) by ring. rewrite pow2_add.
  unfold Qdiv. rewrite <- !pow2_Z by assumption. unfold pow2 at 2. rewrite Qpower_opp. reflexivity.
Qed.

Lemma flog2_spec x : (0 < x)%Q -> (pow2 (flog2 x) <= x < pow2 (flog2 x + 1))%Q.
Proof.
  destruct x as [a b]. intros Hx. unfold Qlt in Hx; cbn in Hx.
  unfold flog2; cbn [Qnum Qden].
  pose proof (Z.log2_spec a ltac:(lia)) as [A1 A2].
  pose proof (Z.log2_spec (Zpos b) ltac:(lia)) as [B1 B2].
  pose proof (Z.log2_nonneg a). pose proof (Z.log2_nonneg (Zpos b)).
  set (la := Z.log2 a) in *. set (lb := Z.log2 (Zpos b)) in *.
  assert (P1 : 0 < 2 ^ la) by lia. assert (P2 : 0 < 2 ^ lb) by lia.
  assert (U : ((a # b) < pow2 (la - lb + 1))%Q).
  { replace (la - lb + 1) with ((la + 1) - lb) by ring.
    rewrite pow2_frac by lia. unfold Qlt; cbn [Qnum Qden].
    rewrite Z2Pos.id by lia. rewrite Z.pow_add_r by lia.
    rewrite <- Z.add_1_r in A2, B2. rewrite Z.pow_add_r in A2, B2 by lia. nia. }
  assert (L : (pow2 (la - lb - 1) < (a # b))%Q).
  { replace (la - lb - 1) with (la - (lb + 1)) by ring.
    rewrite pow2_frac by lia. unfold Qlt; cbn [Qnum Qden].
    rewrite Z2Pos.id by lia. rewrite Z.pow_add_r by lia.
    rewrite <- Z.add_1_r in A2, B2. rewrite Z.pow_add_r in A2, B2 by lia. nia. }
  destruct (Qle_bool (pow2 (la - lb)) (a # b)) eqn:E.
  - apply Qle_bool_iff in E. split; assumption.
  - assert (E' : ((a # b) < pow2 (la - lb))%Q).
    { apply Qnot_le_lt. intros C. apply Qle_bool_iff in C. congruence. }
    split; [apply Qlt_le_weak; exact L|].
    replace (la - lb - 1 + 1) with (la - lb) by ring. exact E'.
Qed.

Lemma flog2_unique x e : (pow2 e <= x < pow2 (e + 1))%Q -> flog2 x = e.
Proof.
  intros [H1 H2].
  assert (Hx : (0 < x)%Q) by (eapply Qlt_le_trans; [apply pow2_pos | exact H1]).
  destruct (flog2_spec x Hx) as [F1 F2].
  assert (flog2 x < e + 1) by (apply pow2_lt_inv; eapply Qle_lt_trans; eauto).
  assert (e < flog2 x + 1) by (apply pow2_lt_inv; eapply Qle_lt_trans; eauto).
  lia.
Qed.

Lemma flog2_compat x y : (0 < x)%Q -> (x == y)%Q -> flog2 x = flog2 y.
Proof.
  intros Hx E. symmetry. apply flog2_unique. rewrite <- E. apply flog2_spec, Hx.
Qed.

Lemma flog2_mono x y : (0 < x)%Q -> (x <= y)%Q -> flog2 x <= flog2 y.
Proof.
  intros Hx Hxy. assert (Hy : (0 < y)%Q) by (eapply Qlt_le_trans; eauto).
  destruct (flog2_spec x Hx). destruct (flog2_spec y Hy).
  assert (flog2 x < flog2 y + 1); [|lia].
  apply pow2_lt_inv. eapply Qle_lt_trans; [eassumption|]. eapply Qle_lt_trans; eassumption.
Qed.

Lemma rne_bounds y : Qfloor y <= rne y <= Qfloor y + 1.
Proof. unfold rne. destruct (_ ?= _)%Q; try destruct (Z.even _); lia. Qed.

Lemma rne_mono y1 y2 : (y1 <= y2)%Q -> rne y1 <= rne y2.
Proof.
  intros H. pose proof (Qfloor_resp_le _ _ H) as Hf.
  pose proof (rne_bounds y1). pose proof (rne_bounds y2).
  destruct (Z.eq_dec (Qfloor y1) (Qfloor y2)) as [E|E]; [|lia].
  unfold rne. rewrite E. set (f := Qfloor y2).
  assert (Hfr : (y1 - inject_Z f <= y2 - inject_Z f)%Q) by lra.
  destruct (Qcompare_spec (y1 - inject_Z f) (1 # 2)) as [C1|C1|C1];
  destruct (Qcompare_spec (y2 - inject_Z f) (1 # 2)) as [C2|C2|C2];
  try destruct (Z.even f); try lia; exfalso; lra.
Qed.

Lemma rne_Z k : rne (inject_Z k) = k.
Proof.
  unfold rne. rewrite Qfloor_Z.
  destruct (Qcompare_spec (inject_Z k - inject_Z k) (1 # 2)) as [C|C|C];
  try reflexivity; exfalso; lra.
Qed.

Lemma rne_compat y1 y2 : (y1 == y2)%Q -> rne y1 = rne y2.
Proof. intros H. unfold rne. rewrite (Qfloor_comp _ _ H). rewrite H. reflexivity. Qed.

Lemma rne_nonneg y : (0 <= y)%Q -> 0 <= rne y.
Proof.
  intros H. pose proof (rne_bounds y). pose proof (Qfloor_resp_le _ _ H).
  assert (Qfloor 0 = 0) by reflexivity. lia.
Qed.

Lemma pow2_nz e : ~ (pow2 e == 0)%Q.
Proof. intros H. pose proof (pow2_pos e) as P. rewrite H in P. apply (Qlt_irrefl _ P). Qed.

Lemma div_pow2_mul x s : (x / pow2 s * pow2 s == x)%Q.
Proof. field. apply pow2_nz. Qed.

Lemma div_pow2_lt_iff x s t : (x / pow2 s < pow2 t <-> x < pow2 (t + s))%Q.
Proof.
  rewrite pow2_add. rewrite <- (Qmult_lt_r _ _ _ (pow2_pos s)), div_pow2_mul. reflexivity.
Qed.

Lemma div_pow2_ge_iff x s t : (pow2 t <= x / pow2 s <-> pow2 (t + s) <= x)%Q.
Proof.
  rewrite pow2_add. rewrite <- (Qmult_le_r _ _ _ (pow2_pos s)), div_pow2_mul. reflexivity.
Qed.

Lemma div_pow2_le x y s : (x <= y)%Q -> (x / pow2 s <= y / pow2 s)%Q.
Proof.
  intros H. apply Qmult_le_compat_r; [exact H|]. apply Qlt_le_weak, Qinv_lt_0_compat, pow2_pos.
Qed.

Lemma floor_lt_Z z k : (z < inject_Z k)%Q -> Qfloor z < k.
Proof.
  intros H. rewrite Zlt_Qlt. eapply Qle_lt_trans; [apply Qfloor_le | exact H].
Qed.

Lemma floor_ge_Z z k : (inject_Z k <= z)%Q -> k <= Qfloor z.
Proof. intros H. rewrite <- (Qfloor_Z k). apply Qfloor_resp_le, H. Qed.

Lemma rnd_val_compat x y : (0 < x)%Q -> (x == y)%Q -> rnd_val x = rnd_val y.
Proof.
  intros Hx E. unfold rnd_val. rewrite (flog2_compat x y Hx E).
  f_equal. f_equal. apply rne_compat. rewrite E. reflexivity.
Qed.

Lemma rnd_val_nonneg x : (0 <= x)%Q -> (0 <= rnd_val x)%Q.
Proof.
  intros Hx. unfold rnd_val. apply Qmult_le_0_compat; [|apply Qlt_le_weak, pow2_pos].
  change 0%Q with (inject_Z 0). rewrite <- Zle_Qle. apply rne_nonneg.
  apply Qle_shift_div_l; [apply pow2_pos|]. rewrite Qmult_0_l. exact Hx.
Qed.

Lemma rnd_val_mono x y : (0 < x)%Q -> (x <= y)%Q -> (rnd_val x <= rnd_val y)%Q.
Proof.
  intros Hx Hxy. assert (Hy : (0 < y)%Q) by (eapply Qlt_le_trans; eauto).
  pose proof (flog2_mono x y Hx Hxy) as Hf.
  destruct (flog2_spec x Hx) as [X1 X2]. destruct (flog2_spec y Hy) as [Y1 Y2].
  unfold rnd_val.
  set (fx := flog2 x) in *. set (fy := flog2 y) in *.
  set (sx := Z.max (fx - 52) (-1074)). set (sy := Z.max (fy - 52) (-1074)).
  destruct (Z.eq_dec sx sy) as [E|E].
  - rewrite E. apply Qmult_le_compat_r; [|apply Qlt_le_weak, pow2_pos].
    rewrite <- Zle_Qle. apply rne_mono, div_pow2_le, Hxy.
  - assert (Hs : sx < sy) by lia.
    assert (A : rne (x / pow2 sx) <= 2 ^ 53).
    { pose proof (rne_bounds (x / pow2 sx)).
      assert (Qfloor (x / pow2 sx) < 2 ^ 53); [|lia].
      apply floor_lt_Z. rewrite <- pow2_Z by lia. apply div_pow2_lt_iff.
      eapply Qlt_le_trans; [exact X2|]. apply pow2_le. lia. }
    assert (B : 2 ^ 52 <= rne (y / pow2 sy)).
    { pose proof (rne_bounds (y / pow2 sy)).
      assert (2 ^ 52 <= Qfloor (y / pow2 sy)); [|lia].
      apply floor_ge_Z. rewrite <- pow2_Z by lia. apply div_pow2_ge_iff.
      eapply Qle_trans; [|exact Y1]. apply pow2_le. lia. }
    apply Qle_trans with (inject_Z (2 ^ 53) * pow2 sx)%Q.
    { apply Qmult_le_compat_r; [|apply Qlt_le_weak, pow2_pos]. rewrite <- Zle_Qle. exact A. }
    apply Qle_trans with (inject_Z (2 ^ 52) * pow2 sy)%Q.
    2: { apply Qmult_le_compat_r; [|apply Qlt_le_weak, pow2_pos]. rewrite <- Zle_Qle. exact B. }
    rewrite <- !pow2_Z by lia. rewrite <- !pow2_add. apply pow2_le. lia.
Qed.

Lemma rnd_val_exact m e : 0 < m <= 2 ^ 53 -> -1074 <= e ->
  (rnd_val (inject_Z m * pow2 e) == inject_Z m * pow2 e)%Q.
Proof.
  intros Hm He. set (x := (inject_Z m * pow2 e)%Q).
  pose proof (Z.log2_spec m ltac:(lia)) as [M1 M2]. pose proof (Z.log2_nonneg m).
  assert (Hl : Z.log2 m < 54) by (apply Z.log2_lt_pow2; lia).
  assert (Hf : flog2 x = Z.log2 m + e).
  { apply flog2_unique. unfold x.
    replace (Z.log2 m + e + 1) with ((Z.log2 m + 1) + e) by ring.
    rewrite (pow2_add (Z.log2 m + 1) e), (pow2_add (Z.log2 m) e).
    rewrite (pow2_Z (Z.log2 m + 1)), (pow2_Z (Z.log2 m)) by lia. split.
    - apply (proj2 (Qmult_le_r _ _ _ (pow2_pos e))). rewrite <- Zle_Qle. exact M1.
    - apply (proj2 (Qmult_lt_r _ _ _ (pow2_pos e))). rewrite <- Zlt_Qlt. exact M2. }
  unfold rnd_val. rewrite Hf. set (s := Z.max (Z.log2 m + e - 52) (-1074)).
  assert (K : exists k, (x / pow2 s == inject_Z k)%Q).
  { destruct (Z_le_gt_dec 0 (e - s)).
    - exists (m * 2 ^ (e - s)). unfold x. rewrite inject_Z_mult, <- pow2_Z by lia.
      replace e with ((e - s) + s) at 1 by ring. rewrite pow2_add. field. apply pow2_nz.
    - assert (Z.log2 m = 53) by lia.
      assert (Em : m = 2 ^ 53) by (rewrite H0 in M1; lia).
      exists (2 ^ 52). unfold x. rewrite Em. assert (Es : s = 1 + e) by lia. rewrite Es.
      rewrite pow2_add. replace (2 ^ 53) with (2 * 2 ^ 52) by reflexivity.
      rewrite inject_Z_mult. change (pow2 1) with (inject_Z 2). field.
      apply pow2_nz. }
  destruct K as [k Hk]. rewrite (rne_compat _ _ Hk), rne_Z. rewrite <- Hk.
  apply div_pow2_mul.
Qed.

Lemma Qred_Z k : Qred (inject_Z k) = inject_Z k.
Proof.
  unfold Qred, inject_Z. pose proof (Z.ggcd_gcd k 1) as G.
  pose proof (Z.ggcd_correct_divisors k 1) as D.
  destruct (Z.ggcd k 1) as [g [a b]]. cbn in *. rewrite Z.gcd_1_r in G. subst g.
  destruct D as [D1 D2]. rewrite Z.mul_1_l in D1, D2. subst. reflexivity.
Qed.

Lemma round_pos_case x : (0 < x)%Q -> round x = round_pos x.
Proof.
  destruct x as [a b]. unfold Qlt; cbn. intros H. unfold round; cbn.
  replace (a ?= 0) with Gt by (symmetry; apply Z.compare_gt_iff; lia). reflexivity.
Qed.

Lemma round_zero x : (x == 0)%Q -> round x = Fin 0.
Proof.
  destruct x as [a b]. unfold Qeq; cbn. intros H. unfold round; cbn.
  replace a with 0 by lia. reflexivity.
Qed.

Lemma round_neg_case x : (x < 0)%Q ->
  round x = match round_pos (- x) with Fin v => Fin (- v) | PInf => NInf | f => f end.
Proof.
  destruct x as [a b]. unfold Qlt; cbn. intros H. unfold round; cbn [Qnum].
  replace (a ?= 0) with Lt by (symmetry; apply Z.compare_lt_iff; lia). reflexivity.
Qed.

Lemma round_pos_fin x : (rnd_val x < pow2 1024)%Q -> round_pos x = Fin (Qred (rnd_val x)).
Proof.
  intros H. unfold round_pos. destruct (Qle_bool _ _) eqn:B; [|reflexivity].
  apply Qle_bool_iff in B. exfalso. apply (Qlt_not_le _ _ H B).
Qed.

Lemma round_pos_inf x : (pow2 1024 <= rnd_val x)%Q -> round_pos x = PInf.
Proof. intros H. unfold round_pos. apply Qle_bool_iff in H. rewrite H. reflexivity. Qed.

Lemma round_pos_cases x :
  round_pos x = PInf \/ (round_pos x = Fin (Qred (rnd_val x)) /\ (rnd_val x < pow2 1024)%Q).
Proof.
  destruct (Qlt_le_dec (rnd_val x) (pow2 1024)) as [L|L].
  - right. split; [apply round_pos_fin|]; exact L.
  - left. apply round_pos_inf, L.
Qed.

Lemma round_compat x y : (x == y)%Q -> round x = round y.
Proof.
  intros E. destruct (Qlt_le_dec 0 x) as [P|N].
  - assert (P' : (0 < y)%Q) by (rewrite <- E; exact P).
    rewrite !round_pos_case by assumption. unfold round_pos.
    rewrite (rnd_val_compat x y P E). reflexivity.
  - destruct (Qlt_le_dec x 0) as [Ng|Z].
    + assert (Ng' : (y < 0)%Q) by (rewrite <- E; exact Ng).
      rewrite !round_neg_case by assumption. unfold round_pos.
      rewrite (rnd_val_compat (- x) (- y)); [reflexivity | lra | rewrite E; reflexivity].
    + rewrite !round_zero by lra. reflexivity.
Qed.

Lemma round_nonneg x : (0 <= x)%Q -> round x = PInf \/ exists v, round x = Fin v /\ (0 <= v)%Q.
Proof.
  intros H. destruct (Qlt_le_dec 0 x) as [P|N].
  - rewrite round_pos_case by exact P.
    destruct (round_pos_cases x) as [E|[E _]]; [left; exact E | right].
    rewrite E. eexists; split; [reflexivity|]. rewrite Qred_correct.
    apply rnd_val_nonneg, H.
  - right. exists 0%Q. rewrite round_zero by lra. split; [reflexivity | apply Qle_refl].
Qed.


Lemma round_le x y w : (0 <= x)%Q -> (x <= y)%Q -> round y = Fin w ->
  exists v, round x = Fin v /\ (v <= w)%Q.
Proof.
  intros H0 Hxy Hy. destruct (Qlt_le_dec 0 x) as [P|N].
  - assert (Py : (0 < y)%Q) by lra.
    rewrite round_pos_case in Hy by exact Py. rewrite round_pos_case by exact P.
    destruct (round_pos_cases y) as [E|[E L]]; rewrite E in Hy; [discriminate|].
    assert (Ew : w = Qred (rnd_val y)) by congruence. subst w.
    pose proof (rnd_val_mono x y P Hxy) as M.
    rewrite round_pos_fin by lra. eexists; split; [reflexivity|].
    apply Qred_le, M.
  - exists 0%Q. rewrite round_zero by lra. split; [reflexivity|].
    destruct (round_nonneg y) as [E|[v [E Hv]]]; [lra | congruence |].
    rewrite Hy in E. injection E as <-. exact Hv.
Qed.

Lemma round_exact x m e : 0 <= m <= 2 ^ 53 -> -1074 <= e ->
  (x == inject_Z m * pow2 e)%Q -> (x < pow2 1024)%Q -> round x = Fin (Qred x).
Proof.
  intros Hm He E L. destruct (Z.eq_dec m 0) as [Z0|NZ].
  - subst m. assert (X0 : (x == 0)%Q) by (rewrite E; ring).
    rewrite round_zero by exact X0. rewrite (Qred_complete x 0 X0). reflexivity.
  - assert (P : (0 < x)%Q).
    { rewrite E. apply Qmult_lt_0_compat; [|apply pow2_pos].
      change 0%Q with (inject_Z 0). rewrite <- Zlt_Qlt. lia. }
    rewrite round_pos_case by exact P. unfold round_pos.
    rewrite (rnd_val_compat x _ P E).
    pose proof (rnd_val_exact m e ltac:(lia) He) as R.
    destruct (Qle_bool _ _) eqn:B.
    + apply Qle_bool_iff in B. rewrite R, <- E in B. exfalso. apply (Qlt_not_le _ _ L B).
    + f_equal. apply Qred_complete. rewrite R, E. reflexivity.
Qed.

Lemma round_pow2 t : -1074 <= t <= 1023 -> round (pow2 t) = Fin (Qred (pow2 t)).
Proof.
  intros H. apply (round_exact _ 1 t); [lia | lia | ring | apply pow2_lt; lia].
Qed.

Lemma round_Z k : 0 <= k <= 2 ^ 53 -> round (inject_Z k) = Fin (inject_Z k).
Proof.
  intros H. rewrite (round_exact _ k 0); [rewrite Qred_Z; reflexivity | lia | lia | |].
  - change (pow2 0) with 1%Q. ring.
  - rewrite pow2_Z by lia. rewrite <- Zlt_Qlt. lia.
Qed.


(** ** The moderate-density path *)

Lemma random01_eq rs p : random01 rs p = Ok (r01 (rs p)) (S p).
Proof. reflexivity. Qed.

Lemma r01_range w : (0 <= r01 w)%Q /\ (r01 w < 1)%Q.
Proof.
  unfold r01, Qle, Qlt. simpl. pose proof (Z.mod_pos_bound w 9007199254740992). lia.
Qed.

Lemma qlt_r01_ge1 w d : (1 <= d)%Q -> qlt (r01 w) d = true.
Proof.
  intros Hd. unfold qlt. apply negb_true_iff, not_true_iff_false. intros H.
  apply Qle_bool_iff in H. destruct (r01_range w) as [_ H1].
  apply (Qlt_irrefl d). eapply Qle_lt_trans; [exact H|]. eapply Qlt_le_trans; eauto.
Qed.

Lemma qlt_r01_le0 w d : (d <= 0)%Q -> qlt (r01 w) d = false.
Proof.
  intros Hd. unfold qlt. apply negb_false_iff, Qle_bool_iff.
  destruct (r01_range w) as [H0 _]. eapply Qle_trans; eauto.
Qed.

Lemma replicate_random01 k rs p :
  replicateM k random01 rs p = Ok (map (fun j => r01 (rs j)) (seq p k)) (p + k)%nat.
Proof.
  revert p. induction k as [|k IH]; intros p; simpl.
  - rewrite Nat.add_0_r. reflexivity.
  - unfold bind at 1. rewrite random01_eq. unfold bind. rewrite IH.
    unfold ret. f_equal. lia.
Qed.

Lemma row_lines_spec base d n a rs p b m :
  length base = n -> (a < n)%nat -> (b + m <= n)%nat ->
  row_lines base d (Z.of_nat a) (map Z.of_nat (seq b m))
    (map (fun j => r01 (rs j)) (seq (p + a * n + b) m))
  = ret (map (fun x => idx_pline base (Z.of_nat n) (Z.of_nat x))
             (filter (fun x => flt_lt (Fin (r01 (rs (p + x)%nat))) d) (seq (a * n + b) m))).
Proof.
  intros Hl Ha. revert b. induction m as [|m IH]; intros b Hb; [reflexivity|].
  cbn [seq map row_lines filter].
  replace (p + a * n + b)%nat with (p + (a * n + b))%nat by lia.
  replace (S (p + (a * n + b))) with (p + a * n + S b)%nat by lia.
  replace (S (a * n + b)) with (a * n + S b)%nat by lia.
  rewrite IH by lia.
  destruct (flt_lt (Fin (r01 (rs (p + (a * n + b))%nat))) d); [|reflexivity].
  rewrite pair_line_in by lia.
  destruct (divmod_nat n a b) as [E1 E2]; [lia|].
  assert (Ei : idx_pline base (Z.of_nat n) (Z.of_nat (a * n + b)) = pline base (Z.of_nat a) (Z.of_nat b))
    by (unfold idx_pline; rewrite E1, E2; reflexivity).
  cbn [map]. rewrite Ei. reflexivity.
Qed.

Lemma moderate_rows_spec base d n rs p a k :
  length base = n -> (a + k <= n)%nat ->
  moderate_rows base (Z.of_nat n) d (map Z.of_nat (seq a k)) rs (p + a * n)%nat
  = Ok (map (fun x => idx_pline base (Z.of_nat n) (Z.of_nat x))
            (filter (fun x => flt_lt (Fin (r01 (rs (p + x)%nat))) d) (seq (a * n) (k * n))))
       (p + (a + k) * n)%nat.
Proof.
  intros Hl. revert a. induction k as [|k IH]; intros a Hk.
  - cbn. rewrite Nat.add_0_r. reflexivity.
  - cbn [seq map moderate_rows]. unfold bind at 1.
    rewrite Nat2Z.id, replicate_random01, py_range_of_nat.
    replace (seq (p + a * n) n) with (seq (p + a * n + 0) n) by (rewrite Nat.add_0_r; reflexivity).
    unfold bind at 1. rewrite row_lines_spec by lia. unfold ret at 1.
    unfold bind at 1.
    replace (p + a * n + n)%nat with (p + S a * n)%nat by lia.
    rewrite IH by lia. unfold ret.
    rewrite <- map_app, <- filter_app.
    replace (S k * n)%nat with (n + k * n)%nat by lia. rewrite seq_app.
    replace (S a * n)%nat with (a * n + n)%nat by lia. rewrite Nat.add_0_r. f_equal. nia.
Qed.

(** The moderate path selects the flat index [x] exactly when the [x]-th
    draw after the start, as a [random()] value, is below the density. *)
Lemma moderate_all base d N rs p :
  Z.of_nat (length base) = N ->
  moderate_rows base N d (py_range N) rs p
  = Ok (map (idx_pline base N)
            (filter (fun x => flt_lt (Fin (r01 (rs (p + Z.to_nat x)%nat))) d) (py_range (N * N))))
       (p + Z.to_nat N * Z.to_nat N)%nat.
Proof.
  intros HN. set (n := length base) in HN. subst N.
  rewrite py_range_of_nat, <- Nat2Z.inj_mul, py_range_of_nat, Nat2Z.id.
  pose proof (moderate_rows_spec base d n rs p 0 n eq_refl (le_n _)) as H.
  rewrite Nat.mul_0_l, Nat.add_0_r in H. rewrite H.
  rewrite filter_map_swap, map_map. f_equal.
  f_equal. apply filter_ext. intros x. rewrite Nat2Z.id. reflexivity.
Qed.

(** ** What the generators write *)

Lemma good_no_surrogate t : good_token t -> existsb is_surrogate t = false.
Proof.
  intros [_ Ht]. apply not_true_iff_false. intros H. apply existsb_exists in H as (c & Hc & Hs).
  rewrite Forall_forall in Ht. destruct (Ht c Hc) as [_ H']. congruence.
Qed.

Lemma join_no_surrogate sep base :
  existsb is_surrogate sep = false -> Forall good_token base ->
  existsb is_surrogate (join sep base) = false.
Proof.
  intros Hsep Hb. induction Hb as [|t base Ht Hb IH]; [reflexivity|].
  destruct base as [|t' base']; [apply good_no_surrogate; exact Ht|].
  change (join sep (t :: t' :: base')) with (t ++ sep ++ join sep (t' :: base')).
  rewrite !existsb_app, good_no_surrogate, Hsep, IH by exact Ht. reflexivity.
Qed.

Lemma fwrite_header base : Forall good_token base -> fwrite (header base) = ret (header base).
Proof.
  intros Hb. unfold fwrite, header. rewrite existsb_app, join_no_surrogate by (reflexivity || exact Hb).
  reflexivity.
Qed.

Lemma nth_good base i : Forall good_token base -> existsb is_surrogate (nth i base []) = false.
Proof.
  intros Hb. destruct (nth_in_or_default i base []) as [Hin | Hd]; [|rewrite Hd; reflexivity].
  apply good_no_surrogate. exact (proj1 (Forall_forall _ _) Hb _ Hin).
Qed.

Lemma write_plines base n idx :
  Forall good_token base ->
  write_lines (map (idx_pline base n) idx) = ret (unlines (map (idx_pline base n) idx)).
Proof.
  intros Hb. apply write_lines_ok. apply Forall_forall. intros l Hl.
  apply in_map_iff in Hl as (x & <- & _). unfold idx_pline, pline.
  rewrite !existsb_app, !nth_good by exact Hb. reflexivity.
Qed.

Lemma mapM_idx_line base n idx :
  Z.of_nat (length base) = n -> (forall x, In x idx -> 0 <= x < n * n) ->
  mapM (idx_line base n) idx = ret (map (idx_pline base n) idx).
Proof. intros Hl Hi. apply mapM_pure. intros x Hx. apply idx_line_in; auto. Qed.

Lemma py_int_bounds x m : (0 <= x)%Q -> (x <= inject_Z m)%Q -> 0 <= py_int x <= m.
Proof.
  destruct x as [a b]. unfold Qle, py_int. simpl. intros H0 H1.
  rewrite Z.quot_div_nonneg by lia. split.
  - apply Z.div_pos; lia.
  - apply Z.div_le_upper_bound; lia.
Qed.

Lemma bind_ret_l {A B} (a : A) (k : A -> M B) : bind (ret a) k = k a.
Proof. reflexivity. Qed.

Lemma perm_range_in n idx rest x :
  Permutation (py_range n) (idx ++ rest) -> In x idx -> 0 <= x < n.
Proof.
  intros Hp Hx. apply py_range_spec. apply (Permutation_in _ (Permutation_sym Hp)).
  apply in_or_app. auto.
Qed.

(** The sampling paths: [k] distinct flat indices, written in sampled order. *)
Lemma total_sample_lines base n k :
  Z.of_nat (length base) = n -> Forall good_token base -> 0 <= k <= n * n ->
  total (indices <- sample 0 (py_range (n * n)) k;;
         lines <- mapM (idx_line base n) indices;;
         write_lines lines)
    (fun body => exists idx, body = unlines (map (idx_pline base n) idx)
       /\ Z.of_nat (length idx) = k
       /\ exists rest, Permutation (py_range (n * n)) (idx ++ rest)).
Proof.
  intros Hl Hb Hk. eapply total_bind.
  - apply total_sample. rewrite py_range_length. lia.
  - intros idx (Hlen & rest & Hp).
    rewrite mapM_idx_line by (auto; intros x Hx; exact (perm_range_in _ _ _ _ Hp Hx)).
    rewrite bind_ret_l, write_plines by exact Hb. apply total_ret.
    exists idx. split; [reflexivity|]. split; [lia|]. eauto.
Qed.

(** The moderate path: the flat indices whose draw is below the density,
    in increasing order. *)
Lemma total_moderate_lines base n d :
  Z.of_nat (length base) = n -> Forall good_token base ->
  total (lines <- moderate_rows base n d (py_range n);; write_lines lines)
    (fun body => exists idx, body = unlines (map (idx_pline base n) idx)
       /\ exists r : Z -> Q, (forall x, 0 <= r x < 1)%Q
                             /\ idx = filter (fun x => flt_lt (Fin (r x)) d) (py_range (n * n))).
Proof.
  intros Hl Hb rs p. unfold bind at 1. rewrite moderate_all by exact Hl.
  rewrite write_plines by exact Hb. eexists _, _. split; [reflexivity|].
  eexists. split; [reflexivity|].
  exists (fun x => r01 (rs (p + Z.to_nat x)%nat)). split; [|reflexivity].
  intros x. apply r01_range.
Qed.

(** All pairs, row by row. *)
Lemma total_all_pairs_lines base n :
  Z.of_nat (length base) = n -> Forall good_token base ->
  total (lines <- all_pairs_lines base n;; write_lines lines)
    (fun body => body = unlines (map (idx_pline base n) (py_range (n * n)))).
Proof.
  intros Hl Hb.
  assert (E : all_pairs_lines base n = ret (map (idx_pline base n) (py_range (n * n)))).
  { unfold all_pairs_lines. rewrite prod_flat by lia.
    rewrite (mapM_pure _ (fun ij => pline base (fst ij) (snd ij))); [rewrite map_map; reflexivity|].
    intros ij Hij. apply in_map_iff in Hij as (x & <- & Hx). apply py_range_spec in Hx.
    assert (0 < n) by nia.
    destruct (divmod_bounds n x) as [H1 H2]; [lia | lia |]. apply pair_line_in; simpl; lia. }
  rewrite E, bind_ret_l, write_plines by exact Hb. apply total_ret. reflexivity.
Qed.

Lemma Permutation_filter' {A} (f : A -> bool) l l' :
  Permutation l l' -> Permutation (filter f l) (filter f l').
Proof.
  induction 1 as [| x l l' _ IH | x y l | l l' l'' _ IH1 _ IH2]; simpl.
  - constructor.
  - destruct (f x); auto.
  - destruct (f x), (f y); auto. apply perm_swap.
  - eapply Permutation_trans; eauto.
Qed.

Lemma NoDup_app_disj {A} (l l' : list A) x : NoDup (l ++ l') -> In x l -> In x l' -> False.
Proof.
  induction l as [|y l IH]; simpl; intros Hnd Hx Hx'; [exact Hx|].
  inversion Hnd as [|? ? Hy Hnd']. subst. destruct Hx as [<-|Hx].
  - apply Hy. apply in_or_app. auto.
  - exact (IH Hnd' Hx Hx').
Qed.

Lemma filter_all_false {A} (f : A -> bool) l : (forall x, In x l -> f x = false) -> filter f l = [].
Proof.
  induction l as [|x l IH]; simpl; intros H; [reflexivity|].
  rewrite H by auto. apply IH. auto.
Qed.

Lemma filter_all_true {A} (f : A -> bool) l : (forall x, In x l -> f x = true) -> filter f l = l.
Proof.
  induction l as [|x l IH]; simpl; intros H; [reflexivity|].
  rewrite H by auto. f_equal. apply IH. auto.
Qed.

(** The complement path: the flat indices not sampled as missing. *)
Lemma total_complement_lines base n k :
  Z.of_nat (length base) = n -> Forall good_token base -> 0 <= k <= n * n ->
  total (missing <- sample 0 (py_range (n * n)) k;;
         lines <- mapM (idx_line base n) (filter (not_missing missing) (py_range (n * n)));;
         write_lines lines)
    (fun body => exists idx, body = unlines (map (idx_pline base n) idx)
       /\ NoDup idx /\ (forall x, In x idx -> 0 <= x < n * n)
       /\ Z.of_nat (length idx) = n * n - k).
Proof.
  intros Hl Hb Hk. eapply total_bind.
  - apply total_sample. rewrite py_range_length. lia.
  - intros miss (Hlen & rest & Hp).
    set (idx := filter (not_missing miss) (py_range (n * n))).
    assert (Hin : forall x, In x idx -> 0 <= x < n * n).
    { intros x Hx. apply filter_In in Hx as [Hx _]. apply py_range_spec, Hx. }
    rewrite mapM_idx_line by auto. rewrite bind_ret_l, write_plines by exact Hb.
    apply total_ret. exists idx. split; [reflexivity|]. split; [apply NoDup_filter, py_range_NoDup|].
    split; [exact Hin|].
    assert (Hnd : NoDup (miss ++ rest)) by (eapply Permutation_NoDup; [exact Hp | apply py_range_NoDup]).
    assert (E : filter (not_missing miss) (miss ++ rest) = rest).
    { rewrite filter_app, filter_all_false.
      - simpl. apply filter_all_true. intros x Hx.
        unfold not_missing. apply negb_true_iff, not_true_iff_false. intros H.
        apply existsb_exists in H as (y & Hy & Exy). apply Z.eqb_eq in Exy. subst y.
        exact (NoDup_app_disj _ _ _ Hnd Hy Hx).
      - intros x Hx. unfold not_missing.
        apply negb_false_iff, existsb_exists. exists x. split; [exact Hx | apply Z.eqb_refl]. }
    pose proof (Permutation_length (Permutation_filter' (not_missing miss) _ _ Hp)) as HL.
    rewrite E in HL. fold idx in HL. rewrite HL.
    pose proof (Permutation_length Hp) as HL2. rewrite length_app, py_range_length in HL2. lia.
Qed.

(** Split a goal made of conjunctions, closing the easy parts. *)
Ltac conj_split :=
  repeat match goal with |- _ /\ _ => split end;
  try solve [assumption | reflexivity | lia | f_equal; lia].

Lemma scaled_bounds m d :
  0 <= m -> (0 <= d <= 1)%Q -> (0 <= inject_Z m * d)%Q /\ (inject_Z m * d <= inject_Z m)%Q.
Proof.
  destruct d as [a b]. unfold Qle, Qmult, inject_Z. simpl. intros Hm [H0 H1]. split; nia.
Qed.

Lemma sample_range_props n idx rest :
  Permutation (py_range n) (idx ++ rest) -> NoDup idx /\ (forall x, In x idx -> 0 <= x < n).
Proof.
  intros Hp. destruct (sample_props _ _ _ Hp (py_range_NoDup n)) as [Hnd Hi].
  split; [exact Hnd|]. intros x Hx. apply py_range_spec, Hi, Hx.
Qed.

(** ** The doubles of the relation generators *)

Lemma qlt_lt a b : qlt a b = true -> (a < b)%Q.
Proof.
  unfold qlt. intros H. apply Qnot_le_lt. intros C. apply Qle_bool_iff in C.
  rewrite C in H. discriminate.
Qed.

Lemma qlt_ge a b : qlt a b = false -> (b <= a)%Q.
Proof. unfold qlt. intros H. apply negb_false_iff, Qle_bool_iff in H. exact H. Qed.

Lemma float_to_int_fin v : float_to_int (Fin v) = ret (py_int v).
Proof. reflexivity. Qed.

Lemma int_to_float_fin k v : round (inject_Z k) = Fin v -> int_to_float k = ret (Fin v).
Proof. intros H. unfold int_to_float. rewrite H. reflexivity. Qed.

Lemma int_to_float_small k : 0 <= k <= 2 ^ 53 -> int_to_float k = ret (Fin (inject_Z k)).
Proof. intros H. apply int_to_float_fin, round_Z, H. Qed.


Lemma rnd_val_pow2 t : -1074 <= t -> (rnd_val (pow2 t) == pow2 t)%Q.
Proof.
  intros H. assert (E : (pow2 t == inject_Z 1 * pow2 t)%Q) by ring.
  rewrite (rnd_val_compat _ _ (pow2_pos t) E), rnd_val_exact by lia. ring.
Qed.

Lemma round_fin_bound x v : (0 < x)%Q -> round x = Fin v -> (rnd_val x < pow2 1024)%Q.
Proof.
  intros P E. rewrite round_pos_case in E by exact P.
  destruct (round_pos_cases x) as [E'|[_ L]]; [congruence | exact L].
Qed.

(** [float(k)] for [0 <= k <= 2^1023] is finite, and its product with a
    factor in [0, 1/2] rounds to a double whose [int()] is in [0, k]. *)
Lemma round_half_bound k : 0 <= k <= 2 ^ 1023 ->
  exists N, round (inject_Z k) = Fin N /\ (0 <= N)%Q /\
    forall r, (0 <= r <= 1 # 2)%Q -> exists v, round (N * r) = Fin v /\ 0 <= py_int v <= k.
Proof.
  intros Hk. destruct (Z.eq_dec k 0) as [->|Nk].
  - exists 0%Q. split; [reflexivity|]. split; [apply Qle_refl|]. intros r _.
    exists 0%Q. split; [apply round_zero; ring | unfold py_int; cbn; lia].
  - set (x := inject_Z k).
    assert (Px : (0 < x)%Q) by (unfold x; change 0%Q with (inject_Z 0); rewrite <- Zlt_Qlt; lia).
    destruct (flog2_spec x Px) as [X1 X2]. set (t := flog2 x) in *.
    assert (Hx1023 : (x <= pow2 1023)%Q) by (unfold x; rewrite pow2_Z by lia; rewrite <- Zle_Qle; lia).
    assert (Ht0 : 0 <= t).
    { assert (0 < t + 1); [|lia]. apply pow2_lt_inv. eapply Qle_lt_trans; [|exact X2].
      change (pow2 0) with 1%Q. unfold x. change 1%Q with (inject_Z 1). rewrite <- Zle_Qle. lia. }
    assert (Ht1 : t <= 1023).
    { assert (t < 1024); [|lia]. apply pow2_lt_inv. eapply Qle_lt_trans; [exact X1|].
      eapply Qle_lt_trans; [exact Hx1023|]. apply pow2_lt. lia. }
    assert (R1 : (rnd_val x <= pow2 (t + 1))%Q).
    { apply Qle_trans with (rnd_val (pow2 (t + 1))).
      - apply rnd_val_mono; [exact Px | apply Qlt_le_weak, X2].
      - rewrite rnd_val_pow2 by lia. apply Qle_refl. }
    assert (R2 : (rnd_val x < pow2 1024)%Q).
    { apply Qle_lt_trans with (rnd_val (pow2 1023)).
      - apply rnd_val_mono; [exact Px | exact Hx1023].
      - rewrite rnd_val_pow2 by lia. apply pow2_lt. lia. }
    assert (EN : round x = Fin (Qred (rnd_val x))).
    { rewrite round_pos_case by exact Px. apply round_pos_fin, R2. }
    assert (N0 : (0 <= rnd_val x)%Q) by (apply rnd_val_nonneg, Qlt_le_weak, Px).
    exists (Qred (rnd_val x)). split; [exact EN|].
    split; [rewrite Qred_correct; exact N0|].
    intros r [Hr0 Hr1].
    assert (B0 : (0 <= Qred (rnd_val x) * r)%Q)
      by (rewrite Qred_correct; apply Qmult_le_0_compat; assumption).
    assert (B1 : (Qred (rnd_val x) * r <= pow2 t)%Q).
    { rewrite Qred_correct. apply Qle_trans with (pow2 (t + 1) * (1 # 2))%Q.
      - apply Qle_trans with (rnd_val x * (1 # 2))%Q.
        + rewrite !(Qmult_comm (rnd_val x)). apply Qmult_le_compat_r; assumption.
        + apply Qmult_le_compat_r; [exact R1 | discriminate].
      - assert (E : (pow2 (t + 1) * (1 # 2) == pow2 t)%Q)
          by (rewrite pow2_add; change (pow2 1) with (inject_Z 2); ring).
        rewrite E. apply Qle_refl. }
    destruct (round_le _ _ _ B0 B1 (round_pow2 t ltac:(lia))) as [v [Ev Hv]].
    exists v. split; [exact Ev|].
    destruct (round_nonneg _ B0) as [E|[v' [E Hv']]]; [congruence|].
    assert (v' = v) by congruence. subst v'.
    apply py_int_bounds; [exact Hv'|].
    eapply Qle_trans; [exact Hv|]. rewrite Qred_correct. exact X1.
Qed.

(** [float(k)] for [0 <= k <= 2^53] is exact, and its product with a
    factor in [0, 1] rounds to a double whose [int()] is in [0, k]. *)
Lemma round_unit_bound k q : 0 <= k <= 2 ^ 53 -> (0 <= q <= 1)%Q ->
  exists v, round (inject_Z k * q) = Fin v /\ 0 <= py_int v <= k.
Proof.
  intros Hk Hq. destruct (scaled_bounds k q ltac:(lia) Hq) as [B0 B1].
  destruct (round_le _ _ _ B0 B1 (round_Z k Hk)) as [v [Ev Hv]].
  destruct (round_nonneg _ B0) as [E|[v' [E Hv']]]; [congruence|].
  assert (v' = v) by congruence. subst v'.
  exists v. split; [exact Ev|]. apply py_int_bounds; assumption.
Qed.

(** [1.0 - d] for [1/2 < d <= 1] is a double in [0, 1/2]. *)
Lemma fsub_one_half q : (1 # 2 < q <= 1)%Q ->
  exists w, fsub (Fin 1) (Fin q) = Fin w /\ (0 <= w <= 1 # 2)%Q.
Proof.
  intros Hq. cbn [fsub].
  assert (B0 : (0 <= 1 - q)%Q) by lra.
  assert (B1 : (1 - q <= pow2 (-1))%Q) by (change (pow2 (-1)) with (1 # 2); lra).
  destruct (round_le _ _ _ B0 B1 (round_pow2 (-1) ltac:(lia))) as [w [Ew Hw]].
  change (Qred (pow2 (-1))) with (1 # 2) in Hw.
  exists w. split; [exact Ew|]. split; [|exact Hw].
  destruct (round_nonneg _ B0) as [E|[v [E Hv]]]; [congruence|].
  assert (v = w) by congruence. subst v. exact Hv.
Qed.

(** [1.0 - d] is finite for every finite double [d > 1/2]. *)
Lemma fsub_one_fin q u : (1 # 2 < q)%Q -> round q = Fin u -> exists w, fsub (Fin 1) (Fin q) = Fin w.
Proof.
  intros Hq Eu. cbn [fsub]. destruct (Qlt_le_dec (1 - q) 0) as [Ng|Nn].
  - rewrite round_neg_case by exact Ng.
    assert (Pq : (0 < q)%Q) by lra.
    assert (L : (rnd_val (- (1 - q)) < pow2 1024)%Q).
    { eapply Qle_lt_trans; [|exact (round_fin_bound q u Pq Eu)].
      apply rnd_val_mono; lra. }
    rewrite round_pos_fin by exact L. eexists. reflexivity.
  - destruct (round_nonneg _ Nn) as [E|[v [E _]]]; [|exists v; exact E].
    assert (B1 : (1 - q <= pow2 (-1))%Q) by (change (pow2 (-1)) with (1 # 2); lra).
    destruct (round_le _ _ _ Nn B1 (round_pow2 (-1) ltac:(lia))) as [v [Ev _]]. congruence.
Qed.

(** [generate_relation_very_fast]: a header line, then the lines of
    distinct flat indices, as many as [int(n*n*density)] on the direct path
    and [n*n - int(n*n*(1.0-density))] on the complement path, the
    products being doubles. *)
Lemma very_fast_char n q :
  0 <= n -> n * n <= 2 ^ 1023 -> (0 <= q <= 1)%Q ->
  total (generate_relation_very_fast n (Fin q))
    (fun c => exists base idx,
       Z.of_nat (length base) = n /\ NoDup base /\ Forall good_token base
       /\ c = header base ++ unlines (map (idx_pline base n) idx)
       /\ NoDup idx /\ (forall x, In x idx -> 0 <= x < n * n)
       /\ Some (Z.of_nat (length idx))
          = (if qlt (1 # 2) q then complement_count n (Fin q) else direct_count n (Fin q))).
Proof.
  intros Hn Hb Hq. assert (Hnn : 0 <= n * n) by nia.
  destruct (round_half_bound (n * n) ltac:(lia)) as (N & EN & _ & HN).
  unfold generate_relation_very_fast.
  eapply total_bind; [apply total_base_very_fast; exact Hn|]. intros base (Hl & Hnd & Hg).
  rewrite fwrite_header, bind_ret_l by exact Hg.
  change (flt_lt (Fin (1 # 2)) (Fin q)) with (qlt (1 # 2) q).
  rewrite (int_to_float_fin _ _ EN), !bind_ret_l.
  destruct (qlt (1 # 2) q) eqn:Hq2.
  - apply qlt_lt in Hq2. destruct (fsub_one_half q (conj Hq2 (proj2 Hq))) as (w & Ew & Hw).
    destruct (HN w Hw) as (v & Ev & K0 & K1).
    assert (Ec : complement_count n (Fin q) = Some (n * n - py_int v))
      by (unfold complement_count, direct_count, scaled; rewrite Ew, EN; cbn [fmul]; rewrite Ev; reflexivity).
    rewrite Ec, Ew. cbn [fmul]. rewrite Ev, float_to_int_fin, bind_ret_l.
    destruct (Z.eqb_spec (py_int v) 0) as [E0|E0].
    + eapply total_bind; [apply total_all_pairs_lines; assumption|]. intros body ->.
      apply total_ret. exists base, (py_range (n * n)). conj_split.
      * apply py_range_NoDup.
      * intros x Hx. apply py_range_spec, Hx.
      * rewrite E0, py_range_length. f_equal. lia.
    + eapply total_bind; [apply total_complement_lines; auto|].
      intros body (idx & -> & Hi & Hr & Hlen). apply total_ret. exists base, idx. conj_split.
  - apply qlt_ge in Hq2. destruct (HN q (conj (proj1 Hq) Hq2)) as (v & Ev & K0 & K1).
    assert (Ed : direct_count n (Fin q) = Some (py_int v))
      by (unfold direct_count, scaled; rewrite EN; cbn [fmul]; rewrite Ev; reflexivity).
    rewrite Ed. cbn [fmul]. rewrite Ev, float_to_int_fin, bind_ret_l.
    eapply total_bind; [apply total_sample_lines; auto|].
    intros body (idx & -> & Hlen & rest & Hp). apply total_ret.
    destruct (sample_range_props _ _ _ Hp) as [Hi Hr]. exists base, idx. conj_split.
Qed.

(** [generate_relation_fast] for [n * n <= 2^53] (so that [float(n * n)] is
    exact): a header line, then the lines of distinct flat indices:
    [int(n*n*density)] sampled ones when the double [n*n*density] exceeds
    one million, otherwise those whose [random()] draw is below the
    density, in increasing order. *)
Lemma fast_char n q :
  0 <= n -> n * n <= 2 ^ 53 -> (0 <= q <= 1)%Q ->
  total (generate_relation_fast n (Fin q))
    (fun c => exists base idx,
       Z.of_nat (length base) = n /\ Forall good_token base
       /\ (n <= 94 + 1102335 -> NoDup base)
       /\ c = header base ++ unlines (map (idx_pline base n) idx)
       /\ NoDup idx /\ (forall x, In x idx -> 0 <= x < n * n)
       /\ (flt_lt (Fin (inject_Z 1000000)) (scaled n (Fin q)) = true ->
           Some (Z.of_nat (length idx)) = direct_count n (Fin q))
       /\ (flt_lt (Fin (inject_Z 1000000)) (scaled n (Fin q)) = false ->
           exists r : Z -> Q, (forall x, 0 <= r x < 1)%Q
                              /\ idx = filter (fun x => qlt (r x) q) (py_range (n * n)))).
Proof.
  intros Hn Hb Hq. assert (Hnn : 0 <= n * n) by nia.
  destruct (round_unit_bound (n * n) q ltac:(lia) Hq) as (v & Ev & K0 & K1).
  assert (Es : scaled n (Fin q) = Fin v) by (unfold scaled; rewrite round_Z by lia; exact Ev).
  assert (Ed : direct_count n (Fin q) = Some (py_int v)) by (unfold direct_count; rewrite Es; reflexivity).
  rewrite Es, Ed.
  unfold generate_relation_fast.
  eapply total_bind; [apply total_base_fast; exact Hn|]. intros base (Hl & Hg & Hnd).
  rewrite fwrite_header, bind_ret_l by exact Hg.
  rewrite int_to_float_small, bind_ret_l by lia. cbv zeta.
  change (fmul (Fin (inject_Z (n * n))) (Fin q)) with (round (inject_Z (n * n) * q)).
  rewrite Ev, float_to_int_fin, bind_ret_l.
  eapply total_bind; [apply total_random01|]. intros _ _.
  destruct (flt_lt (Fin (inject_Z 1000000)) (Fin v)) eqn:Hq2.
  - rewrite bind_ret_l.
    eapply total_bind; [apply total_sample_lines; auto|].
    intros body (idx & -> & Hlen & rest & Hp). apply total_ret.
    destruct (sample_range_props _ _ _ Hp) as [Hi Hr]. exists base, idx. conj_split.
    all: try (intros C; discriminate C); intros _; f_equal; lia.
  - eapply total_bind; [apply total_moderate_lines; auto|].
    intros body (idx & -> & r & Hr & Eidx). apply total_ret. exists base, idx. conj_split.
    all: try (intros C; discriminate C).
    all: try (intros _; exists r; split; [exact Hr | exact Eidx]).
    all: try (rewrite Eidx; apply NoDup_filter, py_range_NoDup).
    intros x Hx. rewrite Eidx in Hx. apply filter_In in Hx as [Hx _]. apply py_range_spec, Hx.
Qed.

(** ** Reading the files back *)

Lemma split_ws_go_token t rest cur :
  Forall (fun c => is_space c = false) t ->
  split_ws_go (t ++ rest) cur = split_ws_go rest (rev t ++ cur).
Proof.
  revert cur. induction t as [|c t IH]; intros cur Ht; [reflexivity|].
  inversion Ht as [|? ? Hc Ht']. subst. cbn [app split_ws_go]. rewrite Hc, IH by exact Ht'.
  cbn [rev]. rewrite <- app_assoc. reflexivity.
Qed.

Lemma good_no_space t : good_token t -> Forall (fun c => is_space c = false) t.
Proof. intros [_ Ht]. eapply Forall_impl; [|exact Ht]. intros c [H _]. exact H. Qed.

Lemma split_ws_join base : Forall good_token base -> split_ws (join [32] base) = base.
Proof.
  unfold split_ws. induction 1 as [|t ts Ht Hts IH]; [reflexivity|].
  destruct ts as [|t' ts'].
  - cbn [join]. rewrite <- (app_nil_r t) at 1. rewrite split_ws_go_token by (apply good_no_space; exact Ht).
    rewrite app_nil_r. destruct Ht as [Hne _]. cbn [split_ws_go].
    destruct (rev t) as [|x r] eqn:E.
    + exfalso. apply Hne. rewrite <- (rev_involutive t), E. reflexivity.
    + rewrite <- E, rev_involutive. reflexivity.
  - change (join [32] (t :: t' :: ts')) with (t ++ [32] ++ join [32] (t' :: ts')).
    rewrite split_ws_go_token by (apply good_no_space; exact Ht). rewrite app_nil_r.
    cbn [app split_ws_go is_space]. simpl (is_space 32).
    rewrite IH. destruct Ht as [Hne _].
    destruct (rev t) as [|x r] eqn:E.
    + exfalso. apply Hne. rewrite <- (rev_involutive t), E. reflexivity.
    + rewrite <- E, rev_involutive. reflexivity.
Qed.

Lemma split_ws_pair a b : good_token a -> good_token b -> split_ws (a ++ [32] ++ b) = [a; b].
Proof. intros Ha Hb. exact (split_ws_join [a; b] (Forall_cons _ Ha (Forall_cons _ Hb (Forall_nil _)))). Qed.

Lemma file_lines_go_line l rest cur :
  Forall (fun c => c <> 10) l ->
  file_lines_go (l ++ rest) cur = file_lines_go rest (rev l ++ cur).
Proof.
  revert cur. induction l as [|c l IH]; intros cur Hl; [reflexivity|].
  inversion Hl as [|? ? Hc Hl']. subst. cbn [app file_lines_go].
  destruct (Z.eqb_spec c 10) as [E|_]; [contradiction|].
  rewrite IH by exact Hl'. cbn [rev]. rewrite <- app_assoc. reflexivity.
Qed.

Lemma file_lines_unlines ls :
  Forall (Forall (fun c => c <> 10)) ls -> file_lines (unlines ls) = ls.
Proof.
  unfold file_lines, unlines. induction 1 as [|l ls Hl Hls IH]; [reflexivity|].
  cbn [map concat]. rewrite <- app_assoc, file_lines_go_line by exact Hl.
  unfold nl at 1. cbn [app file_lines_go Z.eqb Pos.eqb]. rewrite app_nil_r, rev_involutive, IH. reflexivity.
Qed.

Lemma good_no_nl t : good_token t -> Forall (fun c => c <> 10) t.
Proof.
  intros Ht. eapply Forall_impl; [|exact (good_no_space t Ht)].
  intros c Hc E. subst. discriminate Hc.
Qed.

Lemma join_no_nl base : Forall good_token base -> Forall (fun c => c <> 10) (join [32] base).
Proof.
  induction 1 as [|t ts Ht Hts IH]; [constructor|].
  destruct ts as [|t' ts']; [apply good_no_nl, Ht|].
  change (join [32] (t :: t' :: ts')) with (t ++ [32] ++ join [32] (t' :: ts')).
  apply Forall_app. split; [apply good_no_nl, Ht|]. apply Forall_app. split; [|exact IH].
  constructor; [discriminate | constructor].
Qed.

Lemma file_lines_layout base ls :
  Forall good_token base -> Forall (Forall (fun c => c <> 10)) ls ->
  file_lines (header base ++ unlines ls) = join [32] base :: ls.
Proof.
  intros Hb Hls. unfold header, file_lines. rewrite <- app_assoc.
  rewrite file_lines_go_line by (apply join_no_nl, Hb).
  unfold nl at 1. cbn [app file_lines_go Z.eqb Pos.eqb]. rewrite app_nil_r, rev_involutive.
  fold (file_lines (unlines ls)). rewrite file_lines_unlines by exact Hls. reflexivity.
Qed.

(** ** Every successful run writes a header and pair lines *)

Lemma post_base_fast n : post (build_base_fast n) (Forall good_token).
Proof.
  destruct (Z_le_gt_dec 0 n) as [Hn|Hn].
  - eapply post_weaken; [apply total_post, total_base_fast, Hn|]. intros a (_ & H & _). exact H.
  - unfold build_base_fast. rewrite symbol_pool_length.
    destruct (Z.ltb_spec (Z.of_nat 94) n); [lia|].
    rewrite sample_bad by lia. apply post_throw.
Qed.

Lemma post_base_very_fast n : post (build_base_very_fast n) (Forall good_token).
Proof.
  destruct (Z_le_gt_dec 0 n) as [Hn|Hn].
  - eapply post_weaken; [apply total_post, total_base_very_fast, Hn|]. intros a (_ & _ & H). exact H.
  - unfold build_base_very_fast. rewrite symbol_pool_length.
    destruct (Z.ltb_spec (Z.of_nat 94) n); [lia|].
    rewrite sample_bad by lia. apply post_throw.
Qed.

Lemma post_row_lines base d i js row : post (row_lines base d i js row) (Forall (pair_of base)).
Proof.
  revert row. induction js as [|j js IH]; intros [|r row]; cbn [row_lines];
    try (apply post_ret; constructor).
  destruct (flt_lt (Fin r) d); [|apply IH].
  eapply post_bind; [apply post_pair_line|]. intros l Hl.
  eapply post_bind; [apply IH|]. intros ls Hls. apply post_ret. constructor; assumption.
Qed.

Lemma post_moderate_rows base n d is : post (moderate_rows base n d is) (Forall (pair_of base)).
Proof.
  induction is as [|i is IH]; cbn [moderate_rows]; [apply post_ret; constructor|].
  eapply post_bind; [apply post_any|]. intros row _.
  eapply post_bind; [apply post_row_lines|]. intros here Hh.
  eapply post_bind; [apply IH|]. intros rest Hr. apply post_ret. apply Forall_app. auto.
Qed.

Lemma post_idx_lines base n idx : post (mapM (idx_line base n) idx) (Forall (pair_of base)).
Proof.
  eapply post_weaken; [apply (post_mapM _ (fun _ l => pair_of base l)); intros; apply post_idx_line|].
  intros ls H. eapply Forall2_Forall_r; [exact H|]. auto.
Qed.

Lemma post_written base m :
  post m (Forall (pair_of base)) ->
  post (lines <- m;; write_lines lines)
    (fun body => exists ls, body = unlines ls /\ Forall (pair_of base) ls).
Proof.
  intros Hm. eapply post_bind; [exact Hm|]. intros ls Hls.
  eapply post_weaken; [apply post_write_lines|]. intros body ->. eauto.
Qed.

Lemma post_gen_fast n d :
  post (generate_relation_fast n d)
    (fun c => exists base ls, Forall good_token base /\ c = header base ++ unlines ls
                              /\ Forall (pair_of base) ls).
Proof.
  unfold generate_relation_fast. eapply post_bind; [apply post_base_fast|]. intros base Hb.
  rewrite fwrite_header, bind_ret_l by exact Hb.
  eapply post_bind; [apply post_any|]. intros nn _. cbv zeta.
  eapply post_bind; [apply post_any|]. intros _ _.
  eapply post_bind; [apply post_any|]. intros _ _.
  eapply post_bind with (Q := fun body => exists ls, body = unlines ls /\ Forall (pair_of base) ls).
  - destruct (flt_lt _ _).
    + eapply post_bind; [apply post_any|]. intros tp _.
      eapply post_bind; [apply post_any|]. intros idx _. apply post_written, post_idx_lines.
    + apply post_written, post_moderate_rows.
  - intros body (ls & -> & Hls). apply post_ret. eauto.
Qed.

Lemma post_all_pairs_lines base n : post (all_pairs_lines base n) (Forall (pair_of base)).
Proof.
  eapply post_weaken.
  - apply (post_mapM _ (fun _ l => pair_of base l)). intros. apply post_pair_line.
  - intros ls H. eapply Forall2_Forall_r; [exact H|]. auto.
Qed.

Lemma post_gen_very_fast n d :
  post (generate_relation_very_fast n d)
    (fun c => exists base ls, Forall good_token base /\ c = header base ++ unlines ls
                              /\ Forall (pair_of base) ls).
Proof.
  unfold generate_relation_very_fast. eapply post_bind; [apply post_base_very_fast|]. intros base Hb.
  rewrite fwrite_header, bind_ret_l by exact Hb.
  eapply post_bind with (Q := fun body => exists ls, body = unlines ls /\ Forall (pair_of base) ls).
  - destruct (flt_lt _ _); cbv zeta;
      (eapply post_bind; [apply post_any|]; intros nn _;
       eapply post_bind; [apply post_any|]; intros k _); [destruct (k =? 0)|].
    + apply post_written, post_all_pairs_lines.
    + eapply post_bind; [apply post_any|]. intros idx _. apply post_written, post_idx_lines.
    + eapply post_bind; [apply post_any|]. intros idx _. apply post_written, post_idx_lines.
  - intros body (ls & -> & Hls). apply post_ret. eauto.
Qed.

Lemma layout_roundtrip base ls :
  Forall good_token base -> Forall (pair_of base) ls ->
  file_lines (header base ++ unlines ls) = join [32] base :: ls
  /\ split_ws (join [32] base) = base
  /\ Forall (fun l => exists a b, split_ws l = [a; b] /\ In a base /\ In b base) ls.
Proof.
  intros Hb Hls. rewrite Forall_forall in Hb.
  assert (Hl : Forall (fun l => exists a b, split_ws l = [a; b] /\ In a base /\ In b base) ls).
  { eapply Forall_impl; [|exact Hls]. intros l (a & b & Ha & Hb' & ->).
    exists a, b. rewrite split_ws_pair by auto. auto. }
  split; [|split; [apply split_ws_join, Forall_forall, Hb | exact Hl]].
  apply file_lines_layout; [apply Forall_forall, Hb|].
  eapply Forall_impl; [|exact Hls]. intros l (a & b & Ha & Hb' & ->).
  apply Forall_app. split; [apply good_no_nl; auto|].
  apply Forall_app. split; [constructor; [discriminate | constructor]|apply good_no_nl; auto].
Qed.

(** ** The set-command generator *)

Lemma post_fwrite s : post (fwrite s) (fun c => c = s).
Proof.
  unfold fwrite. destruct (existsb is_surrogate s); [apply post_throw | apply post_ret; reflexivity].
Qed.

Lemma fwrite_ok s : existsb is_surrogate s = false -> fwrite s = ret s.
Proof. unfold fwrite. intros ->. reflexivity. Qed.

Lemma join_ok sep ls :
  existsb is_surrogate sep = false -> Forall (fun l => existsb is_surrogate l = false) ls ->
  existsb is_surrogate (join sep ls) = false.
Proof.
  intros Hsep Hls. induction Hls as [|l ls Hl Hls IH]; [reflexivity|].
  destruct ls as [|l' ls']; [exact Hl|].
  change (join sep (l :: l' :: ls')) with (l ++ sep ++ join sep (l' :: ls')).
  rewrite !existsb_app, Hl, Hsep, IH. reflexivity.
Qed.

Lemma post_sample {A} (d : A) pop k :
  post (sample d pop k) (fun r => Z.of_nat (length r) = k /\ exists rest, Permutation pop (r ++ rest)).
Proof.
  destruct (Z_le_dec 0 k) as [H0|H0]; [destruct (Z_le_dec k (Z.of_nat (length pop))) as [H1|H1]|].
  - eapply post_weaken; [apply total_post, total_sample; lia|].
    intros r (Hl & Hp). split; [lia | exact Hp].
  - rewrite sample_bad by lia. apply post_throw.
  - rewrite sample_bad by lia. apply post_throw.
Qed.

Lemma total_adds names letters k :
  0 <= k <= Z.of_nat (length letters) ->
  total (mapM (fun name =>
                 elems <- sample [] letters k;;
                 ret (map (fun e => lit "add " ++ name ++ lit " " ++ e) elems)) names)
    (Forall2 (fun name ls => exists elems, ls = map (fun e => lit "add " ++ name ++ lit " " ++ e) elems
                 /\ Z.of_nat (length elems) = k /\ exists rest, Permutation letters (elems ++ rest))
       names).
Proof.
  intros Hk. apply total_mapM. intros name _.
  eapply total_bind; [apply total_sample, Hk|]. intros elems (Hl & Hp).
  apply total_ret. exists elems. split; [reflexivity|]. split; [lia | exact Hp].
Qed.

Lemma total_pows names (letters : list str) :
  letters <> [] ->
  total (mapM (fun name =>
                 to_remove <- choice [] letters;;
                 ret [lit "pow " ++ name; lit "rem " ++ name ++ lit " " ++ to_remove]) names)
    (Forall2 (fun name ls => exists r, ls = [lit "pow " ++ name; lit "rem " ++ name ++ lit " " ++ r]
                 /\ In r letters) names).
Proof.
  intros Hne. apply total_mapM. intros name _.
  eapply total_bind; [apply total_choice, Hne|]. intros r Hr. apply total_ret. eauto.
Qed.

Lemma letters3_NoDup : NoDup [lit "a"; lit "b"; lit "c"].
Proof. repeat constructor; simpl; intuition discriminate. Qed.

(** The lines of a run with two sets and the universe [{a, b, c}]. *)
Lemma set_lines_two e :
  0 <= e ->
  total (set_command_lines 2 e 3)
    (fun ls => exists ea eb ra rb dn,
       ls = [lit "new A"; lit "new B"]
            ++ map (fun x => lit "add A " ++ x) ea
            ++ map (fun x => lit "add B " ++ x) eb
            ++ [lit "see"; lit "see A"; lit "see B";
                lit "A + B"; lit "A & B"; lit "A - B"; lit "A < B"; lit "B < A"; lit "A = B";
                lit "B + A"; lit "B & A"; lit "B - A"; lit "B < A"; lit "A < B"; lit "B = A";
                lit "pow A"; lit "rem A " ++ ra; lit "pow B"; lit "rem B " ++ rb;
                lit "del " ++ dn; lit "see"]
       /\ Z.of_nat (length ea) = Z.min e 3 /\ Z.of_nat (length eb) = Z.min e 3
       /\ NoDup ea /\ NoDup eb
       /\ incl ea [lit "a"; lit "b"; lit "c"] /\ incl eb [lit "a"; lit "b"; lit "c"]
       /\ In ra [lit "a"; lit "b"; lit "c"] /\ In rb [lit "a"; lit "b"; lit "c"]
       /\ In dn [lit "A"; lit "B"]).
Proof.
  intros He. unfold set_command_lines. cbv zeta.
  change (map (fun c => [c]) (py_slice_upto ascii_lowercase 3)) with [lit "a"; lit "b"; lit "c"].
  change (mapM (fun i => py_chr (65 + i)) (py_range 2)) with (ret [lit "A"; lit "B"]).
  rewrite bind_ret_l.
  eapply total_bind; [apply total_adds; simpl; lia|]. intros adds Hadds.
  inversion Hadds as [|? ? ? ? HA Hr1]; subst. inversion Hr1 as [|? ? ? ? HB Hr2]; subst.
  inversion Hr2; subst.
  eapply total_bind; [apply total_pows; discriminate|]. intros pows Hpows.
  inversion Hpows as [|? ? ? ? PA Hq1]; subst. inversion Hq1 as [|? ? ? ? PB Hq2]; subst.
  inversion Hq2; subst.
  eapply total_bind; [apply total_sample; vm_compute; split; discriminate|]. intros dels (Hl & rest & Hp).
  apply total_ret.
  destruct HA as (ea & -> & Hea & ra' & HpA). destruct HB as (eb & -> & Heb & rb' & HpB).
  destruct PA as (ra & -> & Hra). destruct PB as (rb & -> & Hrb).
  destruct (sample_props _ _ _ HpA letters3_NoDup) as [NA IA].
  destruct (sample_props _ _ _ HpB letters3_NoDup) as [NB IB].
  destruct dels as [|dn [|? ?]]; simpl in Hl; try lia.
  exists ea, eb, ra, rb, dn. conj_split.
  - cbn [concat map app]. rewrite !app_nil_r, <- !app_assoc. reflexivity.
  - apply (Permutation_in _ (Permutation_sym Hp)). left. reflexivity.
Qed.

Lemma total_generate_set n e u (P : list str -> Prop) :
  total (set_command_lines n e u)
    (fun ls => P ls /\ Forall (fun l => existsb is_surrogate l = false) ls) ->
  total (generate_set_commands n e u) (fun c => exists ls, c = join nl ls ++ nl /\ P ls).
Proof.
  intros H. unfold generate_set_commands. eapply total_bind; [exact H|].
  intros ls (HP & Hls). rewrite fwrite_ok.
  - apply total_ret. eauto.
  - rewrite existsb_app, join_ok by (reflexivity || exact Hls). reflexivity.
Qed.

Lemma in_letters3_ok x s :
  In x [lit "a"; lit "b"; lit "c"] -> existsb is_surrogate s = false -> existsb is_surrogate (s ++ x) = false.
Proof.
  intros Hx Hs. rewrite existsb_app, Hs.
  simpl in Hx. destruct Hx as [<-|[<-|[<-|[]]]]; reflexivity.
Qed.

Lemma post_set_names n :
  post (mapM (fun i => py_chr (65 + i)) (py_range n))
    (fun names => names = map (fun i => [65 + i]) (py_range n)).
Proof.
  eapply post_weaken.
  - apply (post_mapM _ (fun i nm => nm = [65 + i])). intros i _. unfold py_chr.
    destruct (_ && _); [apply post_ret; reflexivity | apply post_throw].
  - intros names H. apply Forall2_map_r, H.
Qed.

Lemma is_del_prefix (p s : str) :
  length p = 4%nat -> str_eqb p (lit "del ") = false -> is_del (p ++ s) = false.
Proof.
  intros Hp Hne. unfold is_del. rewrite firstn_app, Hp, Nat.sub_diag, firstn_all2 by lia.
  rewrite app_nil_r. exact Hne.
Qed.

Lemma is_del_name_op c (s : str) : is_del (c :: 32 :: s) = false.
Proof.
  unfold is_del. destruct s as [|x [|y s]]; simpl; apply andb_false_r.
Qed.

Lemma is_del_pair_ops a b l :
  (exists c, a = [c]) -> (exists c, b = [c]) -> In l (pair_ops a b) -> is_del l = false.
Proof.
  intros [c ->] [c' ->] Hl.
  simpl in Hl. repeat destruct Hl as [<-|Hl]; try contradiction; apply is_del_name_op.
Qed.

Lemma is_del_del nm : is_del (lit "del " ++ nm) = true.
Proof. reflexivity. Qed.

Lemma set_names_NoDup n : NoDup (map (fun i => [65 + i]) (py_range n)).
Proof.
  apply NoDup_map_inj_in; [|apply py_range_NoDup]. intros x y _ _ E. cbv beta in E.
  assert (E' : hd 0 [65 + x] = hd 0 [65 + y]) by (rewrite E; reflexivity). cbn [hd] in E'. lia.
Qed.

(** The [del] lines of a successful run: [max(n_sets // 2, 1)] distinct
    created sets. *)
Lemma post_set_dels n e u :
  post (set_command_lines n e u)
    (fun ls => exists dels,
       filter is_del ls = map (fun nm => lit "del " ++ nm) dels
       /\ Z.of_nat (length dels) = Z.max (n / 2) 1
       /\ NoDup dels /\ Forall (fun nm => In (lit "new " ++ nm) ls) dels).
Proof.
  unfold set_command_lines. cbv zeta.
  eapply post_bind; [apply post_set_names|]. intros names ->.
  set (names := map (fun i => [65 + i]) (py_range n)).
  assert (Hsingle : forall nm, In nm names -> exists c, nm = [c]).
  { intros nm Hnm. apply in_map_iff in Hnm as (i & <- & _). eauto. }
  eapply post_bind with (Q := Forall (Forall (fun l => is_del l = false))).
  { eapply post_weaken; [apply (post_mapM _ (fun _ ls => Forall (fun l => is_del l = false) ls))|].
    - intros name _. eapply post_bind; [apply post_any|]. intros elems _. apply post_ret.
      apply Forall_forall. intros l Hl. apply in_map_iff in Hl as (x & <- & _).
      apply is_del_prefix; reflexivity.
    - intros adds H. eapply Forall2_Forall_r; [exact H|]. auto. }
  intros adds Hadds.
  eapply post_bind with (Q := Forall (Forall (fun l => is_del l = false))).
  { eapply post_weaken; [apply (post_mapM _ (fun _ ls => Forall (fun l => is_del l = false) ls))|].
    - intros name _. eapply post_bind; [apply post_any|]. intros r _. apply post_ret.
      constructor; [apply is_del_prefix; reflexivity|].
      constructor; [|constructor]. apply is_del_prefix; reflexivity.
    - intros pows H. eapply Forall2_Forall_r; [exact H|]. auto. }
  intros pows Hpows.
  eapply post_bind; [apply post_sample|]. intros dels (Hk & rest & Hp). apply post_ret.
  exists dels.
  destruct (sample_props _ _ _ Hp (set_names_NoDup n)) as [Hnd Hincl].
  assert (Hlen : length names = Z.to_nat n) by (unfold names; rewrite length_map; apply py_range_length).
  split; [|split; [|split]].
  - rewrite !filter_app.
    rewrite (filter_all_false _ (map _ names)).
    2:{ intros l Hl. apply in_map_iff in Hl as (x & <- & _). apply is_del_prefix; reflexivity. }
    rewrite (filter_all_false _ (concat adds)).
    2:{ intros l Hl. apply in_concat in Hl as (ls & Hls & Hl).
        rewrite Forall_forall in Hadds. specialize (Hadds ls Hls). rewrite Forall_forall in Hadds. auto. }
    rewrite (filter_all_false _ (_ :: map _ names)).
    2:{ intros l [<-|Hl]; [reflexivity|]. apply in_map_iff in Hl as (x & <- & _).
        apply is_del_prefix; reflexivity. }
    rewrite (filter_all_false _ (concat (map _ names))).
    2:{ intros l Hl. apply in_concat in Hl as (ls & Hls & Hl). apply in_map_iff in Hls as (a & <- & Ha).
        apply in_concat in Hl as (ls' & Hls' & Hl). apply in_map_iff in Hls' as (b & <- & Hb).
        destruct (str_eqb a b); [destruct Hl|]. apply (is_del_pair_ops a b); auto. }
    rewrite (filter_all_false _ (concat pows)).
    2:{ intros l Hl. apply in_concat in Hl as (ls & Hls & Hl).
        rewrite Forall_forall in Hpows. specialize (Hpows ls Hls). rewrite Forall_forall in Hpows. auto. }
    rewrite filter_all_true.
    2:{ intros l Hl. apply in_map_iff in Hl as (x & <- & _). apply is_del_del. }
    simpl. rewrite app_nil_r. reflexivity.
  - rewrite Hk, Hlen. pose proof (Permutation_length Hp) as HL. rewrite length_app, Hlen in HL.
    destruct (Z_le_gt_dec n 0) as [Hn|Hn].
    + assert (Hz : Z.to_nat n = 0%nat) by lia. rewrite Hz in HL. rewrite Hlen, Hz in Hk. simpl in Hk.
      destruct dels; simpl in *; [discriminate | lia].
    + rewrite Z2Nat.id by lia.
      destruct (Z.eqb_spec (n / 2) 0) as [E|E]; [rewrite E; reflexivity|].
      pose proof (Z.div_pos n 2 ltac:(lia) ltac:(lia)). lia.
  - exact Hnd.
  - apply Forall_forall. intros nm Hnm. apply in_or_app. left.
    apply in_map. apply Hincl, Hnm.
Qed.

(** ** Runs depend on the random stream only through its values *)

Lemma det_ret {A} (a : A) : det (ret a).
Proof. intros rs1 rs2 H p. reflexivity. Qed.

Lemma det_throw {A} e : det (@throw A e).
Proof. intros rs1 rs2 H p. reflexivity. Qed.

Lemma det_draw : det draw.
Proof. intros rs1 rs2 H p. unfold draw. rewrite H. reflexivity. Qed.

Lemma det_bind {A B} (m : M A) (k : A -> M B) :
  det m -> (forall a, det (k a)) -> det (bind m k).
Proof.
  intros Hm Hk rs1 rs2 H p. unfold bind. rewrite (Hm rs1 rs2 H p).
  destruct (m rs2 p); [apply Hk, H | reflexivity].
Qed.

Create HintDb det_db.
#[local] Hint Resolve det_ret det_throw det_draw : det_db.

(** Take a computation apart: binds, branches and matches. *)
Ltac det_tac :=
  repeat match goal with
  | |- det (bind _ _) => apply det_bind; [|intro]
  | |- det (ret _) => apply det_ret
  | |- det (throw _) => apply det_throw
  | |- det (if ?b then _ else _) => destruct b
  | |- det (match ?x with _ => _ end) => destruct x
  | |- det (let _ := _ in _) => cbv zeta
  | |- det _ => solve [eauto with det_db]
  end.

Lemma det_random01 : det random01.
Proof. unfold random01. det_tac. Qed.

Lemma det_randbelow m : det (randbelow m).
Proof. unfold randbelow. det_tac. Qed.
#[local] Hint Resolve det_random01 det_randbelow : det_db.

Lemma det_mapM {A B} (f : A -> M B) l : (forall x, det (f x)) -> det (mapM f l).
Proof. intros Hf. induction l; simpl; det_tac. Qed.

Lemma det_replicateM {A} k (m : M A) : det m -> det (replicateM k m).
Proof. intros Hm. induction k; simpl; det_tac. Qed.
#[local] Hint Resolve det_mapM det_replicateM : det_db.

Lemma det_sample_loop {A} (d : A) s m i pool : det (sample_loop d s m i pool).
Proof. revert i pool. induction s; intros; simpl; det_tac. Qed.

Lemma det_sample {A} (d : A) pop k : det (sample d pop k).
Proof. unfold sample. det_tac. apply det_sample_loop. Qed.

Lemma det_choice {A} (d : A) s : det (choice d s).
Proof. unfold choice. det_tac. Qed.

Lemma det_fwrite s : det (fwrite s).
Proof. unfold fwrite. det_tac. Qed.
#[local] Hint Resolve det_sample det_choice det_fwrite : det_db.

Lemma det_write_lines ls : det (write_lines ls).
Proof. unfold write_lines. det_tac. Qed.

Lemma det_py_index {A} (l : list A) i : det (py_index l i).
Proof. unfold py_index. det_tac. Qed.
#[local] Hint Resolve det_write_lines det_py_index : det_db.

Lemma det_extra_loop fuel need cp acc cnt : det (extra_loop fuel need cp acc cnt).
Proof. revert cp acc cnt. induction fuel; intros; simpl; det_tac. Qed.

Lemma det_pair_line base i j : det (pair_line base i j).
Proof. unfold pair_line. det_tac. Qed.
#[local] Hint Resolve det_extra_loop det_pair_line : det_db.

Lemma det_idx_line base n idx : det (idx_line base n idx).
Proof. unfold idx_line, py_divmod. det_tac. Qed.

Lemma det_row_lines base d i js row : det (row_lines base d i js row).
Proof. revert row. induction js; intros [|r row]; simpl; det_tac. Qed.
#[local] Hint Resolve det_idx_line det_row_lines : det_db.

Lemma det_moderate_rows base n d is : det (moderate_rows base n d is).
Proof. induction is; simpl; det_tac. Qed.
#[local] Hint Resolve det_moderate_rows : det_db.

Lemma det_int_to_float k : det (int_to_float k).
Proof. unfold int_to_float. det_tac. Qed.

Lemma det_float_to_int x : det (float_to_int x).
Proof. unfold float_to_int. det_tac. Qed.
#[local] Hint Resolve det_int_to_float det_float_to_int : det_db.

Lemma det_build_base_fast n : det (build_base_fast n).
Proof. unfold build_base_fast. det_tac. Qed.

Lemma det_build_base_very_fast n : det (build_base_very_fast n).
Proof. unfold build_base_very_fast. det_tac. Qed.

Lemma det_all_pairs_lines base n : det (all_pairs_lines base n).
Proof. unfold all_pairs_lines. det_tac. Qed.
#[local] Hint Resolve det_build_base_fast det_build_base_very_fast det_all_pairs_lines : det_db.

Lemma det_gen_fast n d : det (generate_relation_fast n d).
Proof. unfold generate_relation_fast. det_tac. Qed.

Lemma det_gen_very_fast n d : det (generate_relation_very_fast n d).
Proof. unfold generate_relation_very_fast. det_tac. Qed.

(** ** [int()] of the doubles [n*n*d] and [n*n*(1.0-d)] *)

Lemma Qfloor_unique x z : (inject_Z z <= x)%Q -> (x < inject_Z (z + 1))%Q -> Qfloor x = z.
Proof.
  intros H1 H2. pose proof (Qfloor_le x) as F1. pose proof (Qlt_floor x) as F2.
  assert (A : (inject_Z z < inject_Z (Qfloor x + 1))%Q) by (eapply Qle_lt_trans; eassumption).
  assert (B : (inject_Z (Qfloor x) < inject_Z (z + 1))%Q) by (eapply Qle_lt_trans; eassumption).
  rewrite <- Zlt_Qlt in A, B. lia.
Qed.

Lemma py_int_floor x : (0 <= x)%Q -> py_int x = Qfloor x.
Proof.
  destruct x as [a b]. unfold Qle, py_int, Qfloor. simpl. intros H.
  apply Z.quot_div_nonneg; lia.
Qed.

Lemma py_int_red x : (0 <= x)%Q -> py_int (Qred x) = Qfloor x.
Proof.
  intros H. rewrite py_int_floor by (rewrite Qred_correct; exact H).
  apply Qfloor_comp, Qred_correct.
Qed.


Lemma one_minus_bounds d : (0 <= d <= 1)%Q -> (0 <= 1 - d <= 1)%Q.
Proof. intros [H0 H1]. split; lra. Qed.

(** [n*n - int(n*n*(1-d))] is the ceiling of [n*n*d] (exact products). *)
Lemma complement_ceiling m d :
  (0 <= d <= 1)%Q -> 0 <= m ->
  m - py_int (inject_Z m * (1 - d)) = Qceiling (inject_Z m * d).
Proof.
  intros Hd Hm. destruct (scaled_bounds m (1 - d) Hm (one_minus_bounds d Hd)) as [B0 _].
  rewrite py_int_floor by exact B0.
  set (y := (inject_Z m * d)%Q).
  assert (E : (inject_Z m * (1 - d) == inject_Z m - y)%Q) by (unfold y; ring).
  pose proof (Qle_ceiling y) as C1. pose proof (Qceiling_lt y) as C2.
  rewrite (Qfloor_unique _ (m - Qceiling y)); [lia| |].
  - rewrite E. unfold Z.sub. rewrite inject_Z_plus, inject_Z_opp. lra.
  - rewrite E. unfold Z.sub in *. rewrite !inject_Z_plus, inject_Z_opp.
    rewrite inject_Z_plus, inject_Z_opp in C2. lra.
Qed.

(** Floor and ceiling agree exactly on whole numbers. *)
Lemma ceiling_eq_floor y : Qceiling y = Qfloor y <-> (inject_Z (Qfloor y) == y)%Q.
Proof.
  pose proof (Qfloor_le y) as F1. pose proof (Qlt_floor y) as F2.
  pose proof (Qle_ceiling y) as C1. pose proof (Qceiling_lt y) as C2.
  split.
  - intros E. rewrite E in C1. lra.
  - intros E. assert (A : (inject_Z (Qceiling y - 1) < inject_Z (Qfloor y))%Q) by lra.
    assert (B : (inject_Z (Qfloor y) <= inject_Z (Qceiling y))%Q) by lra.
    rewrite <- Zlt_Qlt in A. rewrite <- Zle_Qle in B. lia.
Qed.

Lemma ceiling_floor_step y : Qceiling y = Qfloor y \/ Qceiling y = Qfloor y + 1.
Proof.
  pose proof (Qfloor_le y) as F1. pose proof (Qlt_floor y) as F2.
  pose proof (Qle_ceiling y) as C1. pose proof (Qceiling_lt y) as C2.
  assert (A : (inject_Z (Qceiling y - 1) < inject_Z (Qfloor y + 1))%Q) by lra.
  assert (B : (inject_Z (Qfloor y) <= inject_Z (Qceiling y))%Q) by lra.
  rewrite <- Zlt_Qlt in A. rewrite <- Zle_Qle in B. lia.
Qed.

(** For a density [k / 2^j] with [n*n*2^j <= 2^53], the doubles
    [float(n*n) * d], [1.0 - d] and [float(n*n) * (1.0 - d)] are exact, so
    the direct count is the floor of [n*n*d] and the complement count its
    ceiling. *)
Lemma dyadic_counts n q k j :
  1 <= n -> (0 <= q <= 1)%Q -> 0 <= j -> (inject_Z k == q * inject_Z (2 ^ j))%Q ->
  n * n * 2 ^ j <= 2 ^ 53 ->
  direct_count n (Fin q) = Some (Qfloor (inject_Z (n * n) * q))
  /\ complement_count n (Fin q) = Some (Qceiling (inject_Z (n * n) * q)).
Proof.
  intros Hn Hq Hj Hk Hb.
  assert (P : 0 < 2 ^ j) by (apply Z.pow_pos_nonneg; lia).
  assert (Hnn : 1 <= n * n) by nia.
  assert (N53 : n * n <= 2 ^ 53) by nia.
  assert (J53 : 2 ^ j <= 2 ^ 53) by nia.
  assert (Jle : j <= 53) by (apply (Z.pow_le_mono_r_iff 2 j 53); lia).
  assert (PQ : (0 <= inject_Z (2 ^ j))%Q) by (change 0%Q with (inject_Z 0); rewrite <- Zle_Qle; lia).
  assert (K0 : 0 <= k <= 2 ^ j).
  { split; rewrite Zle_Qle, Hk.
    - apply Qmult_le_0_compat; [exact (proj1 Hq) | exact PQ].
    - apply Qle_trans with (1 * inject_Z (2 ^ j))%Q; [|lra].
      apply Qmult_le_compat_r; [exact (proj2 Hq) | exact PQ]. }
  assert (Pj : (pow2 (- j) * inject_Z (2 ^ j) == 1)%Q).
  { rewrite <- pow2_Z by lia. rewrite <- pow2_add. replace (- j + j) with 0 by ring. reflexivity. }
  assert (Eq : (q == inject_Z k * pow2 (- j))%Q).
  { rewrite Hk, <- Qmult_assoc, (Qmult_comm (inject_Z (2 ^ j))), Pj. ring. }
  assert (A : (inject_Z (2 ^ j - k) == inject_Z (2 ^ j) - inject_Z k)%Q)
    by (unfold Z.sub; rewrite inject_Z_plus, inject_Z_opp; ring).
  assert (E1 : (inject_Z (n * n) * q == inject_Z (n * n * k) * pow2 (- j))%Q)
    by (rewrite Eq, !inject_Z_mult; ring).
  assert (E2 : (1 - q == inject_Z (2 ^ j - k) * pow2 (- j))%Q).
  { rewrite A, Eq.
    setoid_replace ((inject_Z (2 ^ j) - inject_Z k) * pow2 (- j))%Q
      with (pow2 (- j) * inject_Z (2 ^ j) - inject_Z k * pow2 (- j))%Q by ring.
    now rewrite Pj. }
  assert (E3 : (inject_Z (n * n) * (1 - q) == inject_Z (n * n * (2 ^ j - k)) * pow2 (- j))%Q)
    by (rewrite E2, !inject_Z_mult; ring).
  assert (Lt : forall x, (x <= inject_Z (n * n))%Q -> (x < pow2 1024)%Q).
  { intros x Hx. eapply Qle_lt_trans; [exact Hx|]. rewrite pow2_Z by lia. rewrite <- Zlt_Qlt.
    assert (2 ^ 53 < 2 ^ 1024) by (apply Z.pow_lt_mono_r; lia). lia. }
  assert (One : (1 <= inject_Z (n * n))%Q) by (change 1%Q with (inject_Z 1); rewrite <- Zle_Qle; lia).
  destruct (scaled_bounds (n * n) q ltac:(lia) Hq) as [B0 B1].
  destruct (scaled_bounds (n * n) (1 - q) ltac:(lia) (one_minus_bounds q Hq)) as [C0 C1].
  assert (R1 : round (inject_Z (n * n) * q) = Fin (Qred (inject_Z (n * n) * q))).
  { apply (round_exact _ (n * n * k) (- j)); [nia | lia | exact E1 | apply Lt, B1]. }
  assert (R2 : round (1 - q) = Fin (Qred (1 - q))).
  { apply (round_exact _ (2 ^ j - k) (- j)); [lia | lia | exact E2 | apply Lt; lra]. }
  assert (R3 : round (inject_Z (n * n) * (1 - q)) = Fin (Qred (inject_Z (n * n) * (1 - q)))).
  { apply (round_exact _ (n * n * (2 ^ j - k)) (- j)); [nia | lia | exact E3 | apply Lt, C1]. }
  split.
  - unfold direct_count, scaled. rewrite round_Z by lia. cbn [fmul]. rewrite R1. cbv beta iota.
    f_equal. apply py_int_red, B0.
  - unfold complement_count, direct_count, scaled. cbn [fsub]. rewrite R2, round_Z by lia. cbn [fmul].
    rewrite (round_compat _ (inject_Z (n * n) * (1 - q))) by (rewrite Qred_correct; reflexivity).
    rewrite R3. cbv beta iota delta [option_map]. f_equal.
    rewrite py_int_red by exact C0. rewrite <- py_int_floor by exact C0.
    apply complement_ceiling; [exact Hq | lia].
Qed.

(** ** Helpers for the boundary densities *)

Lemma qlt_true r d : (r < d)%Q -> qlt r d = true.
Proof.
  intros H. unfold qlt. apply negb_true_iff, not_true_iff_false. intros H'.
  apply Qle_bool_iff in H'. lra.
Qed.

Lemma qlt_false r d : (d <= r)%Q -> qlt r d = false.
Proof. intros H. unfold qlt. apply negb_false_iff, Qle_bool_iff. exact H. Qed.





Lemma scaled_fin_inv n d y :
  scaled n d = Fin y -> exists N, round (inject_Z (n * n)) = Fin N /\ fmul (Fin N) d = Fin y.
Proof.
  unfold scaled. intros H.
  destruct (round (inject_Z (n * n))) as [N| | |]; [exists N; split; [reflexivity | exact H]| | |];
    destruct d as [a| | |]; cbn [fmul] in H; try discriminate H;
    destruct (Qeq_bool a 0); try discriminate H; destruct (qlt 0 a); discriminate H.
Qed.





(** ** Runs that raise *)

Lemma fails_throw {A} e : fails (@throw A e) e.
Proof. intros rs p. reflexivity. Qed.

Lemma fails_bind_l {A B} (m : M A) (k : A -> M B) e : fails m e -> fails (bind m k) e.
Proof. intros H rs p. unfold bind. rewrite H. reflexivity. Qed.

Lemma fails_bind_r {A B} (m : M A) (k : A -> M B) (P : A -> Prop) e :
  total m P -> (forall a, P a -> fails (k a) e) -> fails (bind m k) e.
Proof.
  intros Hm Hk rs p. unfold bind. destruct (Hm rs p) as (a & p' & -> & Ha). apply Hk, Ha.
Qed.






(** The moderate-density path of [generate_relation_fast], taken when the
    double [n * n * density] is at most one million. *)
Lemma total_fast_moderate n d y :
  0 <= n -> scaled n d = Fin y -> (y <= inject_Z 1000000)%Q ->
  total (generate_relation_fast n d)
    (fun c => exists base r, Z.of_nat (length base) = n /\ (forall x, 0 <= r x < 1)%Q
       /\ c = header base ++ unlines (map (idx_pline base n)
                                       (filter (fun x => flt_lt (Fin (r x)) d) (py_range (n * n))))).
Proof.
  intros Hn Hs Hx. destruct (scaled_fin_inv _ _ _ Hs) as (N & EN & EF).
  unfold generate_relation_fast.
  eapply total_bind; [apply total_base_fast; exact Hn|]. intros base (Hl & Hg & _).
  rewrite fwrite_header, bind_ret_l by exact Hg.
  rewrite (int_to_float_fin _ _ EN), bind_ret_l. cbv beta zeta.
  rewrite EF, float_to_int_fin, bind_ret_l.
  eapply total_bind; [apply total_random01|]. intros _ _.
  change (flt_lt (Fin (inject_Z 1000000)) (Fin y)) with (qlt (inject_Z 1000000) y).
  rewrite qlt_false by exact Hx. cbv beta iota.
  eapply total_bind; [apply total_moderate_lines; assumption|].
  intros body (idx & -> & r & Hr & ->). apply total_ret. exists base, r. auto.
Qed.

(** ** Helpers for the symbol base *)

Lemma str_eqb_eq a b : str_eqb a b = true -> a = b.
Proof.
  revert b. induction a as [|x a IH]; intros [|y b]; simpl; try discriminate; [reflexivity|].
  intros H. apply andb_true_iff in H as [H1 H2]. apply Z.eqb_eq in H1. subst. f_equal. auto.
Qed.





(** * The claims *)




(** C2 (amended): the two counts are not equal in general.  For a density
    [k / 2^j] in [0, 1] with [n*n*2^j <= 2^53] the doubles involved are
    exact: the direct count int(n*n*density) is the floor of
    n*n*density, and the complement count n*n - int(n*n*(1.0-density)) is
    its ceiling.  They agree exactly when n*n*density is a whole number and
    otherwise differ by one, and [generate_relation_very_fast] writes the
    complement count of pair lines when density > 1/2 and the direct count
    otherwise. *)
Theorem direct_complement_counts n q k j :
  1 <= n -> (0 <= q <= 1)%Q -> 0 <= j -> (inject_Z k == q * inject_Z (2 ^ j))%Q ->
  n * n * 2 ^ j <= 2 ^ 53 ->
  direct_count n (Fin q) = Some (Qfloor (inject_Z (n * n) * q))
  /\ complement_count n (Fin q) = Some (Qceiling (inject_Z (n * n) * q))
  /\ (Qceiling (inject_Z (n * n) * q) = Qfloor (inject_Z (n * n) * q)
      <-> (inject_Z (Qfloor (inject_Z (n * n) * q)) == inject_Z (n * n) * q)%Q)
  /\ (Qceiling (inject_Z (n * n) * q) = Qfloor (inject_Z (n * n) * q)
      \/ Qceiling (inject_Z (n * n) * q) = Qfloor (inject_Z (n * n) * q) + 1)
  /\ total (generate_relation_very_fast n (Fin q))
       (fun c => exists base idx,
          c = header base ++ unlines (map (idx_pline base n) idx)
          /\ Some (Z.of_nat (length idx))
             = (if qlt (1 # 2) q then complement_count n (Fin q) else direct_count n (Fin q))).
Proof.
  intros Hn Hq Hj Hk Hb.
  destruct (dyadic_counts n q k j Hn Hq Hj Hk Hb) as [D1 D2].
  assert (Hb' : n * n <= 2 ^ 1023).
  { assert (0 < 2 ^ j) by (apply Z.pow_pos_nonneg; lia).
    assert (2 ^ 53 < 2 ^ 1023) by (apply Z.pow_lt_mono_r; lia). nia. }
  split; [exact D1|]. split; [exact D2|].
  split; [apply ceiling_eq_floor|]. split; [apply ceiling_floor_step|].
  eapply total_weaken; [apply very_fast_char; [lia | exact Hb' | exact Hq]|].
  intros c (base & idx & _ & _ & _ & H4 & _ & _ & H7). exists base, idx. split; [exact H4 | exact H7].
Qed.

Lemma direct_complement_counts_witness :
  1 <= 2 /\ (0 <= 5 # 8 <= 1)%Q /\ 0 <= 3 /\ (inject_Z 5 == (5 # 8) * inject_Z (2 ^ 3))%Q
  /\ 2 * 2 * 2 ^ 3 <= 2 ^ 53 /\
  direct_count 2 (Fin (5 # 8)) = Some (Qfloor (inject_Z (2 * 2) * (5 # 8)))
  /\ complement_count 2 (Fin (5 # 8)) = Some (Qceiling (inject_Z (2 * 2) * (5 # 8)))
  /\ (Qceiling (inject_Z (2 * 2) * (5 # 8)) = Qfloor (inject_Z (2 * 2) * (5 # 8))
      <-> (inject_Z (Qfloor (inject_Z (2 * 2) * (5 # 8))) == inject_Z (2 * 2) * (5 # 8))%Q)
  /\ (Qceiling (inject_Z (2 * 2) * (5 # 8)) = Qfloor (inject_Z (2 * 2) * (5 # 8))
      \/ Qceiling (inject_Z (2 * 2) * (5 # 8)) = Qfloor (inject_Z (2 * 2) * (5 # 8)) + 1)
  /\ total (generate_relation_very_fast 2 (Fin (5 # 8)))
       (fun c => exists base idx,
          c = header base ++ unlines (map (idx_pline base 2) idx)
          /\ Some (Z.of_nat (length idx))
             = (if qlt (1 # 2) (5 # 8) then complement_count 2 (Fin (5 # 8))
                else direct_count 2 (Fin (5 # 8)))).
Proof.
  assert (H1 : 1 <= 2) by lia. assert (H2 : (0 <= 5 # 8 <= 1)%Q) by (split; vm_compute; discriminate).
  assert (H3 : 0 <= 3) by lia. assert (H4 : (inject_Z 5 == (5 # 8) * inject_Z (2 ^ 3))%Q) by reflexivity.
  assert (H5 : 2 * 2 * 2 ^ 3 <= 2 ^ 53) by (vm_compute; discriminate).
  split; [exact H1|]. split; [exact H2|]. split; [exact H3|]. split; [exact H4|]. split; [exact H5|].
  apply (direct_complement_counts 2 (5 # 8) 5 3 H1 H2 H3 H4 H5).
Defined.

(** C2 refuted: with n = 2 and density 0.625 the direct count int(2.5) is
    2 while the complement count 4 - int(1.5) is 3, and the run (complement
    path) writes 3 pair lines; with n = 10 and density 0.9 (the double
    8106479329266893 / 2^53) the direct count is 90 and the complement
    count 91.  The spec's rounding version fails too: with n = 1 and
    density 1/2, round(0.5) = 0 but 1 - round(0.5) = 1. *)
Lemma counts_differ_example :
  direct_count 2 (Fin (5 # 8)) = Some 2
  /\ complement_count 2 (Fin (5 # 8)) = Some 3
  /\ match generate_relation_very_fast 2 (Fin (5 # 8)) rs0 0%nat with
     | Ok c _ => Z.of_nat (length (file_lines c)) - 1
     | Err _ => -1
     end = 3
  /\ direct_count 10 (Fin (8106479329266893 # 9007199254740992)) = Some 90
  /\ complement_count 10 (Fin (8106479329266893 # 9007199254740992)) = Some 91
  /\ round_half_even (inject_Z (1 * 1) * (1 # 2)) = 0
  /\ 1 * 1 - round_half_even (inject_Z (1 * 1) * (1 - (1 # 2))) = 1.
Proof.
  refine (conj _ (conj _ (conj _ (conj _ (conj _ (conj _ _)))))); vm_compute; reflexivity.
Qed.







(** ** Helpers for the file format and the argument checks *)

Lemma roundtrip_layout c :
  (exists base ls, Forall good_token base /\ c = header base ++ unlines ls
                   /\ Forall (pair_of base) ls) ->
  exists h ls, file_lines c = h :: ls
    /\ Forall (fun l => exists a b, split_ws l = [a; b] /\ In a (split_ws h) /\ In b (split_ws h)) ls.
Proof.
  intros (base & ls & Hb & -> & Hls). destruct (layout_roundtrip base ls Hb Hls) as (E1 & E2 & E3).
  exists (join [32] base), ls. rewrite E1, E2. auto.
Qed.

Lemma gen_fast_zero q : total (generate_relation_fast 0 (Fin q)) (fun c => c = nl).
Proof. intros rs p. exists nl, (S p). split; reflexivity. Qed.

(** With [n = 0] the complement path computes [0.0 * (1.0 - density)],
    which is [0.0] for every finite double [density]. *)
Lemma gen_very_fast_zero q : round q = Fin q -> total (generate_relation_very_fast 0 (Fin q)) (fun c => c = nl).
Proof.
  intros Eq rs p. unfold generate_relation_very_fast. cbn [flt_lt].
  destruct (qlt (1 # 2) q) eqn:Hq.
  - destruct (fsub_one_fin q q (qlt_lt _ _ Hq) Eq) as [w Ew]. cbv zeta. rewrite Ew.
    exists nl, p. split; reflexivity.
  - exists nl, p. split; reflexivity.
Qed.

Lemma base_fast_negative n : n < 0 -> build_base_fast n = throw ValueError.
Proof.
  intros Hn. unfold build_base_fast. cbv zeta. rewrite symbol_pool_length.
  replace (Z.of_nat 94 <? n) with false by (symmetry; apply Z.ltb_ge; lia).
  apply sample_bad. lia.
Qed.

Lemma base_very_fast_negative n : n < 0 -> build_base_very_fast n = throw ValueError.
Proof.
  intros Hn. unfold build_base_very_fast. cbv zeta. rewrite symbol_pool_length.
  replace (Z.of_nat 94 <? n) with false by (symmetry; apply Z.ltb_ge; lia).
  apply sample_bad. lia.
Qed.

(** The file written for two sets over the universe [{a, b, c}]. *)
Lemma two_set_file e :
  0 <= e ->
  total (generate_set_commands 2 e 3)
    (fun c => exists ls, c = join nl ls ++ nl /\ exists ea eb ra rb dn,
       ls = [lit "new A"; lit "new B"]
            ++ map (fun x => lit "add A " ++ x) ea
            ++ map (fun x => lit "add B " ++ x) eb
            ++ [lit "see"; lit "see A"; lit "see B";
                lit "A + B"; lit "A & B"; lit "A - B"; lit "A < B"; lit "B < A"; lit "A = B";
                lit "B + A"; lit "B & A"; lit "B - A"; lit "B < A"; lit "A < B"; lit "B = A";
                lit "pow A"; lit "rem A " ++ ra; lit "pow B"; lit "rem B " ++ rb;
                lit "del " ++ dn; lit "see"]
       /\ Z.of_nat (length ea) = Z.min e 3 /\ Z.of_nat (length eb) = Z.min e 3
       /\ NoDup ea /\ NoDup eb
       /\ incl ea [lit "a"; lit "b"; lit "c"] /\ incl eb [lit "a"; lit "b"; lit "c"]
       /\ In ra [lit "a"; lit "b"; lit "c"] /\ In rb [lit "a"; lit "b"; lit "c"]
       /\ In dn [lit "A"; lit "B"]).
Proof.
  intros He. apply total_generate_set. eapply total_weaken; [apply set_lines_two, He|].
  intros ls H. split; [exact H|].
  destruct H as (ea & eb & ra & rb & dn & -> & _ & _ & _ & _ & Ia & Ib & Ra & Rb & Dn).
  assert (Hm : forall s xs, incl xs [lit "a"; lit "b"; lit "c"] -> existsb is_surrogate s = false ->
                 Forall (fun l => existsb is_surrogate l = false) (map (fun x => s ++ x) xs)).
  { intros s xs Hx Hs. apply Forall_forall. intros l Hl. apply in_map_iff in Hl as (x & <- & Hin).
    apply in_letters3_ok; auto. }
  apply Forall_app. split; [repeat constructor|].
  apply Forall_app. split; [apply Hm; [exact Ia | reflexivity]|].
  apply Forall_app. split; [apply Hm; [exact Ib | reflexivity]|].
  repeat constructor; try (apply in_letters3_ok; [assumption | reflexivity]).
  destruct Dn as [<-|[<-|[]]]; reflexivity.
Qed.

(** A negative [elements_per_set] makes the first [random.sample] raise. *)
Lemma two_set_negative e : e < 0 -> fails (generate_set_commands 2 e 3) ValueError.
Proof.
  intros He. unfold generate_set_commands. apply fails_bind_l. unfold set_command_lines. cbv zeta.
  change (map (fun c => [c]) (py_slice_upto ascii_lowercase 3)) with [lit "a"; lit "b"; lit "c"].
  change (mapM (fun i => py_chr (65 + i)) (py_range 2)) with (ret [lit "A"; lit "B"]).
  rewrite bind_ret_l. apply fails_bind_l. cbn [mapM]. apply fails_bind_l, fails_bind_l.
  rewrite sample_bad; [apply fails_throw|]. simpl. lia.
Qed.

(** C5: in every file either relation generator writes, the line after the
    header splits on whitespace into the symbols of the header, and every
    further line splits into exactly two tokens, both among those symbols. *)
Theorem relation_file_roundtrip n d :
  post (generate_relation_fast n d)
    (fun c => exists h ls, file_lines c = h :: ls
       /\ Forall (fun l => exists a b, split_ws l = [a; b]
                           /\ In a (split_ws h) /\ In b (split_ws h)) ls)
  /\ post (generate_relation_very_fast n d)
    (fun c => exists h ls, file_lines c = h :: ls
       /\ Forall (fun l => exists a b, split_ws l = [a; b]
                           /\ In a (split_ws h) /\ In b (split_ws h)) ls).
Proof.
  split; eapply post_weaken; [apply post_gen_fast | apply roundtrip_layout
                             | apply post_gen_very_fast | apply roundtrip_layout].
Qed.

(** C6 (amended): no argument is checked and no InvalidArgument is raised.
    With n = 0 both relation generators succeed for every finite double
    density and write a file holding only an empty header line, while an
    infinite or NaN density makes both raise the ValueError of
    [int(nan)]; a negative n makes both raise the ValueError of
    [random.sample]; density 2.0 is accepted ([generate_relation_fast] with
    n = 1 writes the single pair line); and the set generator clamps
    elements_per_set to universe_size: with 2 sets over 3 letters any
    elements_per_set >= 0 runs to completion and adds
    min(elements_per_set, 3) elements to each set. *)
Theorem no_argument_checks n q e :
  n < 0 -> 0 <= e -> round q = Fin q ->
  total (generate_relation_fast 0 (Fin q)) (fun c => c = nl)
  /\ total (generate_relation_very_fast 0 (Fin q)) (fun c => c = nl)
  /\ (forall d, d = PInf \/ d = NInf \/ d = NaN ->
      fails (generate_relation_fast 0 d) ValueError
      /\ fails (generate_relation_very_fast 0 d) ValueError)
  /\ (forall d, fails (generate_relation_fast n d) ValueError
                /\ fails (generate_relation_very_fast n d) ValueError)
  /\ total (generate_relation_fast 1 (Fin 2))
       (fun c => exists t, c = header [t] ++ unlines [t ++ [32] ++ t])
  /\ total (generate_set_commands 2 e 3)
       (fun c => exists ls ea eb rest, c = join nl ls ++ nl
          /\ ls = [lit "new A"; lit "new B"] ++ map (fun x => lit "add A " ++ x) ea
                  ++ map (fun x => lit "add B " ++ x) eb ++ rest
          /\ Z.of_nat (length ea) = Z.min e 3 /\ Z.of_nat (length eb) = Z.min e 3).
Proof.
  intros Hn He Eq.
  refine (conj (gen_fast_zero q) (conj (gen_very_fast_zero q Eq) (conj _ (conj _ (conj _ _))))).
  - intros d Hd. destruct Hd as [ -> | [ -> | -> ] ]; split; intros rs p; reflexivity.
  - intros d. split; intros rs p.
    + unfold generate_relation_fast. rewrite base_fast_negative by exact Hn. reflexivity.
    + unfold generate_relation_very_fast. rewrite base_very_fast_negative by exact Hn. reflexivity.
  - assert (Es : scaled 1 (Fin 2) = Fin 2) by (vm_compute; reflexivity).
    eapply total_weaken; [apply (total_fast_moderate 1 (Fin 2) 2 ltac:(lia) Es); vm_compute; discriminate|].
    intros c (base & r & Hl & Hr & ->).
    destruct base as [|t [|t' rest]]; cbn [length Z.of_nat] in Hl; try lia.
    exists t. rewrite filter_all_true; [reflexivity|].
    intros x _. cbn [flt_lt]. apply qlt_true. destruct (Hr x). lra.
  - eapply total_weaken; [apply two_set_file, He|].
    intros c (ls & -> & ea & eb & ra & rb & dn & -> & Ha & Hb & _).
    eexists _, ea, eb, _. split; [reflexivity|]. split; [reflexivity|]. auto.
Qed.

Lemma no_argument_checks_witness :
  -1 < 0 /\ 0 <= 5 /\ round (1 # 2) = Fin (1 # 2) /\
  total (generate_relation_fast 0 (Fin (1 # 2))) (fun c => c = nl)
  /\ total (generate_relation_very_fast 0 (Fin (1 # 2))) (fun c => c = nl)
  /\ (forall d, d = PInf \/ d = NInf \/ d = NaN ->
      fails (generate_relation_fast 0 d) ValueError
      /\ fails (generate_relation_very_fast 0 d) ValueError)
  /\ (forall d, fails (generate_relation_fast (-1) d) ValueError
                /\ fails (generate_relation_very_fast (-1) d) ValueError)
  /\ total (generate_relation_fast 1 (Fin 2))
       (fun c => exists t, c = header [t] ++ unlines [t ++ [32] ++ t])
  /\ total (generate_set_commands 2 5 3)
       (fun c => exists ls ea eb rest, c = join nl ls ++ nl
          /\ ls = [lit "new A"; lit "new B"] ++ map (fun x => lit "add A " ++ x) ea
                  ++ map (fun x => lit "add B " ++ x) eb ++ rest
          /\ Z.of_nat (length ea) = Z.min 5 3 /\ Z.of_nat (length eb) = Z.min 5 3).
Proof.
  assert (H1 : -1 < 0) by lia. assert (H2 : 0 <= 5) by lia.
  assert (H3 : round (1 # 2) = Fin (1 # 2)) by (vm_compute; reflexivity).
  split; [exact H1|]. split; [exact H2|]. split; [exact H3|].
  apply (no_argument_checks (-1) (1 # 2) 5 H1 H2 H3).
Defined.

(** C6 refuted: n = 0 is accepted (the file is one empty line), density 2.0
    is accepted by [generate_relation_fast] (every pair is written), n = -1
    raises ValueError only after the call has begun, not InvalidArgument,
    and the set generator accepts 5 elements per set over 3 letters. *)
Lemma arguments_not_rejected :
  generate_relation_fast 0 (Fin (1 # 2)) rs0 0%nat = Ok nl 1%nat
  /\ match generate_relation_fast 1 (Fin 2) rs0 0%nat with
     | Ok c _ => length (file_lines c)
     | Err _ => O
     end = 2%nat
  /\ generate_relation_very_fast (-1) (Fin (1 # 2)) rs0 0%nat = Err ValueError
  /\ match generate_set_commands 1 5 3 rs0 0%nat with
     | Ok _ _ => true
     | Err _ => false
     end = true.
Proof. refine (conj _ (conj _ (conj _ _))); vm_compute; reflexivity. Qed.

(** C7 (amended): for 2 sets over the universe [{a, b, c}] and any
    elements_per_set >= 0, the script is, in order: [new A], [new B],
    min(e, 3) distinct [add A] lines, min(e, 3) distinct [add B] lines, a
    bare [see], [see A], [see B], the six operation lines of (A, B) and the
    six of (B, A), then [pow A], [rem A x], [pow B], [rem B y] (each [rem]
    right after the [pow] of its set), one [del] line naming A or B, and a
    final [see]; a negative elements_per_set makes [random.sample] raise
    ValueError. *)
Theorem two_set_script e :
  (0 <= e ->
   total (generate_set_commands 2 e 3)
     (fun c => exists ls, c = join nl ls ++ nl /\ exists ea eb ra rb dn,
        ls = [lit "new A"; lit "new B"]
             ++ map (fun x => lit "add A " ++ x) ea
             ++ map (fun x => lit "add B " ++ x) eb
             ++ [lit "see"; lit "see A"; lit "see B";
                 lit "A + B"; lit "A & B"; lit "A - B"; lit "A < B"; lit "B < A"; lit "A = B";
                 lit "B + A"; lit "B & A"; lit "B - A"; lit "B < A"; lit "A < B"; lit "B = A";
                 lit "pow A"; lit "rem A " ++ ra; lit "pow B"; lit "rem B " ++ rb;
                 lit "del " ++ dn; lit "see"]
        /\ Z.of_nat (length ea) = Z.min e 3 /\ Z.of_nat (length eb) = Z.min e 3
        /\ NoDup ea /\ NoDup eb
        /\ incl ea [lit "a"; lit "b"; lit "c"] /\ incl eb [lit "a"; lit "b"; lit "c"]
        /\ In ra [lit "a"; lit "b"; lit "c"] /\ In rb [lit "a"; lit "b"; lit "c"]
        /\ In dn [lit "A"; lit "B"]))
  /\ (e < 0 -> fails (generate_set_commands 2 e 3) ValueError).
Proof. split; [exact (two_set_file e) | exact (two_set_negative e)]. Qed.

Lemma two_set_script_witness :
  (0 <= 2 /\
   total (generate_set_commands 2 2 3)
     (fun c => exists ls, c = join nl ls ++ nl /\ exists ea eb ra rb dn,
        ls = [lit "new A"; lit "new B"]
             ++ map (fun x => lit "add A " ++ x) ea
             ++ map (fun x => lit "add B " ++ x) eb
             ++ [lit "see"; lit "see A"; lit "see B";
                 lit "A + B"; lit "A & B"; lit "A - B"; lit "A < B"; lit "B < A"; lit "A = B";
                 lit "B + A"; lit "B & A"; lit "B - A"; lit "B < A"; lit "A < B"; lit "B = A";
                 lit "pow A"; lit "rem A " ++ ra; lit "pow B"; lit "rem B " ++ rb;
                 lit "del " ++ dn; lit "see"]
        /\ Z.of_nat (length ea) = Z.min 2 3 /\ Z.of_nat (length eb) = Z.min 2 3
        /\ NoDup ea /\ NoDup eb
        /\ incl ea [lit "a"; lit "b"; lit "c"] /\ incl eb [lit "a"; lit "b"; lit "c"]
        /\ In ra [lit "a"; lit "b"; lit "c"] /\ In rb [lit "a"; lit "b"; lit "c"]
        /\ In dn [lit "A"; lit "B"]))
  /\ (-1 < 0 /\ fails (generate_set_commands 2 (-1) 3) ValueError).
Proof.
  assert (H1 : 0 <= 2) by lia. assert (H2 : -1 < 0) by lia.
  split; [split; [exact H1 | apply (proj1 (two_set_script 2) H1)]|].
  split; [exact H2 | apply (proj2 (two_set_script (-1)) H2)].
Defined.

(** C7 refuted: elements_per_set is not arbitrary; -1 makes the run raise
    ValueError. *)
Lemma two_set_negative_elements : generate_set_commands 2 (-1) 3 rs0 0%nat = Err ValueError.
Proof. vm_compute. reflexivity. Qed.

(** C8: for n = 0 and n = 1 and a density in [0, 1], every run of either
    generator completes; in particular no [idx // n] or [idx % n] raises
    ZeroDivisionError. *)
Theorem small_n_complete n q :
  (n = 0 \/ n = 1) -> (0 <= q <= 1)%Q ->
  (forall rs p, exists c p', generate_relation_fast n (Fin q) rs p = Ok c p')
  /\ (forall rs p, exists c p', generate_relation_very_fast n (Fin q) rs p = Ok c p').
Proof.
  intros Hn Hq. assert (H0 : 0 <= n) by lia.
  assert (H1 : n * n <= 2 ^ 53) by (destruct Hn as [-> | ->]; vm_compute; discriminate).
  assert (H2 : n * n <= 2 ^ 1023) by (destruct Hn as [-> | ->]; vm_compute; discriminate).
  split; intros rs p.
  - destruct (fast_char n q H0 H1 Hq rs p) as (c & p' & E & _). eauto.
  - destruct (very_fast_char n q H0 H2 Hq rs p) as (c & p' & E & _). eauto.
Qed.

Lemma small_n_complete_witness :
  (1 = 0 \/ 1 = 1) /\ (0 <= 1 # 4 <= 1)%Q /\
  (forall rs p, exists c p', generate_relation_fast 1 (Fin (1 # 4)) rs p = Ok c p')
  /\ (forall rs p, exists c p', generate_relation_very_fast 1 (Fin (1 # 4)) rs p = Ok c p').
Proof.
  assert (H1 : 1 = 0 \/ 1 = 1) by (right; reflexivity).
  assert (H2 : (0 <= 1 # 4 <= 1)%Q) by (split; vm_compute; discriminate).
  split; [exact H1|]. split; [exact H2|]. apply (small_n_complete 1 (1 # 4) H1 H2).
Defined.

(** C9: two runs of either generator with the same arguments, from the
    same position of random streams that agree draw by draw, give the same
    result: the same file content, byte for byte, and the same next
    position of the stream. *)
Theorem same_seed_same_file n d rs1 rs2 p :
  (forall k, rs1 k = rs2 k) ->
  generate_relation_fast n d rs1 p = generate_relation_fast n d rs2 p
  /\ generate_relation_very_fast n d rs1 p = generate_relation_very_fast n d rs2 p.
Proof. intros H. split; [apply det_gen_fast | apply det_gen_very_fast]; exact H. Qed.

Lemma same_seed_same_file_witness :
  (forall k, rs0 k = (fun k => Z.of_nat k - Z.of_nat k) k) /\
  generate_relation_fast 3 (Fin (1 # 2)) rs0 0%nat
  = generate_relation_fast 3 (Fin (1 # 2)) (fun k => Z.of_nat k - Z.of_nat k) 0%nat
  /\ generate_relation_very_fast 3 (Fin (1 # 2)) rs0 0%nat
     = generate_relation_very_fast 3 (Fin (1 # 2)) (fun k => Z.of_nat k - Z.of_nat k) 0%nat.
Proof.
  assert (H : forall k, rs0 k = (fun k => Z.of_nat k - Z.of_nat k) k) by (intros k; cbv beta; unfold rs0; lia).
  split; [exact H|].
  apply (same_seed_same_file 3 (Fin (1 # 2)) rs0 (fun k => Z.of_nat k - Z.of_nat k) 0%nat H).
Defined.

(** C10: every script [generate_set_commands] writes has exactly
    max(n_sets // 2, 1) [del] lines, naming pairwise distinct sets, each
    created by a [new] line of the script; so with one set that set is
    deleted. *)
Theorem set_script_deletions n e u :
  post (generate_set_commands n e u)
    (fun c => exists ls dels, c = join nl ls ++ nl
       /\ filter is_del ls = map (fun nm => lit "del " ++ nm) dels
       /\ Z.of_nat (length dels) = Z.max (n / 2) 1
       /\ NoDup dels /\ Forall (fun nm => In (lit "new " ++ nm) ls) dels).
Proof.
  unfold generate_set_commands. eapply post_bind; [apply post_set_dels|].
  intros ls (dels & H1 & H2 & H3 & H4). eapply post_weaken; [apply post_fwrite|].
  intros c ->. exists ls, dels. auto.
Qed.

(** * Further properties of the generators *)

(** ** Pair lines are pairwise distinct *)

Lemma good_nth base i :
  Forall good_token base -> (i < length base)%nat -> good_token (nth i base []).
Proof. intros Hg Hi. apply (proj1 (Forall_forall _ _) Hg). apply nth_In. exact Hi. Qed.

(** Over a base of distinct tokens, two flat indices in range have the
    same line only if they are equal. *)
Lemma idx_pline_inj base n x y :
  Z.of_nat (length base) = n -> NoDup base -> Forall good_token base ->
  0 <= x < n * n -> 0 <= y < n * n -> idx_pline base n x = idx_pline base n y -> x = y.
Proof.
  intros Hl Hnd Hg Hx Hy E. unfold idx_pline, pline in E.
  assert (Hn : 0 < n) by nia.
  destruct (divmod_bounds n x Hn Hx) as [Bx1 Bx2]. destruct (divmod_bounds n y Hn Hy) as [By1 By2].
  apply (f_equal split_ws) in E.
  rewrite !split_ws_pair in E by (apply good_nth; [exact Hg | lia]).
  injection E as E1 E2.
  pose proof (proj1 (NoDup_nth base []) Hnd (Z.to_nat (x / n)) (Z.to_nat (y / n))
                ltac:(lia) ltac:(lia) E1) as F1.
  pose proof (proj1 (NoDup_nth base []) Hnd (Z.to_nat (x mod n)) (Z.to_nat (y mod n))
                ltac:(lia) ltac:(lia) E2) as F2.
  pose proof (Z.div_mod x n ltac:(lia)). pose proof (Z.div_mod y n ltac:(lia)).
  assert (x / n = y / n) by lia. assert (x mod n = y mod n) by lia. nia.
Qed.

Lemma idx_plines_distinct base n idx :
  Z.of_nat (length base) = n -> NoDup base -> Forall good_token base ->
  NoDup idx -> (forall x, In x idx -> 0 <= x < n * n) ->
  NoDup (map (idx_pline base n) idx) /\ Forall (pair_of base) (map (idx_pline base n) idx).
Proof.
  intros Hl Hnd Hg Hi Hr. split.
  - apply NoDup_map_inj_in; [|exact Hi]. intros x y Hx Hy.
    apply (idx_pline_inj base n); auto.
  - apply Forall_forall. intros l Hl'. apply in_map_iff in Hl' as (x & <- & Hx).
    specialize (Hr x Hx). assert (Hn : 0 < n) by nia.
    destruct (divmod_bounds n x Hn Hr) as [B1 B2].
    exists (nth (Z.to_nat (x / n)) base []), (nth (Z.to_nat (x mod n)) base []).
    split; [apply nth_In; lia|]. split; [apply nth_In; lia | reflexivity].
Qed.



Lemma fast_distinct n q :
  0 <= n <= 94 + 1102335 -> (0 <= q <= 1)%Q ->
  total (generate_relation_fast n (Fin q))
    (fun c => exists base ls, Z.of_nat (length base) = n /\ NoDup base
       /\ c = header base ++ unlines ls /\ NoDup ls /\ Forall (pair_of base) ls).
Proof.
  intros Hn Hq.
  assert (Hb : n * n <= 2 ^ 53).
  { assert (K : (94 + 1102335) * (94 + 1102335) <= 2 ^ 53) by (vm_compute; discriminate). nia. }
  eapply total_weaken; [apply fast_char; [lia | exact Hb | exact Hq]|].
  intros c (base & idx & Hl & Hg & Hnd & -> & Hi & Hr & _).
  specialize (Hnd (proj2 Hn)).
  destruct (idx_plines_distinct base n idx Hl Hnd Hg Hi Hr) as [D P].
  exists base, (map (idx_pline base n) idx). auto.
Qed.



(** X2: for [0 <= n <= 94 + 1102335] and density in [0, 1],
    [generate_relation_fast] always completes, with a header of [n]
    distinct tokens followed by pairwise distinct pair lines over them. *)
Theorem fast_no_repeated_pair n q :
  0 <= n <= 94 + 1102335 -> (0 <= q <= 1)%Q ->
  total (generate_relation_fast n (Fin q))
    (fun c => exists base ls, Z.of_nat (length base) = n /\ NoDup base
       /\ c = header base ++ unlines ls /\ NoDup ls /\ Forall (pair_of base) ls).
Proof. exact (fast_distinct n q). Qed.

Lemma fast_no_repeated_pair_witness :
  0 <= 5 <= 94 + 1102335 /\ (0 <= 1 # 4 <= 1)%Q /\
  total (generate_relation_fast 5 (Fin (1 # 4)))
    (fun c => exists base ls, Z.of_nat (length base) = 5 /\ NoDup base
       /\ c = header base ++ unlines ls /\ NoDup ls /\ Forall (pair_of base) ls).
Proof.
  assert (H1 : 0 <= 5 <= 94 + 1102335) by lia.
  assert (H2 : (0 <= 1 # 4 <= 1)%Q) by (split; vm_compute; discriminate).
  split; [exact H1|]. split; [exact H2|]. apply (fast_no_repeated_pair 5 (1 # 4) H1 H2).
Defined.



(** ** Order of the pair lines *)










(** ** Densities outside [0, 1] *)



(** X7: [generate_relation_fast] with a density at least [1] and
    [n * n * density] at most one million writes every pair, row by row:
    the lines of the flat indices [0, 1, ..., n * n - 1] in this order. *)
Theorem fast_full_density n q :
  0 <= n -> (1 <= q)%Q -> (inject_Z (n * n) * q <= inject_Z 1000000)%Q ->
  total (generate_relation_fast n (Fin q))
    (fun c => exists base, Z.of_nat (length base) = n
       /\ c = header base ++ unlines (map (idx_pline base n) (py_range (n * n)))).
Proof.
  intros Hn Hq Hx. assert (Hnn : 0 <= n * n) by nia.
  assert (HZ : (0 <= inject_Z (n * n))%Q) by (change 0%Q with (inject_Z 0); rewrite <- Zle_Qle; lia).
  assert (H1 : (1 * inject_Z (n * n) <= q * inject_Z (n * n))%Q) by (apply Qmult_le_compat_r; assumption).
  assert (Hm : n * n <= 1000000) by (rewrite Zle_Qle; lra).
  assert (Hb : n * n <= 2 ^ 53) by (assert (1000000 <= 2 ^ 53) by (vm_compute; discriminate); lia).
  assert (H0 : (0 <= inject_Z (n * n) * q)%Q) by lra.
  destruct (round_le _ _ _ H0 Hx (round_Z 1000000 ltac:(split; [lia | vm_compute; discriminate])))
    as (y & Ey & Hy).
  assert (Hs : scaled n (Fin q) = Fin y) by (unfold scaled; rewrite round_Z by lia; exact Ey).
  eapply total_weaken; [apply (total_fast_moderate n (Fin q) y Hn Hs Hy)|].
  intros c (base & r & Hl & Hr & ->). exists base. split; [exact Hl|].
  rewrite filter_all_true; [reflexivity|].
  intros x _. cbn [flt_lt]. apply qlt_true. destruct (Hr x). lra.
Qed.

Lemma fast_full_density_witness :
  0 <= 3 /\ (1 <= 2)%Q /\ (inject_Z (3 * 3) * 2 <= inject_Z 1000000)%Q /\
  total (generate_relation_fast 3 (Fin 2))
    (fun c => exists base, Z.of_nat (length base) = 3
       /\ c = header base ++ unlines (map (idx_pline base 3) (py_range (3 * 3)))).
Proof.
  assert (H1 : 0 <= 3) by lia. assert (H2 : (1 <= 2)%Q) by (vm_compute; discriminate).
  assert (H3 : (inject_Z (3 * 3) * 2 <= inject_Z 1000000)%Q) by (vm_compute; discriminate).
  split; [exact H1|]. split; [exact H2|]. split; [exact H3|].
  apply (fast_full_density 3 2 H1 H2 H3).
Defined.






(** ** The exceptions of the relation generators *)

Lemma outcome_ret {A} (a : A) (P : A -> Prop) E : P a -> outcome (ret a) P E.
Proof. intros H rs p. exact H. Qed.

Lemma outcome_throw {A} (P : A -> Prop) (E : exn -> Prop) e : E e -> outcome (throw e) P E.
Proof. intros H rs p. exact H. Qed.












(** ** Batched writes *)

Lemma batches_shape lines batch :
  Z.of_nat (length batch) < 10000 ->
  Forall (fun w => exists b, w = flush b /\ 1 <= Z.of_nat (length b) <= 10000) (batches lines batch)
  /\ Z.of_nat (length (batches lines batch))
     = (Z.of_nat (length batch) + Z.of_nat (length lines) + 9999) / 10000.
Proof.
  revert batch. induction lines as [|l r IH]; intros batch Hb.
  - destruct batch as [|b bs].
    + split; [constructor | reflexivity].
    + cbn [batches length] in *. split.
      * constructor; [|constructor]. exists (b :: bs). split; [reflexivity|]. cbn [length]. lia.
      * Z.to_euclidean_division_equations. lia.
  - cbn [batches length].
    destruct (Z.leb_spec 10000 (Z.of_nat (length (batch ++ [l])))) as [E|E];
      rewrite length_app in E; cbn [length] in E.
    + destruct (IH [] ltac:(cbn [length]; lia)) as [F C]. split.
      * constructor; [|exact F]. exists (batch ++ [l]). split; [reflexivity|].
        rewrite length_app. cbn [length]. lia.
      * cbn [length]. rewrite Nat2Z.inj_succ, C. cbn [length].
        Z.to_euclidean_division_equations. lia.
    + destruct (IH (batch ++ [l]) ltac:(rewrite length_app; cbn [length]; lia)) as [F C].
      split; [exact F|]. rewrite C, length_app. cbn [length]. f_equal. lia.
Qed.

(** X11: the batching of the writers: the strings passed to [f.write]
    concatenate to the lines, each ended by a newline; each is
    ["\n".join(batch) + "\n"] for a batch of 1 to 10000 lines; and there
    are exactly [ceil(len(lines) / 10000)] of them. *)
Theorem batched_writes lines :
  concat (batches lines []) = unlines lines
  /\ Forall (fun w => exists b, w = flush b /\ 1 <= Z.of_nat (length b) <= 10000) (batches lines [])
  /\ Z.of_nat (length (batches lines [])) = (Z.of_nat (length lines) + 9999) / 10000.
Proof.
  destruct (batches_shape lines [] ltac:(cbn [length]; lia)) as [F C].
  split; [apply batches_concat|]. split; [exact F|]. rewrite C. reflexivity.
Qed.

(** ** The set-command script *)

Lemma ascii_lowercase_length : length ascii_lowercase = 26%nat.
Proof. reflexivity. Qed.

Lemma ascii_lowercase_NoDup : NoDup ascii_lowercase.
Proof. apply nodupb_NoDup. vm_compute. reflexivity. Qed.

Lemma letters_NoDup u : NoDup (letters_of u).
Proof.
  unfold letters_of, py_slice_upto. apply (NoDup_map_single _).
  apply NoDup_firstn, ascii_lowercase_NoDup.
Qed.

Lemma letters_length u : 0 <= u -> Z.of_nat (length (letters_of u)) = Z.min u 26.
Proof.
  intros Hu. unfold letters_of, py_slice_upto. rewrite length_map, length_firstn, ascii_lowercase_length.
  replace (u <? 0) with false by (symmetry; apply Z.ltb_ge; lia). lia.
Qed.

Lemma letters_length_le u : (length (letters_of u) <= 26)%nat.
Proof.
  unfold letters_of, py_slice_upto. rewrite length_map, length_firstn, ascii_lowercase_length. lia.
Qed.

Lemma letters_char u x : In x (letters_of u) -> exists c, x = [c] /\ 97 <= c < 123.
Proof.
  unfold letters_of, py_slice_upto. intros Hx. apply in_map_iff in Hx as (c & <- & Hc).
  apply in_firstn in Hc. exists c. split; [reflexivity|]. apply py_range2_spec, Hc.
Qed.

Lemma letters_nonempty u : 1 <= u -> letters_of u <> [].
Proof.
  intros Hu E. pose proof (letters_length u ltac:(lia)) as L. rewrite E in L. simpl in L. lia.
Qed.

Lemma set_names_ok n :
  n <= 1114047 -> mapM (fun i => py_chr (65 + i)) (py_range n) = ret (set_names_of n).
Proof.
  intros Hn. apply mapM_pure. intros i Hi. apply py_range_spec in Hi. unfold py_chr.
  replace ((0 <=? 65 + i) && (65 + i <=? 1114111)) with true; [reflexivity|].
  symmetry. apply andb_true_iff. split; [apply Z.leb_le | apply Z.leb_le]; lia.
Qed.

Lemma set_names_length n : length (set_names_of n) = Z.to_nat n.
Proof. unfold set_names_of. rewrite length_map. apply py_range_length. Qed.

Lemma set_names_of_NoDup n : NoDup (set_names_of n).
Proof. apply set_names_NoDup. Qed.

Lemma post_choice {A} (d : A) s : post (choice d s) (fun x => In x s).
Proof.
  destruct s as [|h t]; [apply post_throw|]. apply total_post, total_choice. discriminate.
Qed.

Lemma Forall2_split {A B C} (g : A -> B -> C) (P : B -> Prop) l ls :
  Forall2 (fun a c => exists b, c = g a b /\ P b) l ls ->
  exists bs, ls = map (fun ab => g (fst ab) (snd ab)) (combine l bs)
             /\ length bs = length l /\ Forall P bs.
Proof.
  induction 1 as [|a c l ls (b & -> & Hb) _ (bs & -> & Hl & Hbs)].
  - exists []. auto.
  - exists (b :: bs). simpl. auto.
Qed.

(** The lines of every successful run, laid out by [set_script]. *)
Lemma post_set_shape n e u :
  post (set_command_lines n e u)
    (fun ls => exists elemss rems dels,
       ls = set_script (set_names_of n) elemss rems dels
       /\ 1 <= n
       /\ length elemss = Z.to_nat n
       /\ Forall (fun el => Z.of_nat (length el) = Z.min e u /\ NoDup el /\ incl el (letters_of u))
                 elemss
       /\ length rems = Z.to_nat n /\ Forall (fun r => In r (letters_of u)) rems
       /\ Z.of_nat (length dels) = Z.max (n / 2) 1 /\ NoDup dels /\ incl dels (set_names_of n)).
Proof.
  unfold set_command_lines. cbv zeta.
  change (map (fun c => [c]) (py_slice_upto ascii_lowercase u)) with (letters_of u).
  eapply post_bind; [apply post_set_names|]. intros names ->.
  change (map (fun i => [65 + i]) (py_range n)) with (set_names_of n).
  eapply post_bind.
  { apply (post_mapM _ (fun name ls => exists el,
             ls = (fun name el => map (fun x => lit "add " ++ name ++ lit " " ++ x) el) name el
             /\ (fun el => Z.of_nat (length el) = Z.min e u /\ NoDup el /\ incl el (letters_of u)) el)).
    intros name _. eapply post_bind; [apply post_sample|]. intros el (Hl & rest & Hp). apply post_ret.
    exists el. destruct (sample_props _ _ _ Hp (letters_NoDup u)) as [Hnd Hincl]. auto. }
  intros adds Hadds. apply Forall2_split in Hadds as (elemss & -> & Hel & Hels).
  eapply post_bind.
  { apply (post_mapM _ (fun name ls => exists r,
             ls = (fun name r => [lit "pow " ++ name; lit "rem " ++ name ++ lit " " ++ r]) name r
             /\ (fun r => In r (letters_of u)) r)).
    intros name _. eapply post_bind; [apply post_choice|]. intros r Hr. apply post_ret. eauto. }
  intros pows Hpows. apply Forall2_split in Hpows as (rems & -> & Hrl & Hrs).
  eapply post_bind; [apply post_sample|]. intros dels (Hk & rest & Hp). apply post_ret.
  destruct (sample_props _ _ _ Hp (set_names_of_NoDup n)) as [Hnd Hincl].
  rewrite set_names_length in Hel, Hrl, Hk.
  pose proof (Permutation_length Hp) as HL. rewrite length_app, set_names_length in HL.
  assert (Hn : 1 <= n).
  { destruct (Z_le_gt_dec n 0) as [Hn|Hn]; [|lia].
    assert (Hz : Z.to_nat n = 0%nat) by lia. rewrite Hz in HL, Hk. simpl in Hk.
    destruct dels; simpl in *; [discriminate | lia]. }
  exists elemss, rems, dels. split; [reflexivity|]. split; [exact Hn|].
  split; [exact Hel|]. split; [exact Hels|]. split; [exact Hrl|]. split; [exact Hrs|].
  split; [|split; [exact Hnd | exact Hincl]].
  rewrite Hk, Z2Nat.id by lia.
  destruct (Z.eqb_spec (n / 2) 0) as [E|E]; [rewrite E; reflexivity|].
  pose proof (Z.div_pos n 2 ltac:(lia) ltac:(lia)). lia.
Qed.

(** X12: every script [generate_set_commands] writes is, in order: [new]
    for each set [A], [B], ... ([chr(65 + i)]); for each set, its
    [min(elements_per_set, universe_size)] [add] lines naming distinct
    letters among [string.ascii_lowercase[:universe_size]]; [see], then
    [see] for each set; the six operation lines of each ordered pair of
    distinct sets; for each set, [pow] followed by a [rem] of one of the
    letters; [max(n_sets // 2, 1)] [del] lines of distinct sets; a final
    [see].  A run that writes anything has [n_sets >= 1]. *)
Theorem set_script_layout n e u :
  post (generate_set_commands n e u)
    (fun c => exists elemss rems dels,
       c = join nl (set_script (set_names_of n) elemss rems dels) ++ nl
       /\ 1 <= n
       /\ length elemss = Z.to_nat n
       /\ Forall (fun el => Z.of_nat (length el) = Z.min e u /\ NoDup el /\ incl el (letters_of u))
                 elemss
       /\ length rems = Z.to_nat n /\ Forall (fun r => In r (letters_of u)) rems
       /\ Z.of_nat (length dels) = Z.max (n / 2) 1 /\ NoDup dels /\ incl dels (set_names_of n)).
Proof.
  unfold generate_set_commands. eapply post_bind; [apply post_set_shape|].
  intros ls (elemss & rems & dels & -> & H). eapply post_weaken; [apply post_fwrite|].
  intros c ->. exists elemss, rems, dels. auto.
Qed.

Lemma length_concat_const {A B} (f : A -> list B) l m :
  (forall a, In a l -> length (f a) = m) -> length (concat (map f l)) = (length l * m)%nat.
Proof.
  induction l as [|a l IH]; simpl; intros H; [reflexivity|].
  rewrite length_app, H, IH by auto. reflexivity.
Qed.

Lemma str_eqb_refl a : str_eqb a a = true.
Proof. induction a as [|x a IH]; simpl; [reflexivity|]. rewrite Z.eqb_refl, IH. reflexivity. Qed.

Lemma ops_row_out a l :
  ~ In a l ->
  length (concat (map (fun b => if str_eqb a b then [] else pair_ops a b) l)) = (6 * length l)%nat.
Proof.
  induction l as [|b l IH]; simpl; intros H; [reflexivity|].
  destruct (str_eqb a b) eqn:E.
  - apply str_eqb_eq in E. subst. exfalso. apply H. left. reflexivity.
  - rewrite length_app, IH by tauto. simpl. lia.
Qed.

Lemma ops_row_in a l :
  NoDup l -> In a l ->
  length (concat (map (fun b => if str_eqb a b then [] else pair_ops a b) l))
  = (6 * (length l - 1))%nat.
Proof.
  induction 1 as [|b l Hb Hnd IH]; intros Ha; [destruct Ha|]. cbn [map concat].
  destruct (str_eqb a b) eqn:E.
  - apply str_eqb_eq in E. subst. rewrite length_app, ops_row_out by exact Hb. simpl. lia.
  - destruct Ha as [->|Ha]; [rewrite str_eqb_refl in E; discriminate|].
    rewrite length_app, IH by exact Ha. destruct l; [destruct Ha|]. simpl. lia.
Qed.

Lemma set_script_length names elemss rems dels k :
  NoDup names -> length elemss = length names -> Forall (fun el => length el = k) elemss ->
  length rems = length names ->
  length (set_script names elemss rems dels)
  = (length names + length names * k + S (length names) + length names * (6 * (length names - 1))
     + length names * 2 + length dels + 1)%nat.
Proof.
  intros Hnd He Hk Hr. unfold set_script. rewrite !length_app. cbn [length]. rewrite !length_map.
  rewrite (length_concat_const _ (combine names elemss) k).
  2:{ intros [nm el] Hp. rewrite length_map. apply in_combine_r in Hp.
      exact (proj1 (Forall_forall _ _) Hk el Hp). }
  rewrite (length_concat_const _ names (6 * (length names - 1))%nat)
    by (intros a Ha; apply ops_row_in; assumption).
  rewrite (length_concat_const _ (combine names rems) 2) by reflexivity.
  rewrite !length_combine, He, Hr, !Nat.min_id. lia.
Qed.

(** X13: every script [generate_set_commands] writes has exactly
    [n + n*k + (1 + n) + 6*n*(n - 1) + 2*n + max(n // 2, 1) + 1] lines,
    where [n] is [n_sets] and [k = min(elements_per_set, universe_size)]. *)
Theorem set_script_line_count n e u :
  post (generate_set_commands n e u)
    (fun c => exists ls, c = join nl ls ++ nl
       /\ Z.of_nat (length ls)
          = n + n * Z.min e u + (1 + n) + 6 * n * (n - 1) + 2 * n + Z.max (n / 2) 1 + 1).
Proof.
  unfold generate_set_commands. eapply post_bind; [apply post_set_shape|].
  intros ls (elemss & rems & dels & -> & Hn & He & Hels & Hr & _ & Hd & _ & _).
  eapply post_weaken; [apply post_fwrite|]. intros c ->. eexists. split; [reflexivity|].
  assert (Hk0 : 0 <= Z.min e u).
  { destruct elemss as [|el ?]; [simpl in He; lia|].
    inversion Hels as [|? ? (L & _) _]; subst. lia. }
  assert (Hk : Forall (fun el => length el = Z.to_nat (Z.min e u)) elemss).
  { eapply Forall_impl; [|exact Hels]. intros el (L & _). lia. }
  rewrite (set_script_length _ _ _ _ (Z.to_nat (Z.min e u)) (set_names_of_NoDup n));
    rewrite ?set_names_length; auto.
  set (N := Z.to_nat n) in *. set (K := Z.to_nat (Z.min e u)) in *.
  assert (EN : Z.of_nat N = n) by (unfold N; lia). assert (EK : Z.of_nat K = Z.min e u) by (unfold K; lia).
  rewrite <- Hd, <- EN, <- EK. nia.
Qed.

Lemma total_and_post {A} (m : M A) (P Q : A -> Prop) :
  total m P -> post m Q -> total m (fun a => P a /\ Q a).
Proof. intros Ht Hp rs p. destruct (Ht rs p) as (a & p' & E & Ha). exists a, p'. eauto. Qed.

Lemma fails_outcome {A} (m : M A) (P : A -> Prop) e : fails m e -> outcome m P (fun e' => e' = e).
Proof. intros H rs p. rewrite H. reflexivity. Qed.

Lemma mapM_fails {A B} (f : A -> M B) l x e :
  In x l -> fails (f x) e -> (forall y, In y l -> outcome (f y) (fun _ => True) (fun e' => e' = e)) ->
  fails (mapM f l) e.
Proof.
  induction l as [|y t IH]; [intros []|]. intros Hx Hf Ho rs p. cbn [mapM]. unfold bind at 1.
  destruct Hx as [<-|Hx].
  - rewrite Hf. reflexivity.
  - pose proof (Ho y (or_introl eq_refl) rs p) as Hy. destruct (f y rs p) as [b p'|e'].
    + unfold bind. rewrite (IH Hx Hf (fun z Hz => Ho z (or_intror Hz)) rs p'). reflexivity.
    + cbv beta in Hy. subst. reflexivity.
Qed.

Lemma existsb_join_in (f : Z -> bool) sep ls l :
  In l ls -> existsb f l = true -> existsb f (join sep ls) = true.
Proof.
  induction ls as [|x t IH]; intros Hl Hf; [destruct Hl|].
  destruct t as [|y t'].
  - destruct Hl as [<-|[]]. exact Hf.
  - change (join sep (x :: y :: t')) with (x ++ sep ++ join sep (y :: t')).
    rewrite !existsb_app. destruct Hl as [<-|Hl]; [rewrite Hf; reflexivity|].
    rewrite IH by assumption. rewrite !orb_true_r. reflexivity.
Qed.

Lemma total_set_lines n e u :
  1 <= n <= 1114047 -> 0 <= e -> 1 <= u -> Z.min e u <= 26 ->
  total (set_command_lines n e u) (fun _ => True).
Proof.
  intros Hn He Hu Hk. unfold set_command_lines. cbv zeta.
  change (map (fun c => [c]) (py_slice_upto ascii_lowercase u)) with (letters_of u).
  rewrite set_names_ok by lia. rewrite bind_ret_l.
  eapply total_bind; [apply total_adds; pose proof (letters_length u ltac:(lia)); lia|].
  intros adds _.
  eapply total_bind; [apply total_pows, letters_nonempty; lia|]. intros pows _.
  eapply total_bind; [apply total_sample|].
  - rewrite set_names_length, Z2Nat.id by lia.
    destruct (Z.eqb_spec (n / 2) 0); [lia|].
    split; [apply Z.div_pos; lia | apply Z.div_le_upper_bound; lia].
  - intros dels _. apply total_ret. exact I.
Qed.

(** No line of the script holds a surrogate while the set names stay
    below [chr(0xD800)]. *)
Lemma set_script_no_surrogate n u elemss rems dels :
  n <= 55231 -> Forall (fun el => incl el (letters_of u)) elemss ->
  Forall (fun r => In r (letters_of u)) rems -> incl dels (set_names_of n) ->
  Forall (fun l => existsb is_surrogate l = false) (set_script (set_names_of n) elemss rems dels).
Proof.
  intros Hn He Hr Hd.
  assert (N : forall nm, In nm (set_names_of n) -> existsb is_surrogate nm = false).
  { intros nm Hnm. unfold set_names_of in Hnm. apply in_map_iff in Hnm as (i & <- & Hi).
    apply py_range_spec in Hi. cbn [existsb]. unfold is_surrogate.
    replace (55296 <=? 65 + i) with false by (symmetry; apply Z.leb_gt; lia). reflexivity. }
  assert (L : forall x, In x (letters_of u) -> existsb is_surrogate x = false).
  { intros x Hx. destruct (letters_char u x Hx) as (c & -> & Hc). simpl. unfold is_surrogate.
    replace (55296 <=? c) with false by (symmetry; apply Z.leb_gt; lia). reflexivity. }
  unfold set_script. rewrite !Forall_app.
  split; [|split; [|split; [|split; [|split; [|split]]]]]; apply Forall_forall; intros l Hl.
  - apply in_map_iff in Hl as (nm & <- & Hnm). rewrite existsb_app, (N nm Hnm). reflexivity.
  - apply in_concat in Hl as (ls & Hls & Hl). apply in_map_iff in Hls as ([nm el] & <- & Hp).
    cbn [fst snd] in Hl. apply in_map_iff in Hl as (x & <- & Hx).
    pose proof (in_combine_l _ _ _ _ Hp) as Hnm. pose proof (in_combine_r _ _ _ _ Hp) as Hel.
    pose proof (proj1 (Forall_forall _ _) He el Hel x Hx) as Hx'.
    rewrite !existsb_app, (N nm Hnm), (L x Hx'). reflexivity.
  - destruct Hl as [<-|Hl]; [reflexivity|].
    apply in_map_iff in Hl as (nm & <- & Hnm). rewrite existsb_app, (N nm Hnm). reflexivity.
  - apply in_concat in Hl as (ls & Hls & Hl). apply in_map_iff in Hls as (a & <- & Ha).
    apply in_concat in Hl as (ls' & Hls' & Hl). apply in_map_iff in Hls' as (b & <- & Hb).
    destruct (str_eqb a b); [destruct Hl|].
    unfold pair_ops in Hl.
    repeat destruct Hl as [<-|Hl]; try contradiction;
      rewrite !existsb_app, (N a Ha), (N b Hb); reflexivity.
  - apply in_concat in Hl as (ls & Hls & Hl). apply in_map_iff in Hls as ([nm r] & <- & Hp).
    cbn [fst snd] in Hl.
    pose proof (in_combine_l _ _ _ _ Hp) as Hnm. pose proof (in_combine_r _ _ _ _ Hp) as Hr'.
    pose proof (proj1 (Forall_forall _ _) Hr r Hr') as Hr''.
    destruct Hl as [<-|[<-|[]]]; rewrite !existsb_app, (N nm Hnm); [reflexivity|].
    rewrite (L r Hr''). reflexivity.
  - apply in_map_iff in Hl as (nm & <- & Hnm). rewrite existsb_app, (N nm (Hd nm Hnm)). reflexivity.
  - destruct Hl as [<-|[]]. reflexivity.
Qed.

(** X14: [generate_set_commands] completes, for every random stream,
    when [1 <= n_sets <= 55231], [elements_per_set >= 0],
    [universe_size >= 1] and [min(elements_per_set, universe_size) <= 26]. *)
Theorem set_commands_complete n e u :
  1 <= n <= 55231 -> 0 <= e -> 1 <= u -> Z.min e u <= 26 ->
  total (generate_set_commands n e u) (fun _ => True).
Proof.
  intros Hn He Hu Hk. unfold generate_set_commands.
  eapply total_bind; [apply total_and_post; [apply total_set_lines; lia | apply post_set_shape]|].
  intros ls (_ & elemss & rems & dels & -> & _ & _ & Hels & _ & Hrs & _ & _ & Hd).
  rewrite fwrite_ok; [apply total_ret; exact I|].
  rewrite existsb_app, join_ok; [reflexivity | reflexivity |].
  apply (set_script_no_surrogate n u); [lia | | exact Hrs | exact Hd].
  eapply Forall_impl; [|exact Hels]. intros el (_ & _ & H). exact H.
Qed.

Lemma set_commands_complete_witness :
  1 <= 4 <= 55231 /\ 0 <= 30 /\ 1 <= 10 /\ Z.min 30 10 <= 26 /\
  total (generate_set_commands 4 30 10) (fun _ => True).
Proof.
  assert (H1 : 1 <= 4 <= 55231) by lia. assert (H2 : 0 <= 30) by lia.
  assert (H3 : 1 <= 10) by lia. assert (H4 : Z.min 30 10 <= 26) by lia.
  split; [exact H1|]. split; [exact H2|]. split; [exact H3|]. split; [exact H4|].
  apply (set_commands_complete 4 30 10 H1 H2 H3 H4).
Defined.

(** X15: [generate_set_commands] raises ValueError, for every random
    stream, when [n_sets <= 0] ([random.sample] of one name out of none),
    when [elements_per_set < 0] or [universe_size < 0], or both exceed 26
    ([random.sample] of the letters with a count out of range), or when
    [n_sets > 1114047] ([chr] past U+10FFFF). *)
Theorem set_commands_value_error n e u :
  (n <= 0 \/ e < 0 \/ u < 0 \/ (26 < e /\ 26 < u) \/ 1114047 < n) ->
  fails (generate_set_commands n e u) ValueError.
Proof.
  intros H. unfold generate_set_commands. apply fails_bind_l. unfold set_command_lines. cbv zeta.
  change (map (fun c => [c]) (py_slice_upto ascii_lowercase u)) with (letters_of u).
  destruct (Z_le_gt_dec n 1114047) as [Hn|Hn].
  2:{ apply fails_bind_l. apply (mapM_fails _ _ 1114047).
      - apply py_range_spec. lia.
      - intros rs p. reflexivity.
      - intros y _. unfold py_chr. destruct (_ && _); [apply outcome_ret; exact I | apply outcome_throw; reflexivity]. }
  rewrite set_names_ok by exact Hn. rewrite bind_ret_l.
  destruct (Z_le_gt_dec n 0) as [H0|H0].
  - assert (E : set_names_of n = []) by (apply length_zero_iff_nil; rewrite set_names_length; lia).
    rewrite E. cbn [mapM]. rewrite !bind_ret_l.
    apply fails_bind_l. rewrite sample_bad; [apply fails_throw|]. simpl. lia.
  - assert (Hk : ~ (0 <= Z.min e u <= Z.of_nat (length (letters_of u))))
      by (pose proof (letters_length_le u); lia).
    apply fails_bind_l. apply (mapM_fails _ _ [65]).
    + unfold set_names_of. apply in_map_iff. exists 0. split; [reflexivity | apply py_range_spec; lia].
    + apply fails_bind_l. rewrite sample_bad by exact Hk. apply fails_throw.
    + intros y _. apply fails_outcome, fails_bind_l. rewrite sample_bad by exact Hk. apply fails_throw.
Qed.

Lemma set_commands_value_error_witness :
  (3 <= 0 \/ -1 < 0 \/ 5 < 0 \/ (26 < -1 /\ 26 < 5) \/ 1114047 < 3)
  /\ fails (generate_set_commands 3 (-1) 5) ValueError.
Proof.
  assert (H : 3 <= 0 \/ -1 < 0 \/ 5 < 0 \/ (26 < -1 /\ 26 < 5) \/ 1114047 < 3) by lia.
  split; [exact H|]. apply (set_commands_value_error 3 (-1) 5 H).
Defined.

(** X16: with [universe_size = 0], [1 <= n_sets <= 1114047] and
    [elements_per_set >= 0], [generate_set_commands] raises IndexError:
    [random.choice] of the empty string of letters. *)
Theorem set_commands_empty_universe n e :
  1 <= n <= 1114047 -> 0 <= e -> fails (generate_set_commands n e 0) IndexError.
Proof.
  intros Hn He. unfold generate_set_commands. apply fails_bind_l. unfold set_command_lines. cbv zeta.
  change (map (fun c => [c]) (py_slice_upto ascii_lowercase 0)) with (@nil str).
  rewrite set_names_ok by lia. rewrite bind_ret_l.
  eapply fails_bind_r; [apply total_adds; simpl; lia|]. intros adds _.
  apply fails_bind_l. apply (mapM_fails _ _ [65]).
  - unfold set_names_of. apply in_map_iff. exists 0. split; [reflexivity | apply py_range_spec; lia].
  - apply fails_bind_l. intros rs p. reflexivity.
  - intros y _. apply fails_outcome, fails_bind_l. intros rs p. reflexivity.
Qed.

Lemma set_commands_empty_universe_witness :
  1 <= 2 <= 1114047 /\ 0 <= 4 /\ fails (generate_set_commands 2 4 0) IndexError.
Proof.
  assert (H1 : 1 <= 2 <= 1114047) by lia. assert (H2 : 0 <= 4) by lia.
  split; [exact H1|]. split; [exact H2|]. apply (set_commands_empty_universe 2 4 H1 H2).
Defined.

(** X17: with [55232 <= n_sets <= 1114047] (and the other arguments as in
    X14) the script is built but not written: the set name
    [chr(65 + 55231) = chr(0xD800)] is a surrogate, and [f.write] raises
    UnicodeEncodeError. *)
Theorem set_commands_surrogate_name n e u :
  55232 <= n <= 1114047 -> 0 <= e -> 1 <= u -> Z.min e u <= 26 ->
  fails (generate_set_commands n e u) UnicodeEncodeError.
Proof.
  intros Hn He Hu Hk. unfold generate_set_commands.
  eapply fails_bind_r; [apply total_and_post; [apply total_set_lines; lia | apply post_set_shape]|].
  intros ls (_ & elemss & rems & dels & -> & _).
  unfold fwrite. replace (existsb is_surrogate _) with true; [apply fails_throw|]. symmetry.
  rewrite existsb_app. apply orb_true_intro. left.
  apply (existsb_join_in _ _ _ (lit "new " ++ [55296])); [|reflexivity].
  unfold set_script. apply in_or_app. left. apply in_map.
  unfold set_names_of. apply in_map_iff. exists 55231. split; [reflexivity|]. apply py_range_spec. lia.
Qed.

Lemma set_commands_surrogate_name_witness :
  55232 <= 60000 <= 1114047 /\ 0 <= 2 /\ 1 <= 3 /\ Z.min 2 3 <= 26 /\
  fails (generate_set_commands 60000 2 3) UnicodeEncodeError.
Proof.
  assert (H1 : 55232 <= 60000 <= 1114047) by lia. assert (H2 : 0 <= 2) by lia.
  assert (H3 : 1 <= 3) by lia. assert (H4 : Z.min 2 3 <= 26) by lia.
  split; [exact H1|]. split; [exact H2|]. split; [exact H3|]. split; [exact H4|].
  apply (set_commands_surrogate_name 60000 2 3 H1 H2 H3 H4).
Defined.

(** X18: when [universe_size <= elements_per_set] and
    [universe_size <= 26], every set of the script receives every letter
    of [string.ascii_lowercase[:universe_size]], once each. *)
Theorem set_full_universe n e u :
  u <= e -> u <= 26 ->
  post (generate_set_commands n e u)
    (fun c => exists elemss rems dels,
       c = join nl (set_script (set_names_of n) elemss rems dels) ++ nl
       /\ length elemss = Z.to_nat n /\ Forall (fun el => Permutation el (letters_of u)) elemss).
Proof.
  intros H1 H2. unfold generate_set_commands. eapply post_bind; [apply post_set_shape|].
  intros ls (elemss & rems & dels & -> & _ & He & Hels & _). eapply post_weaken; [apply post_fwrite|].
  intros c ->. exists elemss, rems, dels. split; [reflexivity|]. split; [exact He|].
  eapply Forall_impl; [|exact Hels]. intros el (L & Hnd & Hincl).
  apply NoDup_Permutation_bis; [exact Hnd | | exact Hincl].
  pose proof (letters_length u ltac:(lia)). lia.
Qed.

Lemma set_full_universe_witness :
  4 <= 9 /\ 4 <= 26 /\
  post (generate_set_commands 3 9 4)
    (fun c => exists elemss rems dels,
       c = join nl (set_script (set_names_of 3) elemss rems dels) ++ nl
       /\ length elemss = Z.to_nat 3 /\ Forall (fun el => Permutation el (letters_of 4)) elemss).
Proof.
  assert (H1 : 4 <= 9) by lia. assert (H2 : 4 <= 26) by lia.
  split; [exact H1|]. split; [exact H2|]. apply (set_full_universe 3 9 4 H1 H2).
Defined.
